(** * asyncdgt: the command-line demo of the DGT board driver

    A shallow embedding of [asyncdgt/__main__.py]: the entry point that
    reads the port globs from the command line, the asynchronous demo
    [main_async] that drives the connection handle, and the helper
    [clock_display_sentence].

    The driver library itself ([asyncdgt.auto_connect] and the handle it
    returns), [asyncio], [logging] and [serial] are collaborators of this
    file: every call into them is recorded as an [event] and answered by a
    [world], which may let the call return, raise, or never come back.
    Where a property is about what the driver does behind the handle,
    the world is the driver as the spec designs it. *)

From Stdlib Require Import List String Ascii ZArith QArith Bool Arith Lia.
Import ListNotations.
Local Close Scope Q_scope.
Local Open Scope string_scope.
Local Open Scope list_scope.

(* ================================================================== *)
(** * Part I: definitions                                              *)
(* ================================================================== *)

(** ** Board state and its FEN-like serialization *)

Inductive color := White | Black.

Inductive role := Pawn | Knight | Bishop | Rook | Queen | King.

Record piece := { piece_color : color; piece_role : role }.

(** Modelled from the spec: the board value type of the driver (the
    class behind [get_board()] is not part of [__main__.py]).  A board
    state is a 64-square occupancy snapshot, piece or empty per square,
    plus a sequence number from the device.  Square (file, rank), both
    counted from 0, is stored at index [8 * rank + file]. *)
Record Board := { occupancy : list (option piece); sequence : N }.

Definition piece_at (b : Board) (file rank : nat) : option piece :=
  nth (8 * rank + file) (occupancy b) None.

Definition rank_squares (b : Board) (rank : nat) : list (option piece) :=
  map (fun file => piece_at b file rank) (seq 0 8).

(** Ranks in the order of serialization: rank 8 first, rank 1 last. *)
Definition ranks_from_8_to_1 (b : Board) : list (list (option piece)) :=
  map (rank_squares b) [7; 6; 5; 4; 3; 2; 1; 0]%nat.

Definition role_letter (r : role) : ascii :=
  match r with
  | Pawn => "p" | Knight => "n" | Bishop => "b"
  | Rook => "r" | Queen => "q" | King => "k"
  end%char.

Definition upper (c : ascii) : ascii := ascii_of_nat (nat_of_ascii c - 32).

(** Standard FEN letters: upper case for white, lower case for black. *)
Definition piece_symbol (p : piece) : ascii :=
  match piece_color p with
  | White => upper (role_letter (piece_role p))
  | Black => role_letter (piece_role p)
  end.

Definition digit (n : nat) : ascii := ascii_of_nat (48 + n).

(** A pending run of [n] empty squares is written as one digit. *)
Definition flush (n : nat) : list ascii :=
  match n with O => [] | _ => [digit n] end.

(** Modelled from the spec: one rank in FEN rank syntax, with runs of
    empty squares compressed to their length.  [empties] is the length of
    the run of empty squares read so far. *)
Fixpoint rank_fen_from (empties : nat) (row : list (option piece)) : list ascii :=
  match row with
  | [] => flush empties
  | None :: row' => rank_fen_from (S empties) row'
  | Some p :: row' => flush empties ++ piece_symbol p :: rank_fen_from 0 row'
  end.

Definition rank_fen (row : list (option piece)) : list ascii :=
  rank_fen_from 0 row.

Fixpoint join (sep : ascii) (parts : list (list ascii)) : list ascii :=
  match parts with
  | [] => []
  | [p] => p
  | p :: rest => p ++ sep :: join sep rest
  end.

(** Modelled from the spec: the [board_fen()] accessor of the board
    value.  Occupancy only: the eight ranks from rank 8 down to rank 1,
    separated by a slash, and nothing after them. *)
Definition board_fen (b : Board) : string :=
  string_of_list_ascii (join "/"%char (map rank_fen (ranks_from_8_to_1 b))).

(** *** Reading a FEN placement back *)

Definition digit_value (c : ascii) : option nat :=
  let n := nat_of_ascii c in
  if (Nat.leb 49 n && Nat.leb n 56)%bool then Some (n - 48)%nat else None.

Definition is_digit (c : ascii) : bool :=
  let n := nat_of_ascii c in (Nat.leb 48 n && Nat.leb n 57)%bool.

Definition piece_of_symbol (c : ascii) : option piece :=
  match c with
  | "P" => Some {| piece_color := White; piece_role := Pawn |}
  | "N" => Some {| piece_color := White; piece_role := Knight |}
  | "B" => Some {| piece_color := White; piece_role := Bishop |}
  | "R" => Some {| piece_color := White; piece_role := Rook |}
  | "Q" => Some {| piece_color := White; piece_role := Queen |}
  | "K" => Some {| piece_color := White; piece_role := King |}
  | "p" => Some {| piece_color := Black; piece_role := Pawn |}
  | "n" => Some {| piece_color := Black; piece_role := Knight |}
  | "b" => Some {| piece_color := Black; piece_role := Bishop |}
  | "r" => Some {| piece_color := Black; piece_role := Rook |}
  | "q" => Some {| piece_color := Black; piece_role := Queen |}
  | "k" => Some {| piece_color := Black; piece_role := King |}
  | _ => None
  end%char.

(** Expands one rank string: a digit stands for that many empty squares,
    a piece letter for the piece. *)
Fixpoint expand_rank (cs : list ascii) : option (list (option piece)) :=
  match cs with
  | [] => Some []
  | c :: cs' =>
      match digit_value c with
      | Some n => option_map (app (repeat None n)) (expand_rank cs')
      | None =>
          match piece_of_symbol c with
          | Some p => option_map (cons (Some p)) (expand_rank cs')
          | None => None
          end
      end
  end.

(** Cuts a character list at every occurrence of [sep]. *)
Fixpoint split_on (sep : ascii) (cs : list ascii) : list (list ascii) :=
  match cs with
  | [] => [[]]
  | c :: cs' =>
      if Ascii.eqb c sep then [] :: split_on sep cs'
      else match split_on sep cs' with
           | [] => [[c]]
           | p :: rest => (c :: p) :: rest
           end
  end.

Fixpoint all_some {A} (l : list (option A)) : option (list A) :=
  match l with
  | [] => Some []
  | None :: _ => None
  | Some a :: l' => option_map (cons a) (all_some l')
  end.

(** A placement string is read as its slash-separated ranks. *)
Definition parse_placement (s : string) : option (list (list (option piece))) :=
  all_some (map expand_rank (split_on "/"%char (list_ascii_of_string s))).

(** No two digits stand next to each other: every run of empty squares
    is written as a single number. *)
Fixpoint no_adjacent_digits (cs : list ascii) : bool :=
  match cs with
  | [] => true
  | c :: cs' =>
      match cs' with
      | [] => true
      | d :: _ => negb (is_digit c && is_digit d) && no_adjacent_digits cs'
      end
  end.

Definition contains (c : ascii) (cs : list ascii) : bool :=
  existsb (Ascii.eqb c) cs.

(** The characters of a rank: the digits 1 to 8 and the piece letters. *)
Definition is_rank_char (c : ascii) : bool :=
  match digit_value c, piece_of_symbol c with
  | None, None => false
  | _, _ => true
  end.

(** The characters of a placement: those of a rank, and the slash. *)
Definition is_placement_char (c : ascii) : bool :=
  (Ascii.eqb c "/" || is_rank_char c)%bool.

(** ** Python strings: [str.split()] and [str.strip()]

    A [string] is read as a sequence of characters with code points
    below 256. *)

(** [str.isspace] on those characters. *)
Definition is_whitespace (c : ascii) : bool :=
  let n := nat_of_ascii c in
  ((Nat.leb 9 n && Nat.leb n 13) || (Nat.leb 28 n && Nat.leb n 32)
   || Nat.eqb n 133 || Nat.eqb n 160)%bool.

(** The word read so far, if there is one, is a result of the split. *)
Definition emit (word : list ascii) : list (list ascii) :=
  match word with [] => [] | _ => [word] end.

Fixpoint split_from (word cs : list ascii) : list (list ascii) :=
  match cs with
  | [] => emit word
  | c :: cs' =>
      if is_whitespace c then emit word ++ split_from [] cs'
      else split_from (word ++ [c]) cs'
  end.

(** [sentence.split()]: the maximal runs of characters that are not
    whitespace, in order; no empty strings. *)
Definition split (sentence : string) : list string :=
  map string_of_list_ascii (split_from [] (list_ascii_of_string sentence)).

Fixpoint lstrip (cs : list ascii) : list ascii :=
  match cs with
  | [] => []
  | c :: cs' => if is_whitespace c then lstrip cs' else cs
  end.

(** [s.strip()] *)
Definition strip (s : string) : string :=
  string_of_list_ascii (rev (lstrip (rev (lstrip (list_ascii_of_string s))))).

(** ** Python values, exceptions and results *)

(** The exceptions the program tells apart.  [TimeoutError] and
    [Exception] are instances of Python's [Exception]; [CancelledError]
    and [SystemExit] derive from [BaseException] only, so that an
    [except Exception] clause does not catch them. *)
Inductive exn :=
| TimeoutError
| CancelledError
| Exception (msg : string)
| SystemExit (code : option Z).

Definition is_Exception (e : exn) : bool :=
  match e with
  | TimeoutError | Exception _ => true
  | CancelledError | SystemExit _ => false
  end.

#[warnings="-register-all"]
Inductive value :=
| VNone
| VBool (b : bool)
| VInt (n : Z)
| VFloat (q : Q)
| VStr (s : string)
| VFmt (parts : list value)        (* an f-string, by its parts *)
| VExc (e : exn)
| VTuple (items : list value)
| VList (items : list value)
| VBoard (b : Board)
| VObject (id : nat).              (* any other object, by identity *)

(** What a call into a collaborator does: it returns, raises, or never
    comes back. *)
Inductive result (A : Type) :=
| Returns (a : A)
| Raises (e : exn)
| Hangs.
Arguments Returns {A} a.
Arguments Raises {A} e.
Arguments Hangs {A}.

(** ** Events *)

(** The functions [main_async] defines and registers on the handle. *)
Inductive handler :=
| on_connected | on_disconnected | on_board | on_button_pressed | on_clock.

(** A method call on [receiver], with positional and keyword arguments. *)
Record call := {
  receiver : value;
  method : string;
  args : list value;
  kwargs : list (string * value)
}.

Inductive event :=
| BasicConfig (level : string)          (* logging.basicConfig(level=...) *)
| Comports                              (* serial.tools.list_ports.comports() *)
| Print (line : list value)             (* print(line...) *)
| AutoConnect (port_globs : list string)(* await asyncdgt.auto_connect(loop, port_globs) *)
| On (dgt : value) (kind : string) (h : handler)   (* @dgt.on(kind) def h *)
| Sleep (delay : Q)                     (* await asyncio.sleep(delay) *)
| Await (c : call) (timeout : option Q) (* await c, or await asyncio.wait_for(c, timeout) *)
| AwaitForever                          (* await asyncio.Future() *)
| Close (dgt : value)                   (* dgt.close() *)
| AllTasks                              (* asyncio.all_tasks(loop=loop) *)
| Cancel (task : value)                 (* task.cancel() *)
| Gather (tasks : list value)           (* await asyncio.gather(tasks..., return_exceptions=True) *)
| LoopClose.                            (* loop.close() *)

Definition history := list event.

(** The collaborators: given everything that happened so far, the last
    event being the call that is made now, the outcome of that call. *)
Definition world := history -> result value.

(** ** The monad of the program

    A computation reads the world and the history before it, and yields
    the events it adds and how it ends. *)
Definition M (A : Type) : Type := world -> history -> list event * result A.

Definition ret {A} (a : A) : M A := fun _ _ => ([], Returns a).

Definition bind {A B} (m : M A) (k : A -> M B) : M B :=
  fun w h =>
    let (o1, r1) := m w h in
    match r1 with
    | Returns a => let (o2, r2) := k a w (h ++ o1) in (o1 ++ o2, r2)
    | Raises e => (o1, Raises e)
    | Hangs => (o1, Hangs)
    end.

Declare Scope py_scope.
Delimit Scope py_scope with py.
Notation "x <- m ;; k" := (bind m (fun x => k))
  (at level 61, m at next level, right associativity) : py_scope.
Notation "m ;; k" := (bind m (fun _ => k))
  (at level 61, right associativity) : py_scope.
Local Open Scope py_scope.

(** A call into a collaborator: recorded, and answered by the world. *)
Definition perform (e : event) : M value :=
  fun w h => ([e], w (h ++ [e])).

(** [print(...)]: recorded; it returns. *)
Definition print (line : list value) : M unit :=
  fun _ _ => ([Print line], Returns tt).

Definition raise {A} (e : exn) : M A := fun _ _ => ([], Raises e).

(** [try: body except ...: ...]: [handlers e] is the body of the first
    except clause that matches [e], if any. *)
Definition try_except {A} (body : M A) (handlers : exn -> option (M A)) : M A :=
  fun w h =>
    let (o1, r1) := body w h in
    match r1 with
    | Raises e =>
        match handlers e with
        | Some k => let (o2, r2) := k w (h ++ o1) in (o1 ++ o2, r2)
        | None => (o1, Raises e)
        end
    | _ => (o1, r1)
    end.

(** [try: body finally: cleanup]: the cleanup runs however the body
    ends; what it raises replaces the outcome of the body. *)
Definition try_finally {A} (body : M A) (cleanup : M unit) : M A :=
  fun w h =>
    let (o1, r1) := body w h in
    match r1 with
    | Hangs => (o1, Hangs)
    | _ =>
        let (o2, r2) := cleanup w (h ++ o1) in
        (o1 ++ o2,
         match r2 with
         | Returns _ => r1
         | Raises e => Raises e
         | Hangs => Hangs
         end)
    end.

(** [for x in items: body x] *)
Fixpoint for_each {A} (items : list A) (body : A -> M unit) : M unit :=
  match items with
  | [] => ret tt
  | x :: rest => body x ;; for_each rest body
  end.

(** Iterating over a value that is not a sequence raises [TypeError]. *)
Definition iterate (v : value) : M (list value) :=
  match v with
  | VTuple items | VList items => ret items
  | _ => raise (Exception "TypeError: object is not iterable")
  end.

(** [board.board_fen()] on whatever [get_board()] returned. *)
Definition call_board_fen (board : value) : M value :=
  match board with
  | VBoard b => ret (VStr (board_fen b))
  | _ => raise (Exception "AttributeError: board_fen")
  end.

(** The events a run adds, and how it ends. *)
Definition run {A} (m : M A) (w : world) : list event * result A := m w [].
Definition trace {A} (m : M A) (w : world) : list event := fst (run m w).
Definition outcome {A} (m : M A) (w : world) : result A := snd (run m w).

(** ** The program: [asyncdgt/__main__.py] *)

(** The module docstring, [__doc__]. *)
Definition doc : string := "
The asyncdgt library.
Copyright (C) 2015 Niklas Fiekas <niklas.fiekas@tu-clausthal.de>

Usage:
  python -m asyncdgt [--debug] <dgt-port>

[--debug]
  Enable debug logger.

<dgt-port>
  The serial port with the DGT board.
".

(** [for dev, name, info in ...]: unpacking one port entry. *)
Definition print_port (entry : value) : M unit :=
  match entry with
  | VTuple [dev; name; info] | VList [dev; name; info] =>
      print [VFmt [VStr "  * "; dev; VStr " ("; info; VStr ")"]]
  | _ => raise (Exception "ValueError: cannot unpack")
  end.

Definition usage : M Z :=
  (* Print usage information. *)
  print [VStr (strip doc)] ;;
  (* List the available ports. *)
  print [VStr "  Probably one of:"] ;;
  ports <- perform Comports ;;
  entries <- iterate ports ;;
  for_each entries print_port ;;
  ret 1%Z.

(** What each registered handler prints when the driver calls it with
    [payload]; [None] when the number of arguments does not fit the
    function ([TypeError]). *)
Definition handler_body (h : handler) (payload : list value) : option (list event) :=
  match h, payload with
  | on_connected, [port] =>
      Some [Print [VFmt [VStr "Board connected to "; port; VStr "!"]]]
  | on_disconnected, [] =>
      Some [Print [VStr "Board disconnected!"]]
  | on_board, [board] =>
      Some [Print [VStr "Position changed:"]; Print [board]]
  | on_button_pressed, [button] =>
      Some [Print [VFmt [VStr "Button "; button; VStr " pressed!"]]]
  | on_clock, [clock] =>
      Some [Print [VStr "Clock status changed:"; clock]]
  | _, _ => None
  end.

(** [dgt.name(...)] with positional arguments only. *)
Definition dgt_call (dgt : value) (name : string) (positional : list value) : call :=
  {| receiver := dgt; method := name; args := positional; kwargs := [] |}.

(** [dgt.clock_set(left_time=10, right_time=7, left_running=True)] *)
Definition countdown_call (dgt : value) : call :=
  {| receiver := dgt; method := "clock_set"; args := [];
     kwargs := [("left_time", VInt 10); ("right_time", VInt 7);
                ("left_running", VBool true)] |}.

(** How a block of [main_async] hands over: to the next statement, or
    out of the function with a [return]. *)
Inductive flow := Next | Return (v : option Z).

Definition get_some_information (dgt : value) : M flow :=
  try_except
    (version <- perform (Await (dgt_call dgt "get_version" []) None) ;;
     print [VStr "Version:"; version] ;;
     serial <- perform (Await (dgt_call dgt "get_serialnr" []) None) ;;
     print [VStr "Serial:"; serial] ;;
     long_serial <- perform (Await (dgt_call dgt "get_long_serialnr" []) None) ;;
     print [VStr "Long serial:"; long_serial] ;;
     board <- perform (Await (dgt_call dgt "get_board" []) None) ;;
     fen <- call_board_fen board ;;
     print [VStr "Board:"; fen] ;;
     ret Next)
    (fun e =>
       match e with
       | CancelledError =>
           Some (print [VStr "Connection or information retrieval cancelled."] ;;
                 ret (Return None))
       | _ =>
           if is_Exception e
           then Some (print [VFmt [VStr "Error getting board information: "; VExc e]] ;;
                      ret Next)
           else None
       end).

(** The two except clauses shared by the timed commands: first
    [asyncio.TimeoutError], then [Exception as e]. *)
Definition on_timeout_or_error (timed_out : string) (failed : string)
  (e : exn) : option (M unit) :=
  match e with
  | TimeoutError => Some (print [VStr timed_out])
  | _ =>
      if is_Exception e
      then Some (print [VFmt [VStr failed; VExc e]])
      else None
  end.

Definition get_the_clock_version (dgt : value) : M unit :=
  try_except
    (version <- perform (Await (dgt_call dgt "get_clock_version" []) (Some 1.0%Q)) ;;
     print [VStr "Clock version:"; version])
    (on_timeout_or_error "Clock version request timed out."
                         "Error getting clock version: ").

Definition clock_display_sentence (dgt : value) (sentence : string) : M unit :=
  for_each (split sentence) (fun word =>
    perform (Sleep 0.2%Q) ;;
    try_except
      (perform (Await (dgt_call dgt "clock_text" [VStr word]) (Some 0.5%Q)) ;;
       ret tt)
      (on_timeout_or_error "Sending clock text timed out."
                           "Error sending clock text: ")).

Definition quote : string :=
  "Now, I am become death, the destroyer of worlds. Ready".

Definition let_the_clock_beep (dgt : value) : M unit :=
  try_except
    (print [VStr "Beep ..."] ;;
     perform (Await (dgt_call dgt "clock_beep" [VFloat 0.1%Q]) (Some 1.0%Q)) ;;
     ret tt)
    (on_timeout_or_error "Beep not acknowledged in time."
                         "Error making clock beep: ").

Definition start_a_countdown (dgt : value) : M unit :=
  try_except
    (print [VStr "Countdown ..."] ;;
     perform (Await (countdown_call dgt) (Some 1.0%Q)) ;;
     ret tt)
    (on_timeout_or_error "Clock does not respond."
                         "Error setting clock countdown: ").

(** The [finally] block of [main_async]. *)
Definition shut_down (dgt : value) : M unit :=
  perform (Close dgt) ;;
  (* Get all tasks and cancel them gracefully. *)
  pending <- perform AllTasks ;;
  tasks <- iterate pending ;;
  for_each tasks (fun task => perform (Cancel task) ;; ret tt) ;;
  (* Wait for all tasks to complete, ignoring CancelledError *)
  perform (Gather tasks) ;;
  perform LoopClose ;;
  print [VStr "Event loop closed."].

Definition run_the_event_loop (dgt : value) : M unit :=
  print [VStr "Running event loop ... Press Ctrl+C to exit."] ;;
  try_finally
    (try_except
       (perform AwaitForever ;; ret tt)
       (fun e =>
          match e with
          | CancelledError =>
              Some (print [VStr "
Event loop cancelled (e.g., via Ctrl+C). Shutting down..."])
          | _ => None
          end))
    (shut_down dgt).

(** [main_async] from its second [try] statement to its end. *)
Definition drive_the_clock (dgt : value) : M (option Z) :=
  (* Get the clock version. *)
  get_the_clock_version dgt ;;
  (* Display some text. *)
  print [VStr "Displaying text ..."] ;;
  clock_display_sentence dgt quote ;;
  (* Let the clock beep. *)
  let_the_clock_beep dgt ;;
  (* Start a countdown. *)
  start_a_countdown dgt ;;
  (* Run the event loop. *)
  run_the_event_loop dgt ;;
  ret (Some 0%Z).

(** [loop = asyncio.get_running_loop()] only names the running loop; the
    calls made with it are [AutoConnect], [AllTasks] and [LoopClose]. *)
Definition main_async (port_globs : list string) : M (option Z) :=
  dgt <- perform (AutoConnect port_globs) ;;
  perform (On dgt "connected" on_connected) ;;
  perform (On dgt "disconnected" on_disconnected) ;;
  perform (On dgt "board" on_board) ;;
  perform (On dgt "button_pressed" on_button_pressed) ;;
  perform (On dgt "clock" on_clock) ;;
  (* Give auto_connect some time to establish a connection. *)
  perform (Sleep 0.1%Q) ;;
  (* Get some information. *)
  f <- get_some_information dgt ;;
  match f with
  | Return v => ret v
  | Next => drive_the_clock dgt
  end.

(** [sys.exit(code)] raises [SystemExit]. *)
Definition sys_exit {A} (code : option Z) : M A := raise (SystemExit code).

(** [asyncio.run(coro)] runs the coroutine to its end, as the main task
    of a loop of its own, and hands back what it returns or raises.  A
    cancellation that comes out of the coroutine comes out of
    [asyncio.run] too, as [CancelledError] or, after Ctrl+C, as
    [KeyboardInterrupt]: the two are not told apart here, both are the
    outcome [Raises CancelledError]. *)
Definition asyncio_run {A} (coro : M A) : M A := coro.

Definition is_debug (arg : string) : bool := String.eqb arg "--debug".

(** [[arg for arg in sys.argv[1:] if arg != "--debug"]] *)
Definition port_globs_of (argv : list string) : list string :=
  filter (fun arg => negb (is_debug arg)) (skipn 1 argv).

(** [if "--debug" in sys.argv: logging.basicConfig(level=logging.DEBUG)];
    the configuration is recorded, and it returns. *)
Definition configure_logging (argv : list string) : M unit :=
  if existsb is_debug argv
  then fun _ _ => ([BasicConfig "DEBUG"], Returns tt)
  else ret tt.

Definition main_entrypoint (argv : list string) : M unit :=
  configure_logging argv ;;
  let port_globs := port_globs_of argv in
  match port_globs with
  | [] => code <- usage ;; sys_exit (Some code)
  | _ => code <- asyncio_run (main_async port_globs) ;; sys_exit code
  end.

(** The exit status of the interpreter: [sys.exit(None)] is status 0,
    [sys.exit(n)] is status [n], an [Exception] nobody catches is status
    1.  A run that hangs has none; and neither has, as far as this
    program decides, a run whose main task ends cancelled: for a task
    that Ctrl+C cancelled [asyncio.run] raises [KeyboardInterrupt], on
    which the interpreter ends by the signal and not by an exit. *)
Definition exit_status {A} (r : result A) : option Z :=
  match r with
  | Returns _ => Some 0%Z
  | Raises (SystemExit None) => Some 0%Z
  | Raises (SystemExit (Some n)) => Some n
  | Raises CancelledError => None
  | Raises _ => Some 1%Z
  | Hangs => None
  end.

(** ** Some worlds to run the program in *)

(** A world that answers each call by looking at the call alone. *)
Definition answering (answer : event -> result value) : world :=
  fun h => match rev h with e :: _ => answer e | [] => Hangs end.

Definition start_position : Board :=
  let row c rs := map (fun r => Some {| piece_color := c; piece_role := r |}) rs in
  let back := [Rook; Knight; Bishop; Queen; King; Bishop; Knight; Rook] in
  let pawns := repeat Pawn 8 in
  {| occupancy := row White back ++ row White pawns ++ repeat None 32
                  ++ row Black pawns ++ row Black back;
     sequence := 0%N |}.

Definition reply (c : call) : value :=
  if String.eqb (method c) "get_board" then VBoard start_position
  else if String.eqb (method c) "get_version" then VStr "1.8"
  else if String.eqb (method c) "get_serialnr" then VStr "12345"
  else if String.eqb (method c) "get_long_serialnr" then VStr "3.25.12345"
  else if String.eqb (method c) "get_clock_version" then VStr "2.2"
  else VNone.

(** A board with a clock is attached and answers everything; the user
    presses Ctrl+C while the event loop runs, and two other tasks are
    pending then. *)
Definition attached (e : event) : result value :=
  match e with
  | Comports =>
      Returns (VList [VTuple [VStr "/dev/ttyUSB0"; VStr "ttyUSB0"; VStr "USB VID:PID=0403:6001"]])
  | AutoConnect _ => Returns (VObject 0)
  | Await c _ => Returns (reply c)
  | AwaitForever => Raises CancelledError
  | AllTasks => Returns (VList [VObject 1; VObject 2])
  | Cancel _ => Returns (VBool true)
  | Gather _ => Returns (VList [VNone; VNone])
  | _ => Returns VNone
  end.

(** The same, but the clock never answers: every call made under
    [asyncio.wait_for] runs into its timeout. *)
Definition silent_clock (e : event) : result value :=
  match e with
  | Await _ (Some _) => Raises TimeoutError
  | _ => attached e
  end.

(** The loop as [asyncio] has it while [main_async] runs on it.  The
    task of [main_async] is one of the tasks of the loop; to wait, from
    inside that task, for all the tasks it has just cancelled, itself
    among them, does not come back; and a loop that is running refuses
    to be closed. *)
Definition running_loop (e : event) : result value :=
  match e with
  | AllTasks => Returns (VList [VObject 1; VObject 2])
  | Gather _ => Hangs
  | LoopClose => Raises (Exception "RuntimeError: Cannot close a running event loop")
  | _ => attached e
  end.

(** The task is cancelled during the first command. *)
Definition cancelled_early (e : event) : result value :=
  match e with
  | Await _ None => Raises CancelledError
  | _ => attached e
  end.

(** ** Reading traces *)

Definition events {A} (m : M A) (w : world) (h : history) : list event := fst (m w h).
Definition ending {A} (m : M A) (w : world) (h : history) : result A := snd (m w h).

(** The commands awaited on the handle, each with the timeout the
    caller put around it. *)
Definition awaited (evs : list event) : list (call * option Q) :=
  flat_map (fun e => match e with Await c t => [(c, t)] | _ => [] end) evs.

Definition methods_called (evs : list event) : list string :=
  map (fun ct => method (fst ct)) (awaited evs).

Definition is_command (name : string) (e : event) : bool :=
  match e with Await c _ => String.eqb (method c) name | _ => false end.

Definition is_print (e : event) : bool :=
  match e with Print _ => true | _ => false end.

Definition is_await_forever (e : event) : bool :=
  match e with AwaitForever => true | _ => false end.

(** Events that open or close a connection. *)
Definition is_connection_event (e : event) : bool :=
  match e with AutoConnect _ | Close _ => true | _ => false end.

(** Events of the event loop and of the shutdown after it. *)
Definition is_shutdown_event (e : event) : bool :=
  match e with
  | AwaitForever | Close _ | AllTasks | Cancel _ | Gather _ | LoopClose => true
  | _ => false
  end.

(** Cuts a trace at the first event that satisfies [p]: the events
    before it and the events after it. *)
Fixpoint cut_at (p : event -> bool) (evs : list event) : option (list event * list event) :=
  match evs with
  | [] => None
  | e :: rest =>
      if p e then Some ([], rest)
      else match cut_at p rest with
           | Some (before, after) => Some (e :: before, after)
           | None => None
           end
  end.

(** The events before the first one that satisfies [p]. *)
Fixpoint until (p : event -> bool) (evs : list event) : list event :=
  match evs with
  | [] => []
  | e :: rest => if p e then [] else e :: until p rest
  end.

Definition registrations (evs : list event) : list (string * handler) :=
  flat_map (fun e => match e with On _ kind h => [(kind, h)] | _ => [] end) evs.

(** The number of parameters of each handler, from its [def]. *)
Definition handler_arity (h : handler) : nat :=
  match h with
  | on_disconnected => 0
  | on_connected | on_board | on_button_pressed | on_clock => 1
  end.

(** Modelled from the spec: the kinds of events the Event Bus of the
    driver supports, each with the number of values its payload has
    ([connected(port_identifier)], [disconnected()], [board(Board
    State)], [button_pressed(button_identifier)], [clock(Clock State)]). *)
Definition event_kinds : list (string * nat) :=
  [("connected", 1); ("disconnected", 0); ("board", 1);
   ("button_pressed", 1); ("clock", 1)]%nat.

(** Modelled from the spec: the public command surface as the spec
    names it, each operation with its named parameters. *)
Definition command_surface : list (string * list string) :=
  [("get_version", []); ("get_serial_number", []);
   ("get_long_serial_number", []); ("get_board", []);
   ("get_clock_version", []); ("clock_beep", ["duration"]);
   ("clock_set", ["left_time"; "right_time"; "left_running"; "right_running"]);
   ("clock_text", ["text"])].

(** The operations [main_async] calls on the handle: name, number of
    positional arguments, names of the keyword arguments. *)
Definition driven_surface : list (string * nat * list string) :=
  [("get_version", 0, []); ("get_serialnr", 0, []);
   ("get_long_serialnr", 0, []); ("get_board", 0, []);
   ("get_clock_version", 0, []); ("clock_text", 1, []);
   ("clock_beep", 1, []);
   ("clock_set", 0, ["left_time"; "right_time"; "left_running"])]%nat.

Definition signature_of (c : call) : string * nat * list string :=
  (method c, List.length (args c), map fst (kwargs c)).

(** The argument list without its ["--debug"] entries, everything else
    kept as it is and where it is. *)
Inductive without_debug : list string -> list string -> Prop :=
| wd_nil : without_debug [] []
| wd_drop args globs :
    without_debug args globs -> without_debug ("--debug" :: args) globs
| wd_keep arg args globs :
    arg <> "--debug" ->
    without_debug args globs -> without_debug (arg :: args) (arg :: globs).

(** A call that ends without cancelling the caller: it returns, runs
    into the timeout, or fails with an [Exception]. *)
Definition not_cancelled {A} (r : result A) : Prop :=
  match r with
  | Returns _ => True
  | Raises e => is_Exception e = true
  | Hangs => False
  end.

(** What the sentence display is to attempt for a list of words. *)
Definition attempts (dgt : value) (words : list string) : list event :=
  flat_map (fun word =>
    [Sleep 0.2%Q; Await (dgt_call dgt "clock_text" [VStr word]) (Some 0.5%Q)]) words.

(** The timed commands of the demo, from the clock version on. *)
Definition clock_commands (dgt : value) : list (call * option Q) :=
  (dgt_call dgt "get_clock_version" [], Some 1.0%Q)
  :: map (fun word => (dgt_call dgt "clock_text" [VStr word], Some 0.5%Q)) (split quote)
  ++ [(dgt_call dgt "clock_beep" [VFloat 0.1%Q], Some 1.0%Q);
      (countdown_call dgt, Some 1.0%Q)].

(** A chunk of a split: not empty, and free of whitespace. *)
Definition is_word (cs : list ascii) : Prop :=
  cs <> [] /\ forallb (fun c => negb (is_whitespace c)) cs = true.

(** [Separated cs words]: [cs] is the words in order, with whitespace
    and only whitespace before, between and after them. *)
Inductive Separated : list ascii -> list (list ascii) -> Prop :=
| sep_end gap :
    forallb is_whitespace gap = true -> Separated gap []
| sep_word gap word rest words :
    forallb is_whitespace gap = true ->
    is_word word ->
    (rest = [] \/ exists c rest', rest = c :: rest' /\ is_whitespace c = true) ->
    Separated rest words ->
    Separated (gap ++ word ++ rest) (word :: words).

(** Every event a computation adds satisfies [P], in every world and
    after every history. *)
Definition emits {A} (P : event -> Prop) (m : M A) : Prop :=
  forall w h, Forall P (events m w h).

(** The events of [main_async] between [auto_connect] and the clock
    version request: registrations, the first sleep, the information
    requests and what is printed. *)
Definition is_setup_event (e : event) : bool :=
  match e with
  | On _ _ _ | Sleep _ | Print _ => true
  | Await c None => negb (String.eqb (method c) "get_clock_version")
  | _ => false
  end.

(** The events of [main_async] from the clock version request up to the
    event loop: timed commands, sleeps, and what is printed. *)
Definition is_clock_event (e : event) : bool :=
  match e with
  | Sleep _ | Print _ | Await _ (Some _) => true
  | _ => false
  end.

Definition cancelled_line : event :=
  Print [VStr "Connection or information retrieval cancelled."].

Definition closed_line : event := Print [VStr "Event loop closed."].

Definition shutting_down_line : event :=
  Print [VStr "
Event loop cancelled (e.g., via Ctrl+C). Shutting down..."].

(** How the outcome of the event loop becomes that of [main_async]. *)
Definition then_return_0 (r : result unit) : result (option Z) :=
  match r with
  | Returns _ => Returns (Some 0%Z)
  | Raises e => Raises e
  | Hangs => Hangs
  end.

(** A computation either stops, having added events that satisfy [P]
    and without returning, or goes on into [f] after such events. *)
Definition stops_or_continues {A B} (P : event -> Prop)
  (m : M A) (f : M B) (g : result B -> result A) : Prop :=
  forall w h,
    (Forall P (events m w h) /\ forall a, ending m w h <> Returns a)
    \/ exists pre,
         Forall P pre
         /\ events m w h = pre ++ events f w (h ++ pre)
         /\ ending m w h = g (ending f w (h ++ pre)).

(** Whatever a computation returns satisfies [Q]. *)
Definition returns_only {A} (Q : A -> Prop) (m : M A) : Prop :=
  forall w h a, ending m w h = Returns a -> Q a.

(** When the computation returns, the last event it added is [x]. *)
Definition returns_after {A} (x : event) (m : M A) : Prop :=
  forall w h a, ending m w h = Returns a -> exists evs, events m w h = evs ++ [x].

Definition running_line : event :=
  Print [VStr "Running event loop ... Press Ctrl+C to exit."].

(** The events of the shutdown that follow [dgt.close()]. *)
Definition is_cleanup_event (e : event) : bool :=
  match e with
  | AllTasks | Cancel _ | Gather _ | LoopClose | Print _ => true
  | _ => false
  end.

Definition is_close (e : event) : bool :=
  match e with Close _ => true | _ => false end.

Definition is_auto_connect (e : event) : bool :=
  match e with AutoConnect _ => true | _ => false end.

(** [m] returns, and the commands it awaited are [cmds]. *)
Definition performs (m : M unit) (cmds : list (call * option Q))
  (w : world) (h : history) : Prop :=
  ending m w h = Returns tt /\ awaited (events m w h) = cmds.

(** The handlers [main_async] registers, in the order of registration. *)
Definition the_handlers : list (string * handler) :=
  [("connected", on_connected); ("disconnected", on_disconnected);
   ("board", on_board); ("button_pressed", on_button_pressed);
   ("clock", on_clock)].

(** A registration as the spec reads it: the kind of event and the
    number of values the handler takes. *)
Definition kind_and_arity (r : string * handler) : string * nat :=
  (fst r, handler_arity (snd r)).

(** The calls of [main_async] before the event loop that wait for an
    answer: the registrations, the sleeps and the awaited commands. *)
Definition waits_for_an_answer (e : event) : bool :=
  match e with On _ _ _ | Sleep _ | Await _ _ => true | _ => false end.

(** The name under which [main_async] calls an operation of the command
    surface: the two serial-number operations are [get_serialnr] and
    [get_long_serialnr] there; every other operation is called by the
    name the spec gives it. *)
Definition name_in_the_demo (name : string) : string :=
  if String.eqb name "get_serial_number" then "get_serialnr"
  else if String.eqb name "get_long_serial_number" then "get_long_serialnr"
  else name.

(** The command surface of the spec under the names of the demo; the
    parameters of each operation are left as the spec lists them. *)
Definition surface_of_the_demo : list (string * list string) :=
  map (fun op => (name_in_the_demo (fst op), snd op)) command_surface.

(** Keyword arguments are bound by name, each to a parameter that no
    argument was bound to before. *)
Fixpoint binds (params keywords : list string) : bool :=
  match keywords with
  | [] => true
  | keyword :: rest =>
      existsb (String.eqb keyword) params
      && binds (filter (fun param => negb (String.eqb keyword param)) params) rest
  end.

(** An operation with the parameters [params] accepts the arguments of
    the call [c]: the positional arguments go to the first parameters,
    the keyword arguments to parameters among the others.  (The spec
    does not say which parameters have a default; a call may leave
    parameters out.) *)
Definition accepts (params : list string) (c : call) : bool :=
  Nat.leb (List.length (args c)) (List.length params)
  && binds (skipn (List.length (args c)) params) (map fst (kwargs c)).

(** [c] calls an operation of the surface with arguments it accepts. *)
Definition invocable (surface : list (string * list string)) (c : call) : bool :=
  existsb (fun op => String.eqb (fst op) (method c) && accepts (snd op) c) surface.

(** [dgt.clock_set(...)] with all four parameters given by name. *)
Definition clock_set_call (dgt left_time right_time left_running right_running : value)
  : call :=
  {| receiver := dgt; method := "clock_set"; args := [];
     kwargs := [("left_time", left_time); ("right_time", right_time);
                ("left_running", left_running); ("right_running", right_running)] |}.

(** ** Further readings of a trace *)

Definition is_basic_config (e : event) : bool :=
  match e with BasicConfig _ => true | _ => false end.

Definition is_await (e : event) : bool :=
  match e with Await _ _ => true | _ => false end.

(** The calls that [main_async] and the functions it calls can make:
    everything but the logging configuration and the port listing, which
    belong to [main_entrypoint] and [usage]. *)
Definition is_main_async_event (e : event) : bool :=
  match e with BasicConfig _ | Comports => false | _ => true end.

(** The line [usage] prints for one port: the device and the
    description, not the name. *)
Definition port_line (port : value * value * value) : event :=
  let '(dev, name, info) := port in
  Print [VFmt [VStr "  * "; dev; VStr " ("; info; VStr ")"]].

(** One entry of [comports()]. *)
Definition port_entry (port : value * value * value) : value :=
  let '(dev, name, info) := port in VTuple [dev; name; info].

(** The event is a call on the handle [dgt], or no call on a handle. *)
Definition on_handle (dgt : value) (e : event) : Prop :=
  match e with
  | On d _ _ | Close d => d = dgt
  | Await c _ => receiver c = dgt
  | _ => True
  end.

(** The message of the first block for an exception it caught. *)
Definition information_error_line (e : exn) : event :=
  Print [VFmt [VStr "Error getting board information: "; VExc e]].

(** Where an exception that [m] raises comes from: it satisfies
    [internal], or the world raised it in answer to a call [ev] of the
    run, with [origin ev e]. *)
Definition escapes_only {A} (origin : event -> exn -> Prop) (internal : exn -> Prop)
  (m : M A) : Prop :=
  forall w h e,
    ending m w h = Raises e ->
    internal e
    \/ exists pre ev post,
         events m w h = pre ++ ev :: post
         /\ w (h ++ pre ++ [ev]) = Raises e
         /\ origin ev e.

(** The except clauses catch every [Exception], and what they run does
    not raise. *)
Definition catches_every_Exception {A} (handlers : exn -> option (M A)) : Prop :=
  (forall e, is_Exception e = true -> handlers e <> None)
  /\ forall e k, handlers e = Some k -> forall w h e', ending k w h <> Raises e'.

Definition not_iterable : exn := Exception "TypeError: object is not iterable".

(** A computation stops at the command that fails: when the world
    answers a command of the run with an exception, nothing follows the
    command and the exception is how the computation ends. *)
Definition stops_where_it_fails {A} (m : M A) : Prop :=
  forall w h pre c t post e,
    events m w h = pre ++ Await c t :: post ->
    w (h ++ pre ++ [Await c t]) = Raises e ->
    post = [] /\ ending m w h = Raises e.

(** Closing the handle fails. *)
Definition close_fails (e : event) : result value :=
  match e with
  | Close _ => Raises (Exception "port busy")
  | _ => attached e
  end.

(** The requests of the first block, in the order of the program. *)
Definition information_requests (dgt : value) : list (call * option Q) :=
  [(dgt_call dgt "get_version" [], None);
   (dgt_call dgt "get_serialnr" [], None);
   (dgt_call dgt "get_long_serialnr" [], None);
   (dgt_call dgt "get_board" [], None)].

(** The commands [m] awaits are the first ones of [cmds], and all of
    them when [m] returns. *)
Definition in_order {A} (cmds : list (call * option Q)) (m : M A) : Prop :=
  forall w h,
    (exists n, awaited (events m w h) = firstn n cmds)
    /\ forall a, ending m w h = Returns a -> awaited (events m w h) = cmds.

(** ** The driver behind the handle, as the spec designs it

    The driver ([asyncdgt.auto_connect] and the handle it returns) is
    not part of [__main__.py].  What follows is the part of its design
    that decides how a command ends: the Reconnection Supervisor, the
    Session, the Pending Request Table and the failures of a command. *)

(** Modelled from the spec: the states of the Reconnection Supervisor,
    [Searching -> Connecting -> Connected -> Searching (on death) -> ...
    -> Closed (terminal)]. *)
Inductive supervisor_state := Searching | Connecting | Connected | Closed.

(** Modelled from the spec: the states of a Session,
    [Starting -> Running -> Dead]. *)
Inductive session_state := Starting | Running | Dead.

(** Modelled from the spec: a Session, one live connection to one
    board.  [written] are the commands encoded and written to its
    Transport, in the order of writing; [pending_requests] is its
    Pending Request Table, from correlation key to command, the key of
    a command being its place among the commands written. *)
Record Session := {
  session_number : nat;
  state : session_state;
  written : list call;
  pending_requests : list (nat * call)
}.

(** Modelled from the spec: the Connection Handle, the public object of
    the Reconnection Supervisor.  It holds the glob patterns of the
    caller, the state of the Supervisor, the active Session or none,
    the readiness signal and the registered event handlers; [ended]
    are the Sessions that died, [sessions_opened] and [scans] count the
    Sessions opened and the polls of the Port Scanner so far. *)
Record Handle := {
  patterns : list string;
  supervisor : supervisor_state;
  active : option Session;
  ready : bool;
  registered : list (string * handler);
  ended : list Session;
  sessions_opened : nat;
  scans : nat
}.

(** What the board does with a command written to it: it replies in
    time, it stays silent, or the link is lost ([IOLost] from the
    Transport, or a [Malformed] frame). *)
Inductive reaction := Replies (v : value) | Silent | Lost.

(** The physical side: whether the [n]-th poll of the Port Scanner
    finds a port that matches, whether what is attached there answers
    the probe, and what the board does with a command, given the
    commands written to it before. *)
Record Device := {
  port_found : nat -> bool;
  answers_the_probe : nat -> bool;
  reaction_to : list call -> call -> reaction
}.

(** Modelled from the spec: the failure [ConnectionLost], a command was
    in flight when the Session died.  ([Timeout], the reply did not
    arrive in the time the caller allotted, is [TimeoutError].) *)
Definition ConnectionLost : exn := Exception "ConnectionLost".

(** Modelled from the spec: the failure [SessionDead] of [send]. *)
Definition SessionDead : exn := Exception "SessionDead".

(** Modelled from the spec: the failure [Closed], a command was issued
    after [close()]. *)
Definition ClosedError : exn := Exception "Closed".

(** The handle with [s] as its active Session. *)
Definition set_session (hd : Handle) (s : Session) : Handle :=
  {| patterns := patterns hd; supervisor := supervisor hd; active := Some s;
     ready := ready hd; registered := registered hd; ended := ended hd;
     sessions_opened := sessions_opened hd; scans := scans hd |}.

(** Modelled from the spec: the death of a Session.  It is [Dead], and
    every Pending Request left in its table is failed with
    [ConnectionLost] and gone. *)
Definition die (s : Session) : Session :=
  {| session_number := session_number s; state := Dead;
     written := written s; pending_requests := [] |}.

(** Modelled from the spec: the Supervisor when its active Session
    dies, or is torn down, and it goes to the state [next]: the
    readiness signal is cleared and there is no active Session. *)
Definition without_session (next : supervisor_state) (hd : Handle) : Handle :=
  {| patterns := patterns hd; supervisor := next; active := None;
     ready := false; registered := registered hd;
     ended := ended hd ++ match active hd with Some s => [die s] | None => [] end;
     sessions_opened := sessions_opened hd; scans := scans hd |}.

(** Modelled from the spec: the handle [auto_connect] returns.  The
    Supervisor starts out [Searching]; no Session yet. *)
Definition new_handle (port_globs : list string) : Handle :=
  {| patterns := port_globs; supervisor := Searching; active := None;
     ready := false; registered := []; ended := [];
     sessions_opened := 0; scans := 0 |}.

(** Modelled from the spec: [on(event_kind, handler)] adds the handler
    after those registered before. *)
Definition register (kind : string) (f : handler) (hd : Handle) : Handle :=
  {| patterns := patterns hd; supervisor := supervisor hd; active := active hd;
     ready := ready hd; registered := registered hd ++ [(kind, f)];
     ended := ended hd;
     sessions_opened := sessions_opened hd; scans := scans hd |}.

(** Modelled from the spec: one poll of the search.  While [Searching],
    the Supervisor polls the Port Scanner against the patterns, an
    empty pattern list matching nothing; with a candidate it is
    [Connecting], and when the candidate answers the probe it becomes
    [Connected], with a new Session and the readiness signal set;
    otherwise the search resumes.  In every other state nothing is
    searched. *)
Definition search (d : Device) (hd : Handle) : Handle :=
  match supervisor hd with
  | Searching =>
      let connected :=
        match patterns hd with
        | [] => false
        | _ => port_found d (scans hd) && answers_the_probe d (scans hd)
        end in
      if connected
      then {| patterns := patterns hd; supervisor := Connected;
              active := Some {| session_number := sessions_opened hd;
                                state := Running;
                                written := []; pending_requests := [] |};
              ready := true; registered := registered hd; ended := ended hd;
              sessions_opened := S (sessions_opened hd); scans := S (scans hd) |}
      else {| patterns := patterns hd; supervisor := Searching; active := None;
              ready := false; registered := registered hd; ended := ended hd;
              sessions_opened := sessions_opened hd; scans := S (scans hd) |}
  | _ => hd
  end.

(** Modelled from the spec: the correlation key of a Pending Request.
    A command has its place among the commands written as its key, so
    that the keys in the table are unique. *)
Definition next_key (s : Session) : nat := List.length (written s).

(** Modelled from the spec: [send(Command)] encodes and writes the
    command and registers a Pending Request for its reply; on a Session
    that is not running it fails with [SessionDead]. *)
Definition send (c : call) (s : Session) : option Session :=
  match state s with
  | Running =>
      Some {| session_number := session_number s; state := Running;
              written := written s ++ [c];
              pending_requests := pending_requests s ++ [(next_key s, c)] |}
  | _ => None
  end.

(** Modelled from the spec: a Pending Request is removed from the table
    when it is fulfilled and when it times out. *)
Definition remove_request (key : nat) (s : Session) : Session :=
  {| session_number := session_number s; state := state s;
     written := written s;
     pending_requests :=
       filter (fun entry => negb (Nat.eqb (fst entry) key)) (pending_requests s) |}.

(** Modelled from the spec: a command of the public command surface,
    with the time the caller allots to it ([None]: as long as it
    takes).  After [close()] it fails fast with [Closed].  Otherwise it
    waits for the readiness signal if the Supervisor is not
    [Connected], within the time of the caller; it forwards the command
    to [send] of the active Session and awaits the reply.  A reply
    fulfills the request, which is removed.  When the time elapses
    first, the request is removed and [Timeout] is returned to the
    caller, but the Session keeps running.  When the link is lost the
    Session dies with the command in flight: the request fails with
    [ConnectionLost], and the Supervisor clears the readiness signal
    and searches again. *)
Definition command (d : Device) (c : call) (timeout : option Q) (hd : Handle)
  : Handle * result value :=
  match supervisor hd with
  | Closed => (hd, Raises ClosedError)
  | _ =>
      let hd := search d hd in
      match supervisor hd, active hd with
      | Connected, Some s =>
          match send c s with
          | None => (hd, Raises SessionDead)
          | Some sent =>
              match reaction_to d (written s) c with
              | Replies v =>
                  (set_session hd (remove_request (next_key s) sent), Returns v)
              | Silent =>
                  match timeout with
                  | Some _ =>
                      (set_session hd (remove_request (next_key s) sent),
                       Raises TimeoutError)
                  | None => (set_session hd sent, Hangs)
                  end
              | Lost =>
                  (without_session Searching (set_session hd sent),
                   Raises ConnectionLost)
              end
          end
      | _, _ =>
          match timeout with
          | Some _ => (hd, Raises TimeoutError)
          | None => (hd, Hangs)
          end
      end
  end.

(** Modelled from the spec: [close()] moves to [Closed] unconditionally
    and tears down the active Session. *)
Definition close (hd : Handle) : Handle := without_session Closed hd.

(** The value that stands for the handle in the program. *)
Definition the_handle : value := VObject 0.

(** What a call of the program does to the driver, and the answer of
    the driver when the call is one into the driver.  A sleep lets the
    search go on in the background; the calls into [asyncio], [print]
    and the port listing leave the driver alone. *)
Definition driver_step (d : Device) (driver : option Handle) (e : event)
  : option Handle * option (result value) :=
  match e, driver with
  | AutoConnect port_globs, _ => (Some (new_handle port_globs), Some (Returns the_handle))
  | On _ kind f, Some hd => (Some (register kind f hd), Some (Returns VNone))
  | Sleep _, Some hd => (Some (search d hd), None)
  | Await c timeout, Some hd =>
      let (hd', r) := command d c timeout hd in (Some hd', Some r)
  | Close _, Some hd => (Some (close hd), Some (Returns VNone))
  | On _ _ _, None | Await _ _, None | Close _, None =>
      (None, Some (Raises (Exception "no handle")))
  | _, _ => (driver, None)
  end.

(** The driver after the calls of a history. *)
Definition driver_after (d : Device) (h : history) : option Handle :=
  fold_left (fun driver e => fst (driver_step d driver e)) h None.

(** The world in which the handle is this driver, attached to the
    device [d], and in which [others] answers every call that is not a
    call into the driver. *)
Definition with_driver (d : Device) (others : world) : world :=
  fun h =>
    match rev h with
    | [] => Hangs
    | e :: earlier =>
        match snd (driver_step d (driver_after d (rev earlier)) e) with
        | Some r => r
        | None => others h
        end
    end.

(** A board with a clock that never answers: the information requests
    are answered, every other command meets silence. *)
Definition board_with_a_silent_clock : Device :=
  {| port_found := fun _ => true;
     answers_the_probe := fun _ => true;
     reaction_to := fun _ c =>
       if existsb (String.eqb (method c))
                  ["get_version"; "get_serialnr"; "get_long_serialnr"; "get_board"]
       then Replies (reply c) else Silent |}.

(* ================================================================== *)
(** * Part II: theorems                                                *)
(* ================================================================== *)

(** ** The board serialization *)

Lemma digit_value_digit n :
  (1 <= n <= 8)%nat -> digit_value (digit n) = Some n.
Proof.
  intros [H1 H8].
  do 9 (destruct n as [|n]; [try lia; reflexivity|]). lia.
Qed.

Lemma piece_of_symbol_piece_symbol p :
  piece_of_symbol (piece_symbol p) = Some p.
Proof. destruct p as [[] []]; reflexivity. Qed.

Lemma digit_value_piece_symbol p : digit_value (piece_symbol p) = None.
Proof. destruct p as [[] []]; reflexivity. Qed.

Lemma repeat_shift {A} (x : A) n l : repeat x (S n) ++ l = repeat x n ++ x :: l.
Proof.
  induction n as [|n IH]; simpl in *; [reflexivity | f_equal; exact IH].
Qed.

Lemma expand_rank_flush n cs :
  (n <= 8)%nat ->
  expand_rank (flush n ++ cs) = option_map (app (repeat None n)) (expand_rank cs).
Proof.
  intros Hn. destruct n as [|n].
  - simpl. destruct (expand_rank cs); reflexivity.
  - cbn [flush app expand_rank]. rewrite digit_value_digit by lia. reflexivity.
Qed.

(** Expanding the compressed rank gives the squares back. *)
Lemma expand_rank_fen_from row : forall n,
  (n + List.length row <= 8)%nat ->
  expand_rank (rank_fen_from n row) = Some (repeat None n ++ row).
Proof.
  induction row as [|[p|] row IH]; intros n Hn; cbn [rank_fen_from List.length] in *.
  - rewrite <- (app_nil_r (flush n)), expand_rank_flush by lia. reflexivity.
  - rewrite expand_rank_flush by lia.
    cbn [expand_rank]. rewrite digit_value_piece_symbol, piece_of_symbol_piece_symbol.
    rewrite (IH 0%nat) by lia. reflexivity.
  - rewrite IH by lia. rewrite repeat_shift. reflexivity.
Qed.

Lemma expand_rank_fen row :
  List.length row = 8%nat -> expand_rank (rank_fen row) = Some row.
Proof.
  intros H. unfold rank_fen. rewrite expand_rank_fen_from by lia. reflexivity.
Qed.

Lemma all_some_expand rows :
  Forall (fun row => List.length row = 8%nat) rows ->
  all_some (map expand_rank (map rank_fen rows)) = Some rows.
Proof.
  induction 1 as [|row rows Hrow _ IH]; [reflexivity|].
  cbn [map all_some]. rewrite expand_rank_fen by assumption.
  rewrite IH. reflexivity.
Qed.

(** *** Slashes separate the ranks and occur nowhere else *)

Lemma is_rank_char_digit n : (1 <= n <= 8)%nat -> is_rank_char (digit n) = true.
Proof.
  intros H. unfold is_rank_char. rewrite digit_value_digit by assumption.
  reflexivity.
Qed.

Lemma is_rank_char_piece p : is_rank_char (piece_symbol p) = true.
Proof.
  unfold is_rank_char.
  rewrite digit_value_piece_symbol, piece_of_symbol_piece_symbol. reflexivity.
Qed.

Lemma forallb_flush n : (n <= 8)%nat -> forallb is_rank_char (flush n) = true.
Proof.
  intros H. destruct n as [|n]; [reflexivity|].
  cbn [flush forallb]. rewrite is_rank_char_digit by lia. reflexivity.
Qed.

Lemma rank_fen_from_chars row : forall n,
  (n + List.length row <= 8)%nat ->
  forallb is_rank_char (rank_fen_from n row) = true.
Proof.
  induction row as [|[p|] row IH]; intros n Hn; cbn [rank_fen_from List.length] in *.
  - apply forallb_flush. lia.
  - rewrite forallb_app. cbn [forallb].
    rewrite forallb_flush, is_rank_char_piece, (IH 0%nat) by lia. reflexivity.
  - apply IH. lia.
Qed.

Lemma rank_char_not c (x : ascii) :
  is_rank_char x = false -> is_rank_char c = true -> Ascii.eqb x c = false.
Proof.
  intros Hx Hc. destruct (Ascii.eqb_spec x c) as [->|]; congruence.
Qed.

Lemma contains_rank_chars (x : ascii) cs :
  is_rank_char x = false -> forallb is_rank_char cs = true -> contains x cs = false.
Proof.
  intros Hx. unfold contains.
  induction cs as [|c cs IH]; cbn [forallb existsb]; [reflexivity|].
  intros H. apply andb_prop in H as [Hc Hcs].
  rewrite (rank_char_not c x Hx Hc), IH by assumption. reflexivity.
Qed.

Lemma split_on_without sep cs :
  contains sep cs = false -> split_on sep cs = [cs].
Proof.
  unfold contains. induction cs as [|c cs IH]; cbn [existsb split_on]; [reflexivity|].
  intros H. apply orb_false_elim in H as [Hc Hcs].
  rewrite Ascii.eqb_sym, Hc, IH by assumption. reflexivity.
Qed.

Lemma split_on_part sep part rest :
  contains sep part = false ->
  split_on sep (part ++ sep :: rest) = part :: split_on sep rest.
Proof.
  unfold contains. induction part as [|c part IH]; cbn [existsb app split_on].
  - rewrite Ascii.eqb_refl. reflexivity.
  - intros H. apply orb_false_elim in H as [Hc Hpart].
    rewrite Ascii.eqb_sym, Hc, IH by assumption. reflexivity.
Qed.

(** Cutting the joined parts at the separator gives the parts back. *)
Lemma split_on_join sep part parts :
  Forall (fun p => contains sep p = false) (part :: parts) ->
  split_on sep (join sep (part :: parts)) = part :: parts.
Proof.
  revert part. induction parts as [|q parts IH]; intros part H.
  - apply split_on_without. now inversion H.
  - inversion H as [|? ? Hpart Hrest]; subst.
    change (join sep (part :: q :: parts)) with (part ++ sep :: join sep (q :: parts)).
    rewrite split_on_part by assumption. rewrite IH by assumption. reflexivity.
Qed.

Lemma join_chars part parts :
  Forall (fun p => forallb is_rank_char p = true) (part :: parts) ->
  forallb is_placement_char (join "/" (part :: parts)) = true.
Proof.
  assert (Hsub : forall p, forallb is_rank_char p = true ->
                           forallb is_placement_char p = true).
  { induction p as [|c p IH]; cbn [forallb]; [reflexivity|].
    intros H. apply andb_prop in H as [Hc Hp]. unfold is_placement_char at 1.
    rewrite Hc, IH, orb_true_r by assumption. reflexivity. }
  revert part. induction parts as [|q parts IH]; intros part H.
  - apply Hsub. now inversion H.
  - inversion H as [|? ? Hpart Hrest]; subst.
    change (join "/" (part :: q :: parts)) with (part ++ "/"%char :: join "/" (q :: parts)).
    rewrite forallb_app. cbn [forallb].
    rewrite Hsub, IH by assumption. reflexivity.
Qed.

(** *** Runs of empty squares are written as one number *)

Lemma no_adjacent_digits_cons c cs :
  is_digit c = false -> no_adjacent_digits (c :: cs) = no_adjacent_digits cs.
Proof.
  intros H. destruct cs as [|d cs]; [reflexivity|].
  cbn [no_adjacent_digits]. rewrite H. reflexivity.
Qed.

Lemma no_adjacent_digits_after d c cs :
  is_digit c = false ->
  no_adjacent_digits (d :: c :: cs) = no_adjacent_digits cs.
Proof.
  intros H. change (no_adjacent_digits (d :: c :: cs))
    with (negb (is_digit d && is_digit c) && no_adjacent_digits (c :: cs))%bool.
  rewrite H, andb_false_r, no_adjacent_digits_cons by assumption. reflexivity.
Qed.

Lemma no_adjacent_digits_flush n c cs :
  is_digit c = false ->
  no_adjacent_digits (flush n ++ c :: cs) = no_adjacent_digits cs.
Proof.
  intros H. destruct n as [|n]; cbn [flush app].
  - apply no_adjacent_digits_cons, H.
  - apply no_adjacent_digits_after, H.
Qed.

Lemma is_digit_piece_symbol p : is_digit (piece_symbol p) = false.
Proof. destruct p as [[] []]; reflexivity. Qed.

Lemma rank_fen_from_compressed row : forall n,
  no_adjacent_digits (rank_fen_from n row) = true.
Proof.
  induction row as [|[p|] row IH]; intros n; cbn [rank_fen_from].
  - destruct n; reflexivity.
  - rewrite no_adjacent_digits_flush by apply is_digit_piece_symbol. apply IH.
  - apply IH.
Qed.

Lemma no_adjacent_digits_app cs c ds :
  is_digit c = false ->
  no_adjacent_digits (cs ++ c :: ds)
  = (no_adjacent_digits cs && no_adjacent_digits ds)%bool.
Proof.
  intros Hc. induction cs as [|a cs IH].
  - cbn [app]. rewrite no_adjacent_digits_cons by assumption. reflexivity.
  - destruct cs as [|b cs].
    + cbn [app]. rewrite no_adjacent_digits_after by assumption. reflexivity.
    + change (no_adjacent_digits ((a :: b :: cs) ++ c :: ds))
        with (negb (is_digit a && is_digit b)
              && no_adjacent_digits ((b :: cs) ++ c :: ds))%bool.
      rewrite IH.
      change (no_adjacent_digits (a :: b :: cs))
        with (negb (is_digit a && is_digit b) && no_adjacent_digits (b :: cs))%bool.
      rewrite andb_assoc. reflexivity.
Qed.

Lemma join_compressed part parts :
  Forall (fun p => no_adjacent_digits p = true) (part :: parts) ->
  no_adjacent_digits (join "/" (part :: parts)) = true.
Proof.
  revert part. induction parts as [|q parts IH]; intros part H.
  - now inversion H.
  - inversion H as [|? ? Hpart Hrest]; subst.
    change (join "/" (part :: q :: parts)) with (part ++ "/"%char :: join "/" (q :: parts)).
    rewrite no_adjacent_digits_app by reflexivity.
    rewrite Hpart, IH by assumption. reflexivity.
Qed.

(** C7. The board returned by [get_board] exposes through [board_fen()]
    a string built from the occupancy of the squares alone: read back
    rank by rank at the slashes, with a digit standing for that many
    empty squares, it gives exactly the eight ranks from rank 8 down to
    rank 1; runs of empty squares are compressed, no two digits being
    adjacent; it consists of piece letters, the digits 1 to 8 and
    slashes only, so that no side-to-move or castling field follows; it
    does not depend on the sequence number of the board; and it is what
    the harness gets when it calls [board_fen()] on the board. *)
Theorem board_fen_is_the_occupancy (b : Board) :
  parse_placement (board_fen b) = Some (ranks_from_8_to_1 b)
  /\ ranks_from_8_to_1 b
     = map (fun rank => map (fun file => piece_at b file rank) (seq 0 8))
           [7; 6; 5; 4; 3; 2; 1; 0]%nat
  /\ no_adjacent_digits (list_ascii_of_string (board_fen b)) = true
  /\ forallb is_placement_char (list_ascii_of_string (board_fen b)) = true
  /\ contains " " (list_ascii_of_string (board_fen b)) = false
  /\ (forall n, board_fen {| occupancy := occupancy b; sequence := n |} = board_fen b)
  /\ (forall w h, events (call_board_fen (VBoard b)) w h = []
                  /\ ending (call_board_fen (VBoard b)) w h = Returns (VStr (board_fen b))).
Proof.
  assert (Hlen : Forall (fun row => List.length row = 8%nat) (ranks_from_8_to_1 b)).
  { unfold ranks_from_8_to_1. apply Forall_map, Forall_forall. intros; reflexivity. }
  assert (Hchars : Forall (fun p => forallb is_rank_char p = true)
                          (map rank_fen (ranks_from_8_to_1 b))).
  { apply Forall_map. eapply Forall_impl; [|exact Hlen].
    intros row Hrow. apply rank_fen_from_chars. simpl in Hrow |- *. lia. }
  assert (Hplace : forallb is_placement_char (list_ascii_of_string (board_fen b)) = true).
  { unfold board_fen. rewrite list_ascii_of_string_of_list_ascii.
    apply join_chars. exact Hchars. }
  repeat split.
  - unfold parse_placement, board_fen.
    rewrite list_ascii_of_string_of_list_ascii.
    change (map rank_fen (ranks_from_8_to_1 b))
      with (rank_fen (rank_squares b 7) :: map rank_fen (map (rank_squares b) [6; 5; 4; 3; 2; 1; 0]%nat)) in *.
    rewrite split_on_join.
    + apply (all_some_expand (ranks_from_8_to_1 b)), Hlen.
    + eapply Forall_impl; [|exact Hchars].
      intros p Hp. apply contains_rank_chars; [reflexivity | exact Hp].
  - unfold board_fen. rewrite list_ascii_of_string_of_list_ascii.
    apply join_compressed. repeat constructor; apply rank_fen_from_compressed.
  - exact Hplace.
  - unfold contains.
    induction (list_ascii_of_string (board_fen b)) as [|c cs IH]; [reflexivity|].
    cbn [forallb existsb] in *. apply andb_prop in Hplace as [Hc Hcs].
    rewrite IH by assumption. rewrite orb_false_r.
    destruct (Ascii.eqb_spec " " c) as [<-|]; [discriminate Hc | reflexivity].
Qed.

(** ** The equations of the monad *)

Lemma events_bind {A B} (m : M A) (k : A -> M B) w h :
  events (bind m k) w h
  = events m w h
    ++ match ending m w h with
       | Returns a => events (k a) w (h ++ events m w h)
       | _ => []
       end.
Proof.
  unfold events, ending, bind.
  destruct (m w h) as [o1 [a|e|]]; cbn [fst snd]; rewrite ?app_nil_r; try reflexivity.
  destruct (k a w (h ++ o1)); reflexivity.
Qed.

Lemma ending_bind {A B} (m : M A) (k : A -> M B) w h :
  ending (bind m k) w h
  = match ending m w h with
    | Returns a => ending (k a) w (h ++ events m w h)
    | Raises e => Raises e
    | Hangs => Hangs
    end.
Proof.
  unfold events, ending, bind.
  destruct (m w h) as [o1 [a|e|]]; cbn [fst snd]; try reflexivity.
  destruct (k a w (h ++ o1)); reflexivity.
Qed.

Lemma events_try_except {A} (body : M A) handlers w h :
  events (try_except body handlers) w h
  = events body w h
    ++ match ending body w h with
       | Raises e =>
           match handlers e with
           | Some k => events k w (h ++ events body w h)
           | None => []
           end
       | _ => []
       end.
Proof.
  unfold events, ending, try_except.
  destruct (body w h) as [o1 [a|e|]]; cbn [fst snd]; rewrite ?app_nil_r; try reflexivity.
  destruct (handlers e) as [k|]; [|cbn [fst]; rewrite app_nil_r; reflexivity].
  destruct (k w (h ++ o1)); reflexivity.
Qed.

Lemma ending_try_except {A} (body : M A) handlers w h :
  ending (try_except body handlers) w h
  = match ending body w h with
    | Raises e =>
        match handlers e with
        | Some k => ending k w (h ++ events body w h)
        | None => Raises e
        end
    | r => r
    end.
Proof.
  unfold events, ending, try_except.
  destruct (body w h) as [o1 [a|e|]]; cbn [fst snd]; try reflexivity.
  destruct (handlers e) as [k|]; [|reflexivity].
  destruct (k w (h ++ o1)); reflexivity.
Qed.

Lemma events_try_finally {A} (body : M A) cleanup w h :
  events (try_finally body cleanup) w h
  = events body w h
    ++ match ending body w h with
       | Hangs => []
       | _ => events cleanup w (h ++ events body w h)
       end.
Proof.
  unfold events, ending, try_finally.
  destruct (body w h) as [o1 [a|e|]]; cbn [fst snd]; rewrite ?app_nil_r; try reflexivity;
    destruct (cleanup w (h ++ o1)); reflexivity.
Qed.

Lemma ending_try_finally {A} (body : M A) cleanup w h :
  ending (try_finally body cleanup) w h
  = match ending body w h with
    | Hangs => Hangs
    | r =>
        match ending cleanup w (h ++ events body w h) with
        | Returns _ => r
        | Raises e => Raises e
        | Hangs => Hangs
        end
    end.
Proof.
  unfold events, ending, try_finally.
  destruct (body w h) as [o1 [a|e|]]; cbn [fst snd]; try reflexivity;
    destruct (cleanup w (h ++ o1)); reflexivity.
Qed.

Lemma events_perform e w h : events (perform e) w h = [e].
Proof. reflexivity. Qed.

Lemma ending_perform e w h : ending (perform e) w h = w (h ++ [e]).
Proof. reflexivity. Qed.

Lemma events_print line w h : events (print line) w h = [Print line].
Proof. reflexivity. Qed.

Lemma ending_print line w h : ending (print line) w h = Returns tt.
Proof. reflexivity. Qed.

Lemma events_ret {A} (a : A) w h : events (ret a) w h = [].
Proof. reflexivity. Qed.

Lemma ending_ret {A} (a : A) w h : ending (ret a) w h = Returns a.
Proof. reflexivity. Qed.

(** ** What a computation can add to the trace *)

Lemma emits_ret {A} P (a : A) : emits P (ret a).
Proof. intros w h. constructor. Qed.

Lemma emits_raise {A} P e : emits P (@raise A e).
Proof. intros w h. constructor. Qed.

Lemma emits_perform (P : event -> Prop) e : P e -> emits P (perform e).
Proof. intros H w h. repeat constructor. exact H. Qed.

Lemma emits_print (P : event -> Prop) line : P (Print line) -> emits P (print line).
Proof. intros H w h. repeat constructor. exact H. Qed.

Lemma emits_bind {A B} P (m : M A) (k : A -> M B) :
  emits P m -> (forall a, emits P (k a)) -> emits P (bind m k).
Proof.
  intros Hm Hk w h. rewrite events_bind. apply Forall_app. split; [apply Hm|].
  destruct (ending m w h); [apply Hk | constructor | constructor].
Qed.

Lemma emits_try_except {A} P (body : M A) handlers :
  emits P body ->
  (forall e k, handlers e = Some k -> emits P k) ->
  emits P (try_except body handlers).
Proof.
  intros Hb Hh w h. rewrite events_try_except. apply Forall_app. split; [apply Hb|].
  destruct (ending body w h) as [a|e|]; try constructor.
  destruct (handlers e) as [k|] eqn:E; [eapply Hh, E | constructor].
Qed.

Lemma emits_try_finally {A} P (body : M A) cleanup :
  emits P body -> emits P cleanup -> emits P (try_finally body cleanup).
Proof.
  intros Hb Hc w h. rewrite events_try_finally. apply Forall_app. split; [apply Hb|].
  destruct (ending body w h); try apply Hc. constructor.
Qed.

Lemma emits_for_each {A} P (items : list A) body :
  (forall x, emits P (body x)) -> emits P (for_each items body).
Proof.
  intros Hb. induction items as [|x items IH]; cbn [for_each].
  - apply emits_ret.
  - apply emits_bind; [apply Hb | intros _; exact IH].
Qed.

Lemma emits_iterate P v : emits P (iterate v).
Proof. destruct v; first [apply emits_ret | apply emits_raise]. Qed.

Lemma emits_call_board_fen P v : emits P (call_board_fen v).
Proof. destruct v; first [apply emits_ret | apply emits_raise]. Qed.

Lemma emits_on_timeout_or_error (P : event -> Prop) timed_out failed e k :
  (forall line, P (Print line)) ->
  on_timeout_or_error timed_out failed e = Some k -> emits P k.
Proof.
  intros HP. unfold on_timeout_or_error.
  destruct e; cbn [is_Exception]; intros H; inversion H; subst; apply emits_print, HP.
Qed.

Lemma continues_bind {A B C} P (m : M C) (k : C -> M A) (f : M B) g :
  emits P m ->
  (forall c, stops_or_continues P (k c) f g) ->
  stops_or_continues P (bind m k) f g.
Proof.
  intros Hm Hk w h. rewrite events_bind, ending_bind.
  destruct (ending m w h) as [c|e|].
  - destruct (Hk c w (h ++ events m w h)) as [[HP HR]|(pre & HP & HE & HR)].
    + left. split; [apply Forall_app; split; [apply Hm | exact HP] | exact HR].
    + right. exists (events m w h ++ pre). split; [|split].
      * apply Forall_app. split; [apply Hm | exact HP].
      * rewrite HE, <- !app_assoc. reflexivity.
      * rewrite HR, <- !app_assoc. reflexivity.
  - left. rewrite app_nil_r. split; [apply Hm | discriminate].
  - left. rewrite app_nil_r. split; [apply Hm | discriminate].
Qed.

Lemma continues_last {B} P (f : M unit) (c : B) g :
  (forall r, g r = match r with
                   | Returns _ => Returns c
                   | Raises e => Raises e
                   | Hangs => Hangs
                   end) ->
  stops_or_continues P (bind f (fun _ => ret c)) f g.
Proof.
  intros Hg w h. right. exists []. split; [constructor|].
  rewrite events_bind, ending_bind, app_nil_r, Hg. split.
  - cbn [app]. destruct (ending f w h); cbn; rewrite ?app_nil_r; reflexivity.
  - destruct (ending f w h); reflexivity.
Qed.

(** Proves [emits P m] by following the structure of [m]; [side] proves
    that the single events satisfy [P]. *)
Ltac follow_step side :=
  lazymatch goal with
  | |- emits _ (ret _) => apply emits_ret
  | |- emits _ (raise _) => apply emits_raise
  | |- emits _ (iterate _) => apply emits_iterate
  | |- emits _ (call_board_fen _) => apply emits_call_board_fen
  | |- emits _ (perform _) => apply emits_perform; side
  | |- emits _ (print _) => apply emits_print; side
  | |- emits _ (bind _ _) => apply emits_bind; [|intros ?]
  | |- emits _ (for_each _ _) => apply emits_for_each; intros ?
  | |- emits _ (try_finally _ _) => apply emits_try_finally
  | |- emits _ (try_except _ (on_timeout_or_error _ _)) =>
      apply emits_try_except;
      [|let e := fresh "e" in let k := fresh "k" in let H := fresh "H" in
        intros e k H;
        eapply emits_on_timeout_or_error; [intros ?; side | exact H]]
  | |- emits _ (try_except _ _) =>
      apply emits_try_except;
      [|let e := fresh "e" in let k := fresh "k" in let H := fresh "H" in
        intros e k H;
        destruct e; cbn [is_Exception] in H; inversion H; subst; clear H]
  | |- emits _ (match ?x with _ => _ end) => destruct x
  end.

Ltac follow side := repeat follow_step side.

Ltac by_computation := first [reflexivity | exact I].

(** ** What each block of [main_async] adds to the trace *)

Lemma get_some_information_emits dgt :
  emits (fun e => is_setup_event e = true) (get_some_information dgt).
Proof. unfold get_some_information. follow by_computation. Qed.

Lemma get_the_clock_version_emits dgt :
  emits (fun e => is_clock_event e = true) (get_the_clock_version dgt).
Proof. unfold get_the_clock_version. follow by_computation. Qed.

Lemma clock_display_sentence_emits dgt sentence :
  emits (fun e => is_clock_event e = true) (clock_display_sentence dgt sentence).
Proof. unfold clock_display_sentence. follow by_computation. Qed.

Lemma let_the_clock_beep_emits dgt :
  emits (fun e => is_clock_event e = true) (let_the_clock_beep dgt).
Proof. unfold let_the_clock_beep. follow by_computation. Qed.

Lemma start_a_countdown_emits dgt :
  emits (fun e => is_clock_event e = true) (start_a_countdown dgt).
Proof. unfold start_a_countdown. follow by_computation. Qed.

(** From the clock version request on, [main_async] either stops on an
    exception it does not catch, or enters the event loop; up to there
    it only prints, sleeps and awaits timed commands. *)
Lemma drive_the_clock_continues dgt :
  stops_or_continues (fun e => is_clock_event e = true)
    (drive_the_clock dgt) (run_the_event_loop dgt) then_return_0.
Proof.
  unfold drive_the_clock.
  apply continues_bind; [apply get_the_clock_version_emits | intros _].
  apply continues_bind; [apply emits_print; reflexivity | intros _].
  apply continues_bind; [apply clock_display_sentence_emits | intros _].
  apply continues_bind; [apply let_the_clock_beep_emits | intros _].
  apply continues_bind; [apply start_a_countdown_emits | intros _].
  apply continues_last. intros []; reflexivity.
Qed.

Lemma returns_only_ret {A} (Q : A -> Prop) a : Q a -> returns_only Q (ret a).
Proof. intros H w h b E. inversion E. subst. exact H. Qed.

Lemma returns_only_bind {A B} (Q : B -> Prop) (m : M A) (k : A -> M B) :
  (forall a, returns_only Q (k a)) -> returns_only Q (bind m k).
Proof.
  intros Hk w h b. rewrite ending_bind.
  destruct (ending m w h) as [a|e|]; [apply Hk | discriminate | discriminate].
Qed.

Lemma events_perform_bind {A} e (k : value -> M A) w h :
  events (bind (perform e) k) w h
  = e :: match w (h ++ [e]) with
         | Returns a => events (k a) w (h ++ [e])
         | _ => []
         end.
Proof. rewrite events_bind, events_perform, ending_perform. reflexivity. Qed.

Lemma ending_perform_bind {A} e (k : value -> M A) w h :
  ending (bind (perform e) k) w h
  = match w (h ++ [e]) with
    | Returns a => ending (k a) w (h ++ [e])
    | Raises x => Raises x
    | Hangs => Hangs
    end.
Proof. rewrite ending_bind, events_perform, ending_perform. reflexivity. Qed.

Lemma events_print_bind {A} line (k : unit -> M A) w h :
  events (bind (print line) k) w h = Print line :: events (k tt) w (h ++ [Print line]).
Proof. rewrite events_bind, events_print, ending_print. reflexivity. Qed.

Lemma ending_print_bind {A} line (k : unit -> M A) w h :
  ending (bind (print line) k) w h = ending (k tt) w (h ++ [Print line]).
Proof. rewrite ending_bind, events_print, ending_print. reflexivity. Qed.

(** The first block either goes on to the next statement, or returns
    [None] right after printing that it was cancelled, or lets an
    exception through. *)
Lemma get_some_information_ends dgt w h :
  match ending (get_some_information dgt) w h with
  | Returns Next => True
  | Returns (Return v) =>
      v = None
      /\ exists evs, events (get_some_information dgt) w h = evs ++ [cancelled_line]
  | _ => True
  end.
Proof.
  unfold get_some_information.
  rewrite events_try_except, ending_try_except.
  match goal with |- context [ending ?b w h] => set (body := b) end.
  assert (Hbody : returns_only (fun f => f = Next) body).
  { subst body. repeat (apply returns_only_bind; intros ?).
    apply returns_only_ret. reflexivity. }
  destruct (ending body w h) as [f|e|] eqn:E.
  - rewrite (Hbody _ _ _ E). exact I.
  - destruct e; cbn; auto.
    split; [reflexivity|]. eexists. reflexivity.
  - exact I.
Qed.

(** [main_async] as a whole: it either ends before the clock version
    request, and then returns, if at all, [None] after the cancellation
    message; or it goes on into [drive_the_clock] with the handle that
    [auto_connect] returned. *)
Lemma main_async_structure port_globs w h :
  (exists evs,
      events (main_async port_globs) w h = AutoConnect port_globs :: evs
      /\ Forall (fun e => is_setup_event e = true) evs
      /\ forall v, ending (main_async port_globs) w h = Returns v ->
                   v = None
                   /\ exists evs', events (main_async port_globs) w h
                                   = evs' ++ [cancelled_line])
  \/ (exists dgt pre,
         w (h ++ [AutoConnect port_globs]) = Returns dgt
         /\ Forall (fun e => is_setup_event e = true) pre
         /\ events (main_async port_globs) w h
            = AutoConnect port_globs :: pre
              ++ events (drive_the_clock dgt) w (h ++ AutoConnect port_globs :: pre)
         /\ ending (main_async port_globs) w h
            = ending (drive_the_clock dgt) w (h ++ AutoConnect port_globs :: pre)).
Proof.
  unfold main_async.
  rewrite events_perform_bind, ending_perform_bind.
  destruct (w (h ++ [AutoConnect port_globs])) as [dgt|e|] eqn:Hdgt;
    [|left; eexists; split; [reflexivity | split; [constructor | discriminate]]..].
  do 6 (rewrite events_perform_bind, ending_perform_bind;
        match goal with
        | |- context [match w ?x with _ => _ end] =>
            destruct (w x) as [?|?|];
            [|left; eexists; split;
               [reflexivity | split; [repeat constructor | discriminate]]..]
        end).
  rewrite events_bind, ending_bind.
  match goal with
  | |- context [ending (get_some_information dgt) w ?x] =>
      pose proof (get_some_information_ends dgt w x) as Hends;
      pose proof (get_some_information_emits dgt w x) as Hemits;
      set (info := events (get_some_information dgt) w x) in *;
      destruct (ending (get_some_information dgt) w x) as [[|v]|e|]
  end.
  - right. exists dgt.
    exists (On dgt "connected" on_connected
            :: On dgt "disconnected" on_disconnected
            :: On dgt "board" on_board
            :: On dgt "button_pressed" on_button_pressed
            :: On dgt "clock" on_clock
            :: Sleep 0.1%Q :: info).
    split; [reflexivity|]. split; [|split].
    + repeat (apply Forall_cons; [reflexivity|]). exact Hemits.
    + rewrite <- !app_assoc. reflexivity.
    + rewrite <- !app_assoc. reflexivity.
  - left. destruct Hends as [-> [evs Hevs]]. eexists. split; [reflexivity|]. split.
    + repeat (apply Forall_cons; [reflexivity|]).
      rewrite events_ret, app_nil_r. exact Hemits.
    + intros v Hv. inversion Hv. split; [reflexivity|].
      rewrite events_ret, app_nil_r, Hevs.
      eexists. rewrite !app_comm_cons. reflexivity.
  - left. eexists. split; [reflexivity|]. split.
    + repeat (apply Forall_cons; [reflexivity|]). rewrite app_nil_r. exact Hemits.
    + discriminate.
  - left. eexists. split; [reflexivity|]. split.
    + repeat (apply Forall_cons; [reflexivity|]). rewrite app_nil_r. exact Hemits.
    + discriminate.
Qed.

(** ** The event loop and the shutdown *)

Lemma returns_after_print x line : x = Print line -> returns_after x (print line).
Proof. intros -> w h a _. exists []. reflexivity. Qed.

Lemma returns_after_bind {A B} x (m : M A) (k : A -> M B) :
  (forall a, returns_after x (k a)) -> returns_after x (bind m k).
Proof.
  intros Hk w h b. rewrite ending_bind, events_bind.
  destruct (ending m w h) as [a|e|]; try discriminate.
  intros E. destruct (Hk a _ _ _ E) as [evs ->].
  exists (events m w h ++ evs). rewrite app_assoc. reflexivity.
Qed.

Lemma returns_after_try_finally {A} x (body : M A) cleanup :
  returns_after x cleanup -> returns_after x (try_finally body cleanup).
Proof.
  intros Hc w h a. rewrite ending_try_finally, events_try_finally.
  destruct (ending body w h) as [b|e|]; try discriminate;
    destruct (ending cleanup w (h ++ events body w h)) as [u|e'|] eqn:E;
    try discriminate; intros _;
    destruct (Hc _ _ _ E) as [evs ->];
    exists (events body w h ++ evs); rewrite app_assoc; reflexivity.
Qed.

Lemma shut_down_returns_after dgt : returns_after closed_line (shut_down dgt).
Proof.
  unfold shut_down. repeat (apply returns_after_bind; intros ?).
  apply returns_after_print. reflexivity.
Qed.

Lemma run_the_event_loop_returns_after dgt :
  returns_after closed_line (run_the_event_loop dgt).
Proof.
  unfold run_the_event_loop. apply returns_after_bind. intros _.
  apply returns_after_try_finally, shut_down_returns_after.
Qed.

(** The shutdown starts with [dgt.close()] and does not close again. *)
Lemma shut_down_events dgt w h :
  exists evs,
    events (shut_down dgt) w h = Close dgt :: evs
    /\ Forall (fun e => is_cleanup_event e = true) evs.
Proof.
  unfold shut_down. rewrite events_perform_bind. eexists. split; [reflexivity|].
  destruct (w (h ++ [Close dgt])) as [a|e|]; [|constructor..].
  match goal with |- Forall _ (events ?m _ _) =>
    assert (H : emits (fun e => is_cleanup_event e = true) m)
      by follow by_computation; apply H end.
Qed.

Lemma cancel_each w tasks :
  (forall h' task, exists v, w (h' ++ [Cancel task]) = Returns v) ->
  forall h,
    events (for_each tasks (fun task => perform (Cancel task) ;; ret tt)) w h
    = map Cancel tasks
    /\ ending (for_each tasks (fun task => perform (Cancel task) ;; ret tt)) w h
       = Returns tt.
Proof.
  intros Hcancel. induction tasks as [|t ts IH]; intros h; cbn [for_each map].
  - split; reflexivity.
  - rewrite !events_bind, !ending_bind, !events_perform, !ending_perform.
    destruct (Hcancel h t) as [u ->]. rewrite events_ret, ending_ret.
    split; [|apply IH].
    destruct (IH (h ++ [Cancel t] ++ [])) as [-> _]. reflexivity.
Qed.

(** When nothing fails, the shutdown closes the handle, asks for all
    tasks, cancels each of them, and then awaits them together. *)
Lemma shut_down_cancels_all dgt w h tasks :
  (exists v, w (h ++ [Close dgt]) = Returns v) ->
  w (h ++ [Close dgt; AllTasks]) = Returns (VList tasks) ->
  (forall h' task, exists v, w (h' ++ [Cancel task]) = Returns v) ->
  exists evs,
    events (shut_down dgt) w h
    = Close dgt :: AllTasks :: map Cancel tasks ++ Gather tasks :: evs.
Proof.
  intros [v Hclose] Htasks Hcancel. unfold shut_down.
  rewrite events_perform_bind, Hclose, events_perform_bind.
  rewrite <- app_assoc. cbn [app]. rewrite Htasks.
  rewrite events_bind. cbn [iterate]. rewrite events_ret, ending_ret, app_nil_r.
  cbn [app]. rewrite events_bind.
  destruct (cancel_each w tasks Hcancel (h ++ [Close dgt; AllTasks])) as [-> ->].
  rewrite events_perform_bind. eexists. do 2 f_equal.
Qed.

Lemma run_the_event_loop_events dgt w h :
  events (run_the_event_loop dgt) w h
  = running_line :: AwaitForever ::
    match w (h ++ [running_line; AwaitForever]) with
    | Hangs => []
    | Raises CancelledError =>
        shutting_down_line
        :: events (shut_down dgt) w (h ++ [running_line; AwaitForever; shutting_down_line])
    | _ => events (shut_down dgt) w (h ++ [running_line; AwaitForever])
    end.
Proof.
  unfold run_the_event_loop.
  rewrite events_bind, events_print, ending_print.
  rewrite events_try_finally, ending_try_except, events_try_except.
  rewrite ending_bind, events_bind, events_perform, ending_perform.
  fold running_line. rewrite <- !app_assoc. cbn [app].
  destruct (w (h ++ [running_line; AwaitForever])) as [a|e|];
    [| destruct e |]; cbn; rewrite <- ?app_assoc; reflexivity.
Qed.

(** Up to the event loop, [main_async] makes no call that belongs to
    the shutdown; it either never gets to the loop, or runs it with the
    handle that [auto_connect] returned. *)
Lemma main_async_reaches_the_loop port_globs w h :
  Forall (fun e => is_shutdown_event e = false) (events (main_async port_globs) w h)
  \/ exists dgt pre,
       w (h ++ [AutoConnect port_globs]) = Returns dgt
       /\ Forall (fun e => is_shutdown_event e = false) pre
       /\ events (main_async port_globs) w h
          = pre ++ events (run_the_event_loop dgt) w (h ++ pre)
       /\ ending (main_async port_globs) w h
          = then_return_0 (ending (run_the_event_loop dgt) w (h ++ pre)).
Proof.
  assert (Hsetup : forall evs, Forall (fun e => is_setup_event e = true) evs ->
                               Forall (fun e => is_shutdown_event e = false) evs).
  { intros evs. apply Forall_impl. intros [] H; try reflexivity; discriminate H. }
  assert (Hclock : forall evs, Forall (fun e => is_clock_event e = true) evs ->
                               Forall (fun e => is_shutdown_event e = false) evs).
  { intros evs. apply Forall_impl. intros [] H; try reflexivity; discriminate H. }
  destruct (main_async_structure port_globs w h)
    as [(evs & -> & Hevs & _)|(dgt & pre & Hdgt & Hpre & -> & ->)].
  - left. constructor; [reflexivity | apply Hsetup, Hevs].
  - destruct (drive_the_clock_continues dgt w (h ++ AutoConnect port_globs :: pre))
      as [[HP _]|(pre' & HP & -> & ->)].
    + left. constructor; [reflexivity|].
      apply Forall_app. split; [apply Hsetup, Hpre | apply Hclock, HP].
    + right. exists dgt, (AutoConnect port_globs :: pre ++ pre').
      split; [exact Hdgt|]. split; [|split].
      * constructor; [reflexivity|].
        apply Forall_app. split; [apply Hsetup, Hpre | apply Hclock, HP].
      * cbn [app]. rewrite <- !app_assoc. reflexivity.
      * cbn [app]. rewrite <- !app_assoc. reflexivity.
Qed.

Lemma cut_at_app p l1 x l2 :
  Forall (fun e => p e = false) l1 -> p x = true ->
  cut_at p (l1 ++ x :: l2) = Some (l1, l2).
Proof.
  intros H Hx. induction H as [|e l1 He _ IH]; cbn [app cut_at].
  - rewrite Hx. reflexivity.
  - rewrite He, IH. reflexivity.
Qed.

Lemma cut_at_none p l : Forall (fun e => p e = false) l -> cut_at p l = None.
Proof.
  induction 1 as [|e l He _ IH]; cbn [cut_at]; [reflexivity|].
  rewrite He, IH. reflexivity.
Qed.

Lemma filter_none {A} (p : A -> bool) l :
  Forall (fun e => p e = false) l -> filter p l = [].
Proof.
  induction 1 as [|e l He _ IH]; cbn [filter]; [reflexivity|].
  rewrite He. exact IH.
Qed.

(** C5. When the long-lived wait of [main_async] is cancelled, the next
    call the harness makes is [dgt.close()], on the handle that
    [auto_connect] returned; it is the only [close()] of the run, none
    being made before the wait and none after this one; no task is
    cancelled or awaited before it; and when the calls of the cleanup
    return, the harness then asks for all tasks, cancels every one of
    them, and awaits them together. *)
Theorem close_before_cancelling_tasks port_globs w h before after :
  cut_at is_await_forever (events (main_async port_globs) w h) = Some (before, after) ->
  w (h ++ before ++ [AwaitForever]) = Raises CancelledError ->
  exists dgt rest,
    w (h ++ [AutoConnect port_globs]) = Returns dgt
    /\ after = shutting_down_line :: Close dgt :: rest
    /\ filter is_close (events (main_async port_globs) w h) = [Close dgt]
    /\ Forall (fun e => is_shutdown_event e = false) before
    /\ Forall (fun e => is_cleanup_event e = true) rest
    /\ forall tasks,
         (exists v, w (h ++ before ++ [AwaitForever; shutting_down_line; Close dgt])
                    = Returns v) ->
         w (h ++ before ++ [AwaitForever; shutting_down_line; Close dgt; AllTasks])
         = Returns (VList tasks) ->
         (forall h' task, exists v, w (h' ++ [Cancel task]) = Returns v) ->
         exists rest',
           rest = AllTasks :: map Cancel tasks ++ Gather tasks :: rest'.
Proof.
  intros Hcut Hcancelled.
  destruct (main_async_reaches_the_loop port_globs w h)
    as [Hnone|(dgt & pre & Hdgt & Hpre & Hevents & _)].
  { rewrite cut_at_none in Hcut; [discriminate|].
    eapply Forall_impl; [|exact Hnone]. intros [] H; try reflexivity; discriminate H. }
  rewrite Hevents, run_the_event_loop_events in Hcut |- *.
  assert (Hpre' : Forall (fun e => is_await_forever e = false) (pre ++ [running_line])).
  { apply Forall_app. split; [|repeat constructor].
    eapply Forall_impl; [|exact Hpre]. intros [] H; try reflexivity; discriminate H. }
  change (running_line :: AwaitForever :: ?l)
    with ([running_line] ++ AwaitForever :: l) in Hcut.
  rewrite app_assoc, cut_at_app in Hcut by (assumption || reflexivity).
  inversion Hcut; subst before after; clear Hcut.
  assert (Hc : w ((h ++ pre) ++ [running_line; AwaitForever]) = Raises CancelledError).
  { rewrite <- Hcancelled. f_equal. rewrite <- !app_assoc. reflexivity. }
  rewrite Hc.
  destruct (shut_down_events dgt w
              ((h ++ pre) ++ [running_line; AwaitForever; shutting_down_line]))
    as (rest & Hrest & Hclean).
  exists dgt, rest. split; [exact Hdgt|]. split; [rewrite Hrest; reflexivity|].
  split; [|split; [|split]].
  - rewrite filter_app, filter_none.
    + cbn [filter is_close app]. rewrite Hrest. cbn [filter is_close].
      rewrite filter_none; [reflexivity|].
      eapply Forall_impl; [|exact Hclean]. intros [] H; try reflexivity; discriminate H.
    + eapply Forall_impl; [|exact Hpre]. intros [] H; try reflexivity; discriminate H.
  - apply Forall_app. split; [exact Hpre | repeat constructor].
  - exact Hclean.
  - intros tasks [v Hclose] Htasks Hcancel.
    destruct (shut_down_cancels_all dgt w
                ((h ++ pre) ++ [running_line; AwaitForever; shutting_down_line]) tasks)
      as [rest' Hrest'].
    + exists v. rewrite <- Hclose. f_equal. rewrite <- !app_assoc. reflexivity.
    + rewrite <- Htasks. f_equal. rewrite <- !app_assoc. reflexivity.
    + exact Hcancel.
    + exists rest'. rewrite Hrest in Hrest'. inversion Hrest'. reflexivity.
Qed.

(** ** The timed commands *)

Section TimedCommands.

Variable w : world.

(** No sleep is interrupted. *)
Hypothesis sleeps_return : forall h d, exists v, w (h ++ [Sleep d]) = Returns v.

(** No command under [asyncio.wait_for] is cancelled or hangs: it
    returns, runs into its timeout, or fails with an [Exception]. *)
Hypothesis timed_commands_end :
  forall h c t, not_cancelled (w (h ++ [Await c (Some t)])).

Lemma awaited_app l1 l2 : awaited (l1 ++ l2) = awaited l1 ++ awaited l2.
Proof. apply flat_map_app. Qed.

Lemma events_bind_returns {A B} (m : M A) (k : A -> M B) h a :
  ending m w h = Returns a ->
  events (bind m k) w h = events m w h ++ events (k a) w (h ++ events m w h).
Proof. intros E. rewrite events_bind, E. reflexivity. Qed.

Lemma ending_bind_returns {A B} (m : M A) (k : A -> M B) h a :
  ending m w h = Returns a ->
  ending (bind m k) w h = ending (k a) w (h ++ events m w h).
Proof. intros E. rewrite ending_bind, E. reflexivity. Qed.

Lemma events_bind_ret {A B} (m : M A) (b : B) h :
  events (bind m (fun _ => ret b)) w h = events m w h.
Proof.
  rewrite events_bind. destruct (ending m w h); cbn; rewrite app_nil_r; reflexivity.
Qed.

(** One word of the sentence: the delay, the attempt, and at most a
    message; the loop goes on whatever the attempt gave. *)
Lemma display_one_word dgt word h :
  let attempt :=
    perform (Sleep 0.2%Q) ;;
    try_except
      (perform (Await (dgt_call dgt "clock_text" [VStr word]) (Some 0.5%Q)) ;;
       ret tt)
      (on_timeout_or_error "Sending clock text timed out."
                           "Error sending clock text: ") in
  ending attempt w h = Returns tt
  /\ filter (fun e => negb (is_print e)) (events attempt w h) = attempts dgt [word].
Proof.
  intros attempt. subst attempt.
  rewrite events_perform_bind, ending_perform_bind.
  destruct (sleeps_return h 0.2%Q) as [v ->].
  rewrite events_try_except, ending_try_except.
  rewrite events_perform_bind, ending_perform_bind.
  pose proof (timed_commands_end (h ++ [Sleep 0.2%Q])
                (dgt_call dgt "clock_text" [VStr word]) 0.5%Q) as H.
  destruct (w ((h ++ [Sleep 0.2%Q])
               ++ [Await (dgt_call dgt "clock_text" [VStr word]) (Some 0.5%Q)]))
    as [a|[]|]; cbn in H; try discriminate H; try contradiction;
    split; reflexivity.
Qed.

Lemma display_words dgt words : forall h,
  let loop := for_each words (fun word =>
    perform (Sleep 0.2%Q) ;;
    try_except
      (perform (Await (dgt_call dgt "clock_text" [VStr word]) (Some 0.5%Q)) ;;
       ret tt)
      (on_timeout_or_error "Sending clock text timed out."
                           "Error sending clock text: ")) in
  ending loop w h = Returns tt
  /\ filter (fun e => negb (is_print e)) (events loop w h) = attempts dgt words.
Proof.
  induction words as [|word words IH]; intros h; cbn [for_each].
  - split; reflexivity.
  - cbv zeta. destruct (display_one_word dgt word h) as [E1 F1].
    rewrite (ending_bind_returns _ _ _ _ E1), (events_bind_returns _ _ _ _ E1).
    destruct (IH (h ++ events
        (perform (Sleep 0.2%Q) ;;
         try_except
           (perform (Await (dgt_call dgt "clock_text" [VStr word]) (Some 0.5%Q)) ;;
            ret tt)
           (on_timeout_or_error "Sending clock text timed out."
                                "Error sending clock text: ")) w h)) as [E2 F2].
    split; [exact E2|].
    rewrite filter_app, F1, F2. reflexivity.
Qed.

End TimedCommands.

(** ** [str.split()] gives the whitespace-separated words *)

Lemma separated_after_whitespace c rest words :
  is_whitespace c = true -> Separated rest words -> Separated (c :: rest) words.
Proof.
  intros Hc H. destruct H as [gap Hgap | gap word rest words Hgap Hword Hrest H].
  - apply sep_end. cbn [forallb]. rewrite Hc, Hgap. reflexivity.
  - change (c :: gap ++ word ++ rest) with ((c :: gap) ++ word ++ rest).
    apply sep_word; try assumption. cbn [forallb]. rewrite Hc, Hgap. reflexivity.
Qed.

Lemma split_from_separated cs : forall word,
  forallb (fun c => negb (is_whitespace c)) word = true ->
  Separated (word ++ cs) (split_from word cs).
Proof.
  induction cs as [|c cs IH]; intros word Hword; cbn [split_from].
  - destruct word as [|a word].
    + apply sep_end. reflexivity.
    + change (emit (a :: word)) with [a :: word].
      change ((a :: word) ++ []) with ([] ++ (a :: word) ++ []).
      apply sep_word; [reflexivity | split; [discriminate | exact Hword]
                      | left; reflexivity | apply sep_end; reflexivity].
  - destruct (is_whitespace c) eqn:Hc.
    + pose proof (separated_after_whitespace c _ _ Hc (IH [] eq_refl)) as Hrest.
      destruct word as [|a word]; [exact Hrest|].
      change (emit (a :: word) ++ split_from [] cs)
        with ((a :: word) :: split_from [] cs).
      change ((a :: word) ++ c :: cs) with ([] ++ (a :: word) ++ c :: cs).
      apply sep_word; [reflexivity | split; [discriminate | exact Hword] | | exact Hrest].
      right. exists c, cs. split; [reflexivity | exact Hc].
    + replace (word ++ c :: cs) with ((word ++ [c]) ++ cs)
        by (rewrite <- app_assoc; reflexivity).
      apply IH. rewrite forallb_app. cbn [forallb]. rewrite Hword, Hc. reflexivity.
Qed.

Lemma split_separated sentence :
  Separated (list_ascii_of_string sentence)
            (map list_ascii_of_string (split sentence)).
Proof.
  unfold split. rewrite map_map.
  rewrite (map_ext _ (fun x => x)) by apply list_ascii_of_string_of_list_ascii.
  rewrite map_id. apply (split_from_separated _ []). reflexivity.
Qed.

(** In any world, cancelled or not, one turn of the loop sleeps and
    then makes at most the one attempt. *)
Lemma display_one_word_anyway dgt word w h :
  let attempt :=
    perform (Sleep 0.2%Q) ;;
    try_except
      (perform (Await (dgt_call dgt "clock_text" [VStr word]) (Some 0.5%Q)) ;;
       ret tt)
      (on_timeout_or_error "Sending clock text timed out."
                           "Error sending clock text: ") in
  (filter (fun e => negb (is_print e)) (events attempt w h) = [Sleep 0.2%Q]
   /\ forall a, ending attempt w h <> Returns a)
  \/ filter (fun e => negb (is_print e)) (events attempt w h) = attempts dgt [word].
Proof.
  intros attempt. subst attempt.
  rewrite events_perform_bind, ending_perform_bind.
  destruct (w (h ++ [Sleep 0.2%Q])) as [v|e|];
    [|left; split; [reflexivity | discriminate]..].
  right. rewrite events_try_except, events_perform_bind, ending_perform_bind.
  destruct (w ((h ++ [Sleep 0.2%Q])
               ++ [Await (dgt_call dgt "clock_text" [VStr word]) (Some 0.5%Q)]))
    as [a|[]|]; reflexivity.
Qed.

(** So the attempts made are always the first ones of those to make:
    never one twice, never one before its turn. *)
Lemma display_words_anyway dgt words w : forall h,
  exists n,
    filter (fun e => negb (is_print e))
           (events (for_each words (fun word =>
              perform (Sleep 0.2%Q) ;;
              try_except
                (perform (Await (dgt_call dgt "clock_text" [VStr word]) (Some 0.5%Q)) ;;
                 ret tt)
                (on_timeout_or_error "Sending clock text timed out."
                                     "Error sending clock text: "))) w h)
    = firstn n (attempts dgt words).
Proof.
  induction words as [|word words IH]; intros h; cbn [for_each].
  - exists 0%nat. reflexivity.
  - rewrite events_bind, filter_app.
    destruct (display_one_word_anyway dgt word w h) as [[-> Hstop] | ->].
    + exists 1%nat.
      match goal with |- context [match ?r with _ => _ end] =>
        destruct r as [a|e|]; [destruct (Hstop a eq_refl)|reflexivity..] end.
    + match goal with |- context [match ?r with _ => _ end] =>
        destruct r as [a|e|]; [|exists 2%nat; reflexivity..] end.
      match goal with |- context [events _ w ?x] => destruct (IH x) as [n ->] end.
      exists (S (S n)). reflexivity.
Qed.

(** C8. For every sentence, [clock_display_sentence] attempts
    [clock_text] once for each whitespace-separated word and in the
    order of the words, each attempt after a sleep of 0.2 seconds and
    under a timeout of 0.5 seconds; whether an attempt returns, times
    out or fails with an exception, the attempts for the words after it
    are made all the same, and the function returns.  (It is assumed
    that the task is not cancelled while it sleeps or waits; without
    this, the attempts made are still the first ones of the list.) *)
Theorem every_word_is_attempted w h dgt sentence :
  (forall h' d, exists v, w (h' ++ [Sleep d]) = Returns v) ->
  (forall h' c t, not_cancelled (w (h' ++ [Await c (Some t)]))) ->
  ending (clock_display_sentence dgt sentence) w h = Returns tt
  /\ filter (fun e => negb (is_print e))
            (events (clock_display_sentence dgt sentence) w h)
     = flat_map (fun word =>
         [Sleep 0.2%Q; Await (dgt_call dgt "clock_text" [VStr word]) (Some 0.5%Q)])
         (split sentence)
  /\ Separated (list_ascii_of_string sentence)
               (map list_ascii_of_string (split sentence))
  /\ (forall w' h',
        exists n,
          filter (fun e => negb (is_print e))
                 (events (clock_display_sentence dgt sentence) w' h')
          = firstn n (flat_map (fun word =>
              [Sleep 0.2%Q;
               Await (dgt_call dgt "clock_text" [VStr word]) (Some 0.5%Q)])
              (split sentence))).
Proof.
  intros Hsleep Htimed.
  destruct (display_words w Hsleep Htimed dgt (split sentence) h) as [E F].
  split; [exact E|]. split; [exact F|]. split; [apply split_separated|].
  intros w' h'. apply display_words_anyway.
Qed.

(** ** The demo goes on after a timeout *)

Lemma awaited_without_prints evs :
  awaited (filter (fun e => negb (is_print e)) evs) = awaited evs.
Proof.
  unfold awaited. induction evs as [|e evs IH]; [reflexivity|].
  destruct e; simpl; rewrite ?IH; reflexivity.
Qed.

Lemma awaited_attempts dgt words :
  awaited (attempts dgt words)
  = map (fun word => (dgt_call dgt "clock_text" [VStr word], Some 0.5%Q)) words.
Proof.
  induction words as [|word words IH]; [reflexivity|].
  cbn [attempts flat_map map]. rewrite awaited_app. fold (attempts dgt words).
  rewrite IH. reflexivity.
Qed.

Lemma awaited_print line evs : awaited (Print line :: evs) = awaited evs.
Proof. reflexivity. Qed.

Lemma tl_clock_commands dgt :
  tl (clock_commands dgt)
  = map (fun word => (dgt_call dgt "clock_text" [VStr word], Some 0.5%Q)) (split quote)
    ++ [(dgt_call dgt "clock_beep" [VFloat 0.1%Q], Some 1.0%Q)]
    ++ [(countdown_call dgt, Some 1.0%Q)].
Proof. unfold clock_commands. cbn [tl]. reflexivity. Qed.

Lemma assemble (a b c : event) e3 e4 e5 (F : history -> list event) h :
  [a; b] ++ [c] ++ e3 ++ e4 ++ e5
    ++ F (((((h ++ [a; b]) ++ [c]) ++ e3) ++ e4) ++ e5)
  = a :: b :: (c :: e3 ++ e4 ++ e5) ++ F (h ++ a :: b :: c :: e3 ++ e4 ++ e5).
Proof. cbn [app]. rewrite <- !app_assoc. reflexivity. Qed.

Lemma until_middle p l1 y x l2 :
  Forall (fun e => p e = false) l1 -> p y = false -> p x = true ->
  until p (l1 ++ y :: x :: l2) = l1 ++ [y].
Proof.
  intros H Hy Hx. induction H as [|e l1 He _ IH]; cbn [app until].
  - rewrite Hy, Hx. reflexivity.
  - rewrite He, IH. reflexivity.
Qed.

Section AfterATimeout.

Variable w : world.
Hypothesis sleeps_return : forall h d, exists v, w (h ++ [Sleep d]) = Returns v.
Hypothesis timed_commands_end :
  forall h c t, not_cancelled (w (h ++ [Await c (Some t)])).

Lemma get_the_clock_version_ends dgt h :
  exists line,
    events (get_the_clock_version dgt) w h
    = [Await (dgt_call dgt "get_clock_version" []) (Some 1.0%Q); Print line]
    /\ ending (get_the_clock_version dgt) w h = Returns tt
    /\ (w (h ++ [Await (dgt_call dgt "get_clock_version" []) (Some 1.0%Q)])
        = Raises TimeoutError ->
        line = [VStr "Clock version request timed out."]).
Proof.
  unfold get_the_clock_version.
  rewrite events_try_except, ending_try_except.
  rewrite events_perform_bind, ending_perform_bind.
  pose proof (timed_commands_end h (dgt_call dgt "get_clock_version" []) 1.0%Q) as H.
  destruct (w (h ++ [Await (dgt_call dgt "get_clock_version" []) (Some 1.0%Q)]))
    as [a|[]|]; cbn in H; try discriminate H; try contradiction;
    eexists; (split; [reflexivity | split; [reflexivity|]]);
    intros E; first [discriminate E | reflexivity].
Qed.

Lemma clock_display_sentence_performs dgt sentence h :
  performs (clock_display_sentence dgt sentence)
    (map (fun word => (dgt_call dgt "clock_text" [VStr word], Some 0.5%Q))
         (split sentence)) w h.
Proof.
  destruct (display_words w sleeps_return timed_commands_end dgt (split sentence) h)
    as [E F].
  split; [exact E|].
  unfold clock_display_sentence.
  rewrite <- awaited_without_prints, F. apply awaited_attempts.
Qed.

Lemma let_the_clock_beep_performs dgt h :
  performs (let_the_clock_beep dgt)
    [(dgt_call dgt "clock_beep" [VFloat 0.1%Q], Some 1.0%Q)] w h.
Proof.
  unfold performs, let_the_clock_beep.
  rewrite events_try_except, ending_try_except.
  rewrite events_bind, ending_bind, events_print, ending_print.
  rewrite events_perform_bind, ending_perform_bind.
  pose proof (timed_commands_end (h ++ [Print [VStr "Beep ..."]])
                (dgt_call dgt "clock_beep" [VFloat 0.1%Q]) 1.0%Q) as H.
  destruct (w ((h ++ [Print [VStr "Beep ..."]])
               ++ [Await (dgt_call dgt "clock_beep" [VFloat 0.1%Q]) (Some 1.0%Q)]))
    as [a|[]|]; cbn in H; try discriminate H; try contradiction;
    split; reflexivity.
Qed.

Lemma start_a_countdown_performs dgt h :
  performs (start_a_countdown dgt) [(countdown_call dgt, Some 1.0%Q)] w h.
Proof.
  unfold performs, start_a_countdown.
  rewrite events_try_except, ending_try_except.
  rewrite events_bind, ending_bind, events_print, ending_print.
  rewrite events_perform_bind, ending_perform_bind.
  pose proof (timed_commands_end (h ++ [Print [VStr "Countdown ..."]])
                (countdown_call dgt) 1.0%Q) as H.
  destruct (w ((h ++ [Print [VStr "Countdown ..."]])
               ++ [Await (countdown_call dgt) (Some 1.0%Q)]))
    as [a|[]|]; cbn in H; try discriminate H; try contradiction;
    split; reflexivity.
Qed.

(** Whatever the timed commands give, [drive_the_clock] makes all of
    them, in order, and then enters the event loop. *)
Lemma drive_the_clock_commands dgt h :
  exists line evs,
    events (drive_the_clock dgt) w h
    = Await (dgt_call dgt "get_clock_version" []) (Some 1.0%Q) :: Print line :: evs
      ++ events (run_the_event_loop dgt) w
           (h ++ Await (dgt_call dgt "get_clock_version" []) (Some 1.0%Q)
              :: Print line :: evs)
    /\ awaited evs = tl (clock_commands dgt)
    /\ Forall (fun e => is_clock_event e = true) evs
    /\ (w (h ++ [Await (dgt_call dgt "get_clock_version" []) (Some 1.0%Q)])
        = Raises TimeoutError ->
        line = [VStr "Clock version request timed out."]).
Proof.
  destruct (get_the_clock_version_ends dgt h) as (line & E1 & R1 & Hline).
  exists line. unfold drive_the_clock.
  rewrite (events_bind_returns _ _ _ _ _ R1), E1.
  remember (h ++ [Await (dgt_call dgt "get_clock_version" []) (Some 1.0%Q); Print line])
    as h1 eqn:Hh1.
  rewrite events_bind, events_print, ending_print.
  remember (h1 ++ [Print [VStr "Displaying text ..."]]) as h2 eqn:Hh2.
  destruct (clock_display_sentence_performs dgt quote h2) as [R3 A3].
  rewrite (events_bind_returns _ _ _ _ _ R3).
  remember (events (clock_display_sentence dgt quote) w h2) as e3 eqn:He3.
  destruct (let_the_clock_beep_performs dgt (h2 ++ e3)) as [R4 A4].
  rewrite (events_bind_returns _ _ _ _ _ R4).
  remember (events (let_the_clock_beep dgt) w (h2 ++ e3)) as e4 eqn:He4.
  destruct (start_a_countdown_performs dgt ((h2 ++ e3) ++ e4)) as [R5 A5].
  rewrite (events_bind_returns _ _ _ _ _ R5).
  remember (events (start_a_countdown dgt) w ((h2 ++ e3) ++ e4)) as e5 eqn:He5.
  exists (Print [VStr "Displaying text ..."] :: e3 ++ e4 ++ e5).
  split; [|split; [|split]].
  - rewrite events_bind_ret, Hh2, Hh1.
    apply (assemble _ _ _ _ _ _ (events (run_the_event_loop dgt) w)).
  - rewrite awaited_print, !awaited_app, A3, A4, A5, tl_clock_commands.
    reflexivity.
  - constructor; [reflexivity|].
    rewrite !Forall_app. split; [|split].
    + rewrite He3. apply clock_display_sentence_emits.
    + rewrite He4. apply let_the_clock_beep_emits.
    + rewrite He5. apply start_a_countdown_emits.
  - exact Hline.
Qed.

End AfterATimeout.

Lemma run_the_event_loop_awaits_nothing dgt w h :
  awaited (events (run_the_event_loop dgt) w h) = [].
Proof.
  assert (H : emits (fun e => awaited [e] = []) (run_the_event_loop dgt)).
  { unfold run_the_event_loop, shut_down. follow by_computation. }
  specialize (H w h).
  induction H as [|e evs He _ IH]; [reflexivity|].
  change (e :: evs) with ([e] ++ evs). rewrite awaited_app, He, IH. reflexivity.
Qed.

(** On the side of the program: let no sleep be interrupted and let
    every command under [asyncio.wait_for] end by returning, by timing
    out or by an [Exception]; let [main_async] get as far as the clock
    version request, and let that request time out.  Then the harness
    prints that the request timed out and goes on: the commands it
    awaits afterwards are [clock_text] for each word of the quote, then
    [clock_beep], then [clock_set], whichever of them time out in turn;
    and up to the event loop the only call that opens or closes a
    connection is the one [auto_connect] at the start. *)
Lemma the_demo_goes_on_after_a_timeout port_globs w h dgt before after :
  (forall h' d, exists v, w (h' ++ [Sleep d]) = Returns v) ->
  (forall h' c t, not_cancelled (w (h' ++ [Await c (Some t)]))) ->
  w (h ++ [AutoConnect port_globs]) = Returns dgt ->
  cut_at (is_command "get_clock_version") (events (main_async port_globs) w h)
  = Some (before, after) ->
  w (h ++ before ++ [Await (dgt_call dgt "get_clock_version" []) (Some 1.0%Q)])
  = Raises TimeoutError ->
  exists rest,
    after = Print [VStr "Clock version request timed out."] :: rest
    /\ awaited rest
       = map (fun word => (dgt_call dgt "clock_text" [VStr word], Some 0.5%Q))
             (split quote)
         ++ [(dgt_call dgt "clock_beep" [VFloat 0.1%Q], Some 1.0%Q);
             (countdown_call dgt, Some 1.0%Q)]
    /\ In AwaitForever rest
    /\ filter is_connection_event (before ++ until is_await_forever after)
       = [AutoConnect port_globs]
    /\ Forall (fun e => is_clock_event e = true) (until is_await_forever after)
    /\ awaited (until is_await_forever after) = awaited rest.
Proof.
  intros Hsleep Htimed Hdgt Hcut Htimeout.
  assert (Hsetup : forall evs (p : event -> bool),
            (forall e, is_setup_event e = true -> p e = false) ->
            Forall (fun e => is_setup_event e = true) evs ->
            Forall (fun e => p e = false) evs).
  { intros evs p Hp. apply Forall_impl, Hp. }
  assert (Hno_command : forall e, is_setup_event e = true ->
                                  is_command "get_clock_version" e = false).
  { intros [] H; try reflexivity. cbn in *. destruct timeout; [discriminate H|].
    destruct (String.eqb (method c) "get_clock_version"); [discriminate H | reflexivity]. }
  assert (Hno_connection : forall e, is_setup_event e = true ->
                                     is_connection_event e = false).
  { intros [] H; try reflexivity; discriminate H. }
  destruct (main_async_structure port_globs w h)
    as [(evs & Hevents & Hevs & _)|(dgt' & pre & Hdgt' & Hpre & Hevents & _)].
  { rewrite Hevents in Hcut. cbn [cut_at is_command] in Hcut.
    rewrite (cut_at_none _ _ (Hsetup _ _ Hno_command Hevs)) in Hcut. discriminate Hcut. }
  rewrite Hdgt in Hdgt'. inversion Hdgt'; subst dgt'; clear Hdgt'.
  destruct (drive_the_clock_commands w Hsleep Htimed dgt (h ++ AutoConnect port_globs :: pre))
    as (line & evs & Hdrive & Hawaited & Hclock & Hline).
  rewrite Hdrive in Hevents. rewrite Hevents in Hcut.
  change (AutoConnect port_globs :: pre ++ ?x :: ?l)
    with ((AutoConnect port_globs :: pre) ++ x :: l) in Hcut.
  rewrite cut_at_app in Hcut;
    [| constructor; [reflexivity | apply (Hsetup _ _ Hno_command Hpre)] | reflexivity].
  inversion Hcut; subst before after; clear Hcut.
  rewrite app_assoc in Htimeout. specialize (Hline Htimeout). subst line.
  eexists. split; [reflexivity|]. split; [|split; [|split; [|split]]].
  - rewrite awaited_app, run_the_event_loop_awaits_nothing, app_nil_r, Hawaited.
    apply tl_clock_commands.
  - apply in_or_app. right. rewrite run_the_event_loop_events. right. left. reflexivity.
  - rewrite run_the_event_loop_events.
    match goal with |- context [AwaitForever :: ?l] => generalize l; intros tail end.
    rewrite app_comm_cons, until_middle; [| | reflexivity | reflexivity].
    + rewrite !filter_app. cbn [filter is_connection_event app].
      rewrite !filter_none; [reflexivity | |].
      * eapply Forall_impl; [|exact Hclock]. intros [] H; try reflexivity; discriminate H.
      * apply (Hsetup _ _ Hno_connection Hpre).
    + constructor; [reflexivity|].
      eapply Forall_impl; [|exact Hclock]. intros [] H; try reflexivity; discriminate H.
  - rewrite run_the_event_loop_events.
    match goal with |- context [AwaitForever :: ?l] => generalize l; intros tail end.
    rewrite app_comm_cons, until_middle; [| | reflexivity | reflexivity].
    + apply Forall_app. split; [|repeat constructor].
      constructor; [reflexivity | exact Hclock].
    + constructor; [reflexivity|].
      eapply Forall_impl; [|exact Hclock]. intros [] H; try reflexivity; discriminate H.
  - rewrite (awaited_app evs), run_the_event_loop_awaits_nothing, app_nil_r.
    rewrite run_the_event_loop_events.
    match goal with |- context [AwaitForever :: ?l] => generalize l; intros tail end.
    rewrite app_comm_cons, until_middle; [| | reflexivity | reflexivity].
    + rewrite awaited_app, awaited_print. apply app_nil_r.
    + constructor; [reflexivity|].
      eapply Forall_impl; [|exact Hclock]. intros [] H; try reflexivity; discriminate H.
Qed.


(** ** The driver after a timeout *)

Lemma driver_after_app d h evs :
  driver_after d (h ++ evs)
  = fold_left (fun driver e => fst (driver_step d driver e)) evs (driver_after d h).
Proof. apply fold_left_app. Qed.

Lemma with_driver_last d others h e :
  with_driver d others (h ++ [e])
  = match snd (driver_step d (driver_after d h) e) with
    | Some r => r
    | None => others (h ++ [e])
    end.
Proof.
  unfold with_driver. rewrite rev_app_distr. cbn [rev app].
  rewrite rev_involutive. reflexivity.
Qed.

Lemma with_driver_sleeps d others :
  (forall h delay, exists v, others (h ++ [Sleep delay]) = Returns v) ->
  forall h delay, exists v, with_driver d others (h ++ [Sleep delay]) = Returns v.
Proof.
  intros Hsleep h delay. rewrite with_driver_last.
  destruct (driver_after d h); apply Hsleep.
Qed.

(** A command with a time allotted to it ends: it returns, times out
    or fails with one of the failures of the driver. *)
Lemma command_timed_ends d c t hd : not_cancelled (snd (command d c (Some t) hd)).
Proof.
  unfold command.
  repeat match goal with
         | |- context [match ?x with _ => _ end] => destruct x
         end; cbn; first [exact I | reflexivity].
Qed.

Lemma with_driver_timed_commands d others h c t :
  not_cancelled (with_driver d others (h ++ [Await c (Some t)])).
Proof.
  rewrite with_driver_last. cbn [driver_step].
  destruct (driver_after d h) as [hd|]; [|reflexivity].
  pose proof (command_timed_ends d c t hd) as H.
  destruct (command d c (Some t) hd) as [hd' r]. exact H.
Qed.

Lemma search_connected d hd : supervisor hd = Connected -> search d hd = hd.
Proof. unfold search. intros ->. reflexivity. Qed.

Lemma set_session_active hd s : active hd = Some s -> set_session hd s = hd.
Proof. destruct hd. cbn. intros ->. reflexivity. Qed.

(** A command on a running Session whose link holds: it is written to
    the Transport of that Session, its request is gone from the table
    when it has ended, and the Session runs on, whether the reply came
    or the time of the caller elapsed. *)
Lemma command_on_a_running_session d c t hd s :
  supervisor hd = Connected -> active hd = Some s -> state s = Running ->
  reaction_to d (written s) c <> Lost ->
  exists s',
    fst (command d c (Some t) hd) = set_session hd s'
    /\ session_number s' = session_number s
    /\ state s' = Running
    /\ written s' = written s ++ [c]
    /\ incl (pending_requests s') (pending_requests s)
    /\ snd (command d c (Some t) hd)
       = match reaction_to d (written s) c with
         | Replies v => Returns v
         | _ => Raises TimeoutError
         end.
Proof.
  intros Hsupervisor Hactive Hstate Hlink.
  assert (Hpending :
            incl (filter (fun entry => negb (Nat.eqb (fst entry) (next_key s)))
                         (pending_requests s ++ [(next_key s, c)]))
                 (pending_requests s)).
  { rewrite filter_app. cbn [filter fst]. rewrite Nat.eqb_refl. cbn [negb].
    rewrite app_nil_r. apply incl_filter. }
  unfold command. rewrite Hsupervisor, (search_connected d hd Hsupervisor).
  rewrite Hsupervisor, Hactive. unfold send. rewrite Hstate.
  destruct (reaction_to d (written s) c) as [v| |]; [| |contradiction];
    eexists; (split; [reflexivity|]); cbn;
    repeat split; try assumption; reflexivity.
Qed.

(** So prints, sleeps and commands with a time allotted to them leave a
    connected handle connected, through the same Session, and every
    one of the commands is written to its Transport. *)
Lemma driver_through_timed_commands d :
  (forall sent c, reaction_to d sent c <> Lost) ->
  forall evs hd s,
    Forall (fun e => is_clock_event e = true) evs ->
    supervisor hd = Connected -> active hd = Some s -> state s = Running ->
    exists s',
      fold_left (fun driver e => fst (driver_step d driver e)) evs (Some hd)
      = Some (set_session hd s')
      /\ session_number s' = session_number s
      /\ state s' = Running
      /\ written s' = written s ++ map fst (awaited evs)
      /\ incl (pending_requests s') (pending_requests s).
Proof.
  intros Hlink evs. induction evs as [|e evs IH]; intros hd s Hevs Hsupervisor Hactive Hstate.
  - exists s. cbn. rewrite (set_session_active hd s Hactive), app_nil_r.
    repeat split; first [assumption | reflexivity | apply incl_refl].
  - inversion Hevs as [|? ? He Hrest]; subst.
    destruct e as [| | | | |delay|c [t|]| | | | | |]; try discriminate He; cbn [fold_left].
    + cbn [driver_step fst].
      destruct (IH hd s Hrest Hsupervisor Hactive Hstate) as (s' & E & Hn & Hs & Hw & Hp).
      exists s'. repeat split; assumption.
    + cbn [driver_step fst]. rewrite (search_connected d hd Hsupervisor).
      destruct (IH hd s Hrest Hsupervisor Hactive Hstate) as (s' & E & Hn & Hs & Hw & Hp).
      exists s'. repeat split; assumption.
    + destruct (command_on_a_running_session d c t hd s Hsupervisor Hactive Hstate
                  (Hlink _ _)) as (s1 & E1 & Hn1 & Hs1 & Hw1 & Hp1 & _).
      cbn [driver_step]. destruct (command d c (Some t) hd) as [hd1 r].
      cbn [fst] in E1 |- *. subst hd1.
      destruct (IH (set_session hd s1) s1 Hrest Hsupervisor eq_refl Hs1)
        as (s' & E & Hn & Hs & Hw & Hp).
      exists s'. split; [exact E|]. split; [congruence|]. split; [exact Hs|].
      split; [|exact (incl_tran Hp Hp1)].
      rewrite Hw, Hw1, <- app_assoc. reflexivity.
Qed.

(** A lost link is another matter: the Session the command was
    written to is dead, the command fails with [ConnectionLost] and the
    Supervisor searches again. *)
Lemma lost_link_ends_the_session d c t hd s :
  supervisor hd = Connected -> active hd = Some s -> state s = Running ->
  reaction_to d (written s) c = Lost ->
  snd (command d c t hd) = Raises ConnectionLost
  /\ supervisor (fst (command d c t hd)) = Searching
  /\ active (fst (command d c t hd)) = None
  /\ exists s',
       ended (fst (command d c t hd)) = ended hd ++ [s']
       /\ session_number s' = session_number s
       /\ state s' = Dead
       /\ written s' = written s ++ [c]
       /\ pending_requests s' = [].
Proof.
  intros Hsupervisor Hactive Hstate Hlost.
  unfold command. rewrite Hsupervisor, (search_connected d hd Hsupervisor).
  rewrite Hsupervisor, Hactive. unfold send. rewrite Hstate, Hlost. cbn.
  repeat split. eexists. repeat split.
Qed.

Lemma map_fst_cons_tl {A B} (x : A * B) l :
  map fst (x :: l) = fst x :: map fst (tl (x :: l)).
Proof. reflexivity. Qed.

Lemma map_fst_clock_commands dgt :
  map fst (clock_commands dgt)
  = dgt_call dgt "get_clock_version" [] :: map fst (tl (clock_commands dgt)).
Proof. unfold clock_commands. apply (map_fst_cons_tl (_, _)). Qed.

(** C1. A timeout is local to the call that ran into it.  The handle
    is the driver of the spec, attached to a device whose link is not
    lost, and no sleep of the caller is interrupted.

    For every command: when the handle is connected through a running
    Session and the board does not reply to the command within the
    time the caller allots, the caller gets the timeout; and whatever
    it goes on to do (printing, sleeping, issuing commands with a time
    allotted to them), every command it issues afterwards is written
    to the Transport of the same Session, which is still running, the
    Supervisor is still connected, and no further Session was opened.

    In the demo: when [main_async] gets as far as the clock version
    request with the handle connected, and the clock does not answer
    it, the harness prints that the request timed out and goes on to
    await [clock_text] for each word of the quote, [clock_beep] and
    [clock_set]; when it enters the event loop all of them have been
    written to the same running Session, and the only call that opened
    or closed a connection is the [auto_connect] at the start. *)
Theorem timeout_is_local_to_the_call d others :
  (forall sent c, reaction_to d sent c <> Lost) ->
  (forall h delay, exists v, others (h ++ [Sleep delay]) = Returns v) ->
  (forall h hd s c t later,
     driver_after d h = Some hd ->
     supervisor hd = Connected -> active hd = Some s -> state s = Running ->
     reaction_to d (written s) c = Silent ->
     Forall (fun e => is_clock_event e = true) later ->
     with_driver d others (h ++ [Await c (Some t)]) = Raises TimeoutError
     /\ exists s',
          driver_after d (h ++ Await c (Some t) :: later) = Some (set_session hd s')
          /\ supervisor (set_session hd s') = Connected
          /\ sessions_opened (set_session hd s') = sessions_opened hd
          /\ session_number s' = session_number s
          /\ state s' = Running
          /\ written s' = written s ++ c :: map fst (awaited later)
          /\ incl (pending_requests s') (pending_requests s))
  /\ (forall port_globs h before after hd s,
        cut_at (is_command "get_clock_version")
               (events (main_async port_globs) (with_driver d others) h)
        = Some (before, after) ->
        driver_after d (h ++ before) = Some hd ->
        supervisor hd = Connected -> active hd = Some s -> state s = Running ->
        reaction_to d (written s) (dgt_call the_handle "get_clock_version" []) = Silent ->
        exists rest s',
          after = Print [VStr "Clock version request timed out."] :: rest
          /\ awaited rest
             = map (fun word => (dgt_call the_handle "clock_text" [VStr word], Some 0.5%Q))
                   (split quote)
               ++ [(dgt_call the_handle "clock_beep" [VFloat 0.1%Q], Some 1.0%Q);
                   (countdown_call the_handle, Some 1.0%Q)]
          /\ In AwaitForever rest
          /\ filter is_connection_event (before ++ until is_await_forever after)
             = [AutoConnect port_globs]
          /\ driver_after d
               (h ++ before
                  ++ Await (dgt_call the_handle "get_clock_version" []) (Some 1.0%Q)
                  :: until is_await_forever after)
             = Some (set_session hd s')
          /\ supervisor (set_session hd s') = Connected
          /\ sessions_opened (set_session hd s') = sessions_opened hd
          /\ session_number s' = session_number s
          /\ state s' = Running
          /\ written s' = written s ++ map fst (clock_commands the_handle)
          /\ incl (pending_requests s') (pending_requests s)).
Proof.
  intros Hlink Hsleep.
  assert (Hevery : forall h hd s c t later,
     driver_after d h = Some hd ->
     supervisor hd = Connected -> active hd = Some s -> state s = Running ->
     reaction_to d (written s) c = Silent ->
     Forall (fun e => is_clock_event e = true) later ->
     with_driver d others (h ++ [Await c (Some t)]) = Raises TimeoutError
     /\ exists s',
          driver_after d (h ++ Await c (Some t) :: later) = Some (set_session hd s')
          /\ supervisor (set_session hd s') = Connected
          /\ sessions_opened (set_session hd s') = sessions_opened hd
          /\ session_number s' = session_number s
          /\ state s' = Running
          /\ written s' = written s ++ c :: map fst (awaited later)
          /\ incl (pending_requests s') (pending_requests s)).
  { intros h hd s c t later Hdriver Hsupervisor Hactive Hstate Hsilent Hlater.
    destruct (command_on_a_running_session d c t hd s Hsupervisor Hactive Hstate
                (Hlink _ _)) as (s1 & E1 & Hn1 & Hs1 & Hw1 & Hp1 & Hr1).
    rewrite Hsilent in Hr1. split.
    - rewrite with_driver_last, Hdriver. cbn [driver_step].
      destruct (command d c (Some t) hd) as [hd1 r]. exact Hr1.
    - change (Await c (Some t) :: later) with ([Await c (Some t)] ++ later).
      rewrite app_assoc, driver_after_app, driver_after_app, Hdriver.
      cbn [fold_left driver_step].
      destruct (command d c (Some t) hd) as [hd1 r]. cbn [fst] in E1 |- *. subst hd1.
      destruct (driver_through_timed_commands d Hlink later (set_session hd s1) s1
                  Hlater Hsupervisor eq_refl Hs1) as (s' & E & Hn & Hs & Hw & Hp).
      exists s'. split; [exact E|]. split; [exact Hsupervisor|].
      split; [reflexivity|]. split; [congruence|]. split; [exact Hs|].
      split; [|exact (incl_tran Hp Hp1)].
      rewrite Hw, Hw1, <- app_assoc. reflexivity. }
  split; [exact Hevery|].
  intros port_globs h before after hd s Hcut Hdriver Hsupervisor Hactive Hstate Hsilent.
  destruct (Hevery (h ++ before) hd s (dgt_call the_handle "get_clock_version" [])
              1.0%Q [] Hdriver Hsupervisor Hactive Hstate Hsilent (Forall_nil _))
    as [Htimeout _].
  rewrite <- app_assoc in Htimeout.
  destruct (the_demo_goes_on_after_a_timeout port_globs (with_driver d others) h
              the_handle before after
              (with_driver_sleeps d others Hsleep)
              (fun h' c t => with_driver_timed_commands d others h' c t)
              (with_driver_last d others h (AutoConnect port_globs))
              Hcut Htimeout)
    as (rest & Hafter & Hawaited & Hloop & Hconnection & Hclock & Hsame).
  destruct (Hevery (h ++ before) hd s (dgt_call the_handle "get_clock_version" [])
              1.0%Q (until is_await_forever after)
              Hdriver Hsupervisor Hactive Hstate Hsilent Hclock)
    as [_ (s' & E & Hsup' & Hopened & Hn & Hs & Hw & Hp)].
  rewrite <- app_assoc in E.
  exists rest, s'. repeat (split; [assumption|]). split; [|exact Hp].
  rewrite Hw, Hsame, Hawaited, map_fst_clock_commands, tl_clock_commands.
  reflexivity.
Qed.

(** ** The entry point *)

Lemma trace_events {A} (m : M A) w : trace m w = events m w [].
Proof. reflexivity. Qed.

Lemma outcome_ending {A} (m : M A) w : outcome m w = ending m w [].
Proof. reflexivity. Qed.

Lemma configure_logging_ending argv w h :
  ending (configure_logging argv) w h = Returns tt.
Proof. unfold configure_logging. destruct (existsb is_debug argv); reflexivity. Qed.

Lemma configure_logging_events argv w h :
  events (configure_logging argv) w h
  = if existsb is_debug argv then [BasicConfig "DEBUG"] else [].
Proof. unfold configure_logging. destruct (existsb is_debug argv); reflexivity. Qed.

(** Without a port glob the entry point runs [usage] and exits with
    what it returns. *)
Lemma main_entrypoint_without_globs argv w h :
  port_globs_of argv = [] ->
  let logged := events (configure_logging argv) w h in
  events (main_entrypoint argv) w h = logged ++ events usage w (h ++ logged)
  /\ ending (main_entrypoint argv) w h
     = match ending usage w (h ++ logged) with
       | Returns code => Raises (SystemExit (Some code))
       | Raises e => Raises e
       | Hangs => Hangs
       end.
Proof.
  intros Hglobs logged. subst logged. unfold main_entrypoint. rewrite Hglobs.
  rewrite events_bind, ending_bind, configure_logging_ending.
  rewrite events_bind, ending_bind.
  destruct (ending usage w (h ++ events (configure_logging argv) w h));
    cbn; rewrite ?app_nil_r; split; reflexivity.
Qed.

(** With port globs it runs [main_async] on them and exits with what
    that returns. *)
Lemma main_entrypoint_with_globs argv w h :
  port_globs_of argv <> [] ->
  let logged := events (configure_logging argv) w h in
  events (main_entrypoint argv) w h
  = logged ++ events (main_async (port_globs_of argv)) w (h ++ logged)
  /\ ending (main_entrypoint argv) w h
     = match ending (main_async (port_globs_of argv)) w (h ++ logged) with
       | Returns code => Raises (SystemExit code)
       | Raises e => Raises e
       | Hangs => Hangs
       end.
Proof.
  intros Hglobs logged. subst logged. unfold main_entrypoint.
  rewrite events_bind, ending_bind, configure_logging_ending.
  destruct (port_globs_of argv) as [|glob globs] eqn:E; [contradiction|].
  unfold asyncio_run. rewrite events_bind, ending_bind.
  destruct (ending (main_async (glob :: globs)) w (h ++ events (configure_logging argv) w h));
    cbn; rewrite ?app_nil_r; split; reflexivity.
Qed.

Lemma print_port_emits (P : event -> Prop) entry :
  (forall line, P (Print line)) -> emits P (print_port entry).
Proof.
  intros HP. unfold print_port.
  destruct entry as [| | | | | | |items|items| |]; try apply emits_raise;
    destruct items as [|dev [|name [|info [|x items]]]];
    first [apply emits_raise | apply emits_print, HP].
Qed.

Lemma usage_emits (P : event -> Prop) :
  (forall line, P (Print line)) -> P Comports -> emits P usage.
Proof.
  intros HP HC. unfold usage.
  repeat first [ apply emits_bind; [|intros ?] | apply emits_print, HP
               | apply emits_perform, HC | apply emits_iterate | apply emits_ret
               | apply emits_for_each; intros ? | apply print_port_emits, HP ].
Qed.

Lemma print_port_ending entry w h :
  ending (print_port entry) w h = Returns tt
  \/ exists msg, ending (print_port entry) w h = Raises (Exception msg).
Proof.
  unfold print_port.
  destruct entry as [| | | | | | |items|items| |];
    try (right; eexists; reflexivity);
    destruct items as [|dev [|name [|info [|x items]]]];
    first [left; reflexivity | right; eexists; reflexivity].
Qed.

Lemma print_ports_ending entries w : forall h,
  ending (for_each entries print_port) w h = Returns tt
  \/ exists msg, ending (for_each entries print_port) w h = Raises (Exception msg).
Proof.
  induction entries as [|entry entries IH]; intros h; cbn [for_each].
  - left. reflexivity.
  - rewrite ending_bind.
    destruct (print_port_ending entry w h) as [->|[msg ->]].
    + apply IH.
    + right. exists msg. reflexivity.
Qed.

(** When the ports can be listed, [usage] returns 1, or fails with an
    [Exception] on an entry it cannot unpack. *)
Lemma usage_ending w h :
  (forall h', exists v, w (h' ++ [Comports]) = Returns v) ->
  ending usage w h = Returns 1%Z
  \/ exists msg, ending usage w h = Raises (Exception msg).
Proof.
  intros Hports. unfold usage.
  rewrite !ending_bind, !ending_print, !events_print, ending_perform, events_perform.
  destruct (Hports ((h ++ [Print [VStr (strip doc)]]) ++ [Print [VStr "  Probably one of:"]]))
    as [ports ->].
  rewrite !ending_bind.
  assert (Hiter : (exists entries, forall h', ending (iterate ports) w h' = Returns entries
                                      /\ events (iterate ports) w h' = [])
                  \/ exists msg, forall h', ending (iterate ports) w h' = Raises (Exception msg)).
  { destruct ports; try (right; eexists; intros; reflexivity);
      left; eexists; intros; split; reflexivity. }
  destruct Hiter as [[entries Hentries]|[msg Hmsg]].
  - destruct (Hentries (((h ++ [Print [VStr (strip doc)]])
                         ++ [Print [VStr "  Probably one of:"]]) ++ [Comports])) as [-> ->].
    rewrite !ending_bind.
    match goal with |- context [ending (for_each entries print_port) w ?x] =>
      destruct (print_ports_ending entries w x) as [->|[msg ->]] end.
    + left. reflexivity.
    + right. exists msg. reflexivity.
  - rewrite Hmsg. right. exists msg. reflexivity.
Qed.

(** ** The names the demo uses *)

Ltac unfold_main_async :=
  unfold main_async, drive_the_clock, get_some_information, get_the_clock_version,
    clock_display_sentence, let_the_clock_beep, start_a_countdown,
    run_the_event_loop, shut_down.

(** Apart from the [auto_connect] on its port globs, [main_async] opens
    no connection. *)
Lemma main_async_emits (P : event -> Prop) port_globs :
  P (AutoConnect port_globs) ->
  (forall e, is_auto_connect e = false -> P e) ->
  emits P (main_async port_globs).
Proof.
  intros H0 H. unfold_main_async.
  follow ltac:(first [exact H0 | apply H; reflexivity]).
Qed.

Lemma main_async_signatures port_globs :
  emits (fun e => forall c t, e = Await c t -> In (signature_of c) driven_surface)
        (main_async port_globs).
Proof.
  unfold_main_async.
  follow ltac:(let c := fresh "c" in let t := fresh "t" in let E := fresh "E" in
               intros c t E;
               first [ discriminate E
                     | inversion E; subst; cbn;
                       repeat first [left; reflexivity | right] ]).
Qed.

Lemma get_some_information_completes w dgt h :
  (forall h' c, exists v, w (h' ++ [Await c None]) = Returns v) ->
  ending (get_some_information dgt) w h = Returns Next
  /\ awaited (events (get_some_information dgt) w h) = information_requests dgt.
Proof.
  intros Hret. unfold get_some_information.
  rewrite events_try_except, ending_try_except.
  do 3 (rewrite events_perform_bind, ending_perform_bind;
        match goal with |- context [match w (?x ++ [Await ?c None]) with _ => _ end] =>
          let v := fresh "v" in destruct (Hret x c) as [v ->] end;
        rewrite events_print_bind, ending_print_bind).
  rewrite events_perform_bind, ending_perform_bind.
  match goal with |- context [match w (?x ++ [Await ?c None]) with _ => _ end] =>
    destruct (Hret x c) as [board ->] end.
  rewrite events_bind, ending_bind.
  destruct board; split; reflexivity.
Qed.

Lemma clock_commands_head dgt :
  clock_commands dgt
  = (dgt_call dgt "get_clock_version" [], Some 1.0%Q) :: tl (clock_commands dgt).
Proof. unfold clock_commands. cbn [tl]. reflexivity. Qed.

(** With a handle whose calls all return, [main_async] awaits the four
    information requests and then the timed commands, and nothing else. *)
Lemma main_async_commands w port_globs h dgt :
  w (h ++ [AutoConnect port_globs]) = Returns dgt ->
  (forall h' e, waits_for_an_answer e = true ->
                exists v, w (h' ++ [e]) = Returns v) ->
  awaited (events (main_async port_globs) w h)
  = information_requests dgt ++ clock_commands dgt.
Proof.
  intros Hdgt Hret. unfold main_async. rewrite events_perform_bind, Hdgt.
  do 6 (rewrite events_perform_bind;
        match goal with |- context [match w (?x ++ [?e]) with _ => _ end] =>
          let v := fresh "v" in destruct (Hret x e eq_refl) as [v ->] end).
  rewrite events_bind.
  match goal with |- context [events (get_some_information dgt) w ?x] =>
    destruct (get_some_information_completes w dgt x) as [-> Hinfo];
    [ intros h' c; apply Hret; reflexivity |];
    remember (events (get_some_information dgt) w x) as info eqn:Einfo;
    remember (x ++ info) as h1 eqn:Eh1
  end.
  assert (Hsleep : forall h' d, exists v, w (h' ++ [Sleep d]) = Returns v)
    by (intros; apply Hret; reflexivity).
  assert (Htimed : forall h' c t, not_cancelled (w (h' ++ [Await c (Some t)]))).
  { intros h' c t. destruct (Hret h' (Await c (Some t)) eq_refl) as [answer ->]. exact I. }
  destruct (drive_the_clock_commands w Hsleep Htimed dgt h1)
    as (line & evs & -> & Hevs & _ & _).
  repeat (unfold awaited at 1; cbn [flat_map app]; fold awaited).
  rewrite awaited_app, Hinfo. f_equal.
  repeat (unfold awaited at 1; cbn [flat_map app]; fold awaited).
  rewrite awaited_app, Hevs, run_the_event_loop_awaits_nothing, app_nil_r.
  symmetry. apply clock_commands_head.
Qed.

Lemma driven_surface_is_invocable c :
  In (signature_of c) driven_surface -> invocable surface_of_the_demo c = true.
Proof.
  unfold signature_of, invocable, accepts. intros H.
  repeat (destruct H as [H|H];
          [injection H as Hmethod Hargs Hkwargs;
           rewrite <- Hmethod, <- Hargs, <- Hkwargs; reflexivity|]).
  destruct H.
Qed.

Lemma clock_version_is_a_clock_command dgt :
  In (dgt_call dgt "get_clock_version" [], Some 1.0%Q) (clock_commands dgt).
Proof. rewrite clock_commands_head. apply in_eq. Qed.

Lemma clock_text_is_a_clock_command dgt :
  In (dgt_call dgt "clock_text" [VStr "Now,"], Some 0.5%Q) (clock_commands dgt).
Proof.
  rewrite clock_commands_head, tl_clock_commands. apply in_cons, in_or_app. left.
  apply (in_map (fun word => (dgt_call dgt "clock_text" [VStr word], Some 0.5%Q))
                (split quote) "Now,").
  vm_compute. left. reflexivity.
Qed.

Lemma clock_beep_is_a_clock_command dgt :
  In (dgt_call dgt "clock_beep" [VFloat 0.1%Q], Some 1.0%Q) (clock_commands dgt).
Proof.
  rewrite clock_commands_head, tl_clock_commands. apply in_cons, in_or_app. right.
  apply in_or_app. left. apply in_eq.
Qed.

Lemma clock_set_is_a_clock_command dgt :
  In (countdown_call dgt, Some 1.0%Q) (clock_commands dgt).
Proof.
  rewrite clock_commands_head, tl_clock_commands. apply in_cons, in_or_app. right.
  apply in_or_app. right. apply in_eq.
Qed.

(** C3, as amended.  The command surface driven by the demo is the one
    of the spec with the two serial-number operations under the names
    [get_serialnr] and [get_long_serialnr]: [get_version],
    [get_serialnr], [get_long_serialnr], [get_board],
    [get_clock_version], [clock_beep(duration)], [clock_set(left_time,
    right_time, left_running, right_running)] and [clock_text(text)].
    For every handle that [auto_connect] returns and whose calls
    return, [main_async] awaits on it the four information requests
    and then the timed commands; so every operation of the surface is
    called on the handle, the serial numbers under the names
    [get_serialnr] and [get_long_serialnr].  Every call of the demo, in
    every run, is a call of an operation of this surface with arguments
    it accepts; and [clock_set] accepts the four named parameters, of
    which the demo passes [left_time], [right_time] and
    [left_running]. *)
Theorem demo_drives_the_command_surface w port_globs h dgt :
  w (h ++ [AutoConnect port_globs]) = Returns dgt ->
  (forall h' e, waits_for_an_answer e = true ->
                exists v, w (h' ++ [e]) = Returns v) ->
  surface_of_the_demo
  = [("get_version", []); ("get_serialnr", []); ("get_long_serialnr", []);
     ("get_board", []); ("get_clock_version", []); ("clock_beep", ["duration"]);
     ("clock_set", ["left_time"; "right_time"; "left_running"; "right_running"]);
     ("clock_text", ["text"])]
  /\ awaited (events (main_async port_globs) w h)
     = information_requests dgt ++ clock_commands dgt
  /\ (forall name, In name (map fst surface_of_the_demo) ->
        exists c t,
          In (Await c t) (events (main_async port_globs) w h)
          /\ receiver c = dgt /\ method c = name)
  /\ In (Await (dgt_call dgt "get_serialnr" []) None)
        (events (main_async port_globs) w h)
  /\ In (Await (dgt_call dgt "get_long_serialnr" []) None)
        (events (main_async port_globs) w h)
  /\ In (Await (countdown_call dgt) (Some 1.0%Q)) (events (main_async port_globs) w h)
  /\ (forall w' port_globs' h' c t,
        In (Await c t) (events (main_async port_globs') w' h') ->
        invocable surface_of_the_demo c = true)
  /\ (forall left_time right_time left_running right_running,
        invocable surface_of_the_demo
          (clock_set_call dgt left_time right_time left_running right_running)
        = true).
Proof.
  intros Hdgt Hret.
  pose proof (main_async_commands w port_globs h dgt Hdgt Hret) as Hawaited.
  pose proof (clock_version_is_a_clock_command dgt) as Hversion.
  pose proof (clock_text_is_a_clock_command dgt) as Htext.
  pose proof (clock_beep_is_a_clock_command dgt) as Hbeep.
  pose proof (clock_set_is_a_clock_command dgt) as Hset.
  revert Hawaited Hversion Htext Hbeep Hset.
  generalize (clock_commands dgt). intros cmds Hawaited Hversion Htext Hbeep Hset.
  assert (Hin : forall c t,
            In (c, t) (information_requests dgt ++ cmds) ->
            In (Await c t) (events (main_async port_globs) w h)).
  { intros c t. rewrite <- Hawaited.
    generalize (events (main_async port_globs) w h). intros evs.
    unfold awaited. rewrite in_flat_map. intros (e & He & Hct).
    destruct e; try (destruct Hct; fail). destruct Hct as [Hct|[]].
    inversion Hct; subst. exact He. }
  split; [reflexivity|]. split; [exact Hawaited|].
  split; [|split; [|split; [|split; [|split]]]].
  - intros name Hname. cbn in Hname.
    destruct Hname as [<-|[<-|[<-|[<-|[<-|[<-|[<-|[<-|[]]]]]]]]].
    + exists (dgt_call dgt "get_version" []), None.
      split; [apply Hin; left; reflexivity | split; reflexivity].
    + exists (dgt_call dgt "get_serialnr" []), None.
      split; [apply Hin; right; left; reflexivity | split; reflexivity].
    + exists (dgt_call dgt "get_long_serialnr" []), None.
      split; [apply Hin; right; right; left; reflexivity | split; reflexivity].
    + exists (dgt_call dgt "get_board" []), None.
      split; [apply Hin; right; right; right; left; reflexivity | split; reflexivity].
    + exists (dgt_call dgt "get_clock_version" []), (Some 1.0%Q).
      split; [apply Hin, in_or_app; right; exact Hversion | split; reflexivity].
    + exists (dgt_call dgt "clock_beep" [VFloat 0.1%Q]), (Some 1.0%Q).
      split; [apply Hin, in_or_app; right; exact Hbeep | split; reflexivity].
    + exists (countdown_call dgt), (Some 1.0%Q).
      split; [apply Hin, in_or_app; right; exact Hset | split; reflexivity].
    + exists (dgt_call dgt "clock_text" [VStr "Now,"]), (Some 0.5%Q).
      split; [apply Hin, in_or_app; right; exact Htext | split; reflexivity].
  - apply Hin. right. left. reflexivity.
  - apply Hin. right. right. left. reflexivity.
  - apply Hin, in_or_app. right. exact Hset.
  - intros w' port_globs' h' c t Hct. apply driven_surface_is_invocable.
    pose proof (main_async_signatures port_globs' w' h') as H.
    rewrite Forall_forall in H. exact (H _ Hct c t eq_refl).
  - intros. reflexivity.
Qed.

(** C3, as stated, fails: the demo asks for the serial number under the
    name [get_serialnr], which is not a name of the command surface as
    the spec lists it, and it never calls [get_serial_number] or
    [get_long_serial_number]. *)
Lemma serial_number_is_asked_as_get_serialnr :
  let called := methods_called (trace (main_async ["/dev/ttyUSB*"]) (answering attached)) in
  In "get_serialnr" called
  /\ ~ In "get_serialnr" (map fst command_surface)
  /\ ~ In "get_serial_number" called
  /\ ~ In "get_long_serial_number" called.
Proof.
  vm_compute. repeat split; [tauto | | |]; intros H;
    repeat (destruct H as [H|H]; [discriminate H|]); exact H.
Qed.

(** ** The registered handlers *)

Lemma registrations_none evs :
  Forall (fun e => registrations [e] = []) evs -> registrations evs = [].
Proof.
  induction 1 as [|e evs He _ IH]; [reflexivity|].
  change (e :: evs) with ([e] ++ evs). unfold registrations in *.
  rewrite flat_map_app, He, IH. reflexivity.
Qed.

Lemma after_registration_emits dgt :
  emits (fun e => registrations [e] = [])
    (f <- get_some_information dgt ;;
     match f with
     | Return v => ret v
     | Next => drive_the_clock dgt
     end).
Proof. unfold_main_async. follow by_computation. Qed.

Lemma handler_body_arity hd payload :
  handler_body hd payload <> None <-> List.length payload = handler_arity hd.
Proof.
  destruct hd; destruct payload as [|x [|y payload]]; cbn;
    split; intros H; try reflexivity; try discriminate H; try congruence.
Qed.

Lemma handler_body_prints hd payload lines :
  handler_body hd payload = Some lines ->
  lines <> [] /\ forallb is_print lines = true.
Proof.
  destruct hd; destruct payload as [|x [|y payload]]; cbn;
    intros H; inversion H; split; (discriminate || reflexivity).
Qed.

(** C4. The event mechanism has exactly five kinds of events:
    [connected] with one value (the port), [disconnected] with none,
    [board], [button_pressed] and [clock] with one value each.
    [main_async] registers its handlers in this order and registers
    nothing else; once it is past the registrations (it has reached its
    first sleep) it has registered exactly one handler for each kind,
    and the number of parameters of each handler is the number of values
    of the payload.  Each handler, called with a payload of that shape,
    prints and does nothing else; called with another number of values
    it fails. *)
Theorem one_printing_handler_per_kind w port_globs h :
  (List.length event_kinds = 5%nat /\ NoDup (map fst event_kinds))
  /\ (exists n, map kind_and_arity (registrations (events (main_async port_globs) w h))
                = firstn n event_kinds)
  /\ (In (Sleep 0.1%Q) (events (main_async port_globs) w h) ->
      registrations (events (main_async port_globs) w h) = the_handlers
      /\ map kind_and_arity the_handlers = event_kinds)
  /\ (forall hd payload,
        handler_body hd payload <> None <-> List.length payload = handler_arity hd)
  /\ (forall hd payload lines,
        handler_body hd payload = Some lines ->
        lines <> [] /\ forallb is_print lines = true).
Proof.
  split; [|split; [|split; [|split]]].
  - split; [reflexivity|]. repeat constructor; cbn; intuition discriminate.
  - unfold main_async. rewrite events_perform_bind.
    destruct (w (h ++ [AutoConnect port_globs])) as [dgt|e|];
      [|exists 0%nat; reflexivity..].
    rewrite events_perform_bind.
    match goal with |- context [match w ?x with _ => _ end] =>
      destruct (w x) as [?|?|]; [|exists 1%nat; reflexivity..] end.
    rewrite events_perform_bind.
    match goal with |- context [match w ?x with _ => _ end] =>
      destruct (w x) as [?|?|]; [|exists 2%nat; reflexivity..] end.
    rewrite events_perform_bind.
    match goal with |- context [match w ?x with _ => _ end] =>
      destruct (w x) as [?|?|]; [|exists 3%nat; reflexivity..] end.
    rewrite events_perform_bind.
    match goal with |- context [match w ?x with _ => _ end] =>
      destruct (w x) as [?|?|]; [|exists 4%nat; reflexivity..] end.
    rewrite events_perform_bind.
    match goal with |- context [match w ?x with _ => _ end] =>
      destruct (w x) as [?|?|]; [|exists 5%nat; reflexivity..] end.
    rewrite events_perform_bind.
    match goal with |- context [match w ?x with _ => _ end] =>
      destruct (w x) as [?|?|]; [|exists 5%nat; reflexivity..] end.
    exists 5%nat.
    match goal with |- context [events ?m w ?x] =>
      pose proof (registrations_none _ (after_registration_emits dgt w x)) as Hrest;
      generalize dependent (events m w x) end.
    intros rest Hrest. unfold registrations in *. cbn. rewrite Hrest. reflexivity.
  - intros Hin. split; [|reflexivity].
    revert Hin. unfold main_async. rewrite events_perform_bind.
    destruct (w (h ++ [AutoConnect port_globs])) as [dgt|e|];
      [|cbn; intuition discriminate..].
    do 6 (rewrite events_perform_bind;
          match goal with |- context [match w ?x with _ => _ end] =>
            destruct (w x) as [?|?|]; [|cbn; intuition discriminate..] end).
    match goal with |- context [events ?m w ?x] =>
      pose proof (registrations_none _ (after_registration_emits dgt w x)) as Hrest;
      generalize dependent (events m w x) end.
    intros rest Hrest _. unfold registrations in *. cbn. rewrite Hrest. reflexivity.
  - apply handler_body_arity.
  - apply handler_body_prints.
Qed.

(** ** The command line *)

Lemma filter_without_debug args :
  without_debug args (filter (fun arg => negb (is_debug arg)) args).
Proof.
  induction args as [|arg args IH]; cbn [filter]; [constructor|].
  unfold is_debug at 1. destruct (String.eqb_spec arg "--debug") as [->|Hne]; cbn [negb].
  - apply wd_drop, IH.
  - apply wd_keep; assumption.
Qed.

Lemma port_globs_of_not_debug argv : ~ In "--debug" (port_globs_of argv).
Proof.
  unfold port_globs_of. intros H. apply filter_In in H as [_ H].
  discriminate H.
Qed.

Lemma no_glob_among_debug_flags argv :
  Forall (fun arg => arg = "--debug") (skipn 1 argv) -> port_globs_of argv = [].
Proof.
  unfold port_globs_of. induction 1 as [|arg args Harg _ IH]; [reflexivity|].
  cbn [filter]. rewrite Harg. exact IH.
Qed.

Lemma debug_argument_enables_logging argv :
  In "--debug" (skipn 1 argv) -> existsb is_debug argv = true.
Proof.
  intros H. apply existsb_exists. exists "--debug". split; [|reflexivity].
  destruct argv as [|program args]; [contradiction | right; exact H].
Qed.

Lemma usage_never_connects w h :
  Forall (fun e => is_auto_connect e = false) (events usage w h).
Proof. apply (usage_emits (fun e => is_auto_connect e = false)); reflexivity. Qed.

Lemma configure_logging_never_connects argv w h :
  Forall (fun e => is_auto_connect e = false) (events (configure_logging argv) w h).
Proof.
  rewrite configure_logging_events.
  destruct (existsb is_debug argv); repeat constructor.
Qed.

Lemma not_auto_connect evs port_globs :
  Forall (fun e => is_auto_connect e = false) evs -> ~ In (AutoConnect port_globs) evs.
Proof.
  intros H Hin. rewrite Forall_forall in H. specialize (H _ Hin). discriminate H.
Qed.

(** The only globs that reach [auto_connect] are those of the command
    line. *)
Lemma connects_with_the_port_globs w argv port_globs :
  In (AutoConnect port_globs) (trace (main_entrypoint argv) w) ->
  port_globs = port_globs_of argv /\ port_globs_of argv <> [].
Proof.
  rewrite trace_events. intros Hin.
  destruct (port_globs_of argv) as [|glob globs] eqn:E.
  - destruct (main_entrypoint_without_globs argv w [] E) as [Hevents _].
    rewrite Hevents in Hin. apply in_app_or in Hin as [Hin|Hin]; exfalso.
    + exact (not_auto_connect _ _ (configure_logging_never_connects argv w []) Hin).
    + exact (not_auto_connect _ _ (usage_never_connects w _) Hin).
  - assert (Hne : port_globs_of argv <> []) by (rewrite E; discriminate).
    destruct (main_entrypoint_with_globs argv w [] Hne) as [Hevents _].
    rewrite Hevents, E in Hin. split; [|discriminate].
    apply in_app_or in Hin as [Hin|Hin].
    + exfalso.
      exact (not_auto_connect _ _ (configure_logging_never_connects argv w []) Hin).
    + pose proof (main_async_emits
                    (fun e => forall g, e = AutoConnect g -> g = glob :: globs)
                    (glob :: globs)) as H.
      assert (H' := H ltac:(intros g Hg; inversion Hg; reflexivity)
                      ltac:(intros [] He g Hg; (discriminate He || discriminate Hg))).
      specialize (H' w ([] ++ events (configure_logging argv) w [])).
      rewrite Forall_forall in H'. exact (H' _ Hin _ eq_refl).
Qed.

(** C2. When every argument is ["--debug"] (or there is none), the
    program prints the usage text, never calls [auto_connect], and, the
    serial ports being listed, ends with exit status 1.  In every run,
    whatever the arguments, the globs handed to [auto_connect] are those
    of the command line and are not empty. *)
Theorem no_port_glob_no_connection w argv :
  (Forall (fun arg => arg = "--debug") (skipn 1 argv) ->
   In (Print [VStr (strip doc)]) (trace (main_entrypoint argv) w)
   /\ Forall (fun e => is_auto_connect e = false) (trace (main_entrypoint argv) w)
   /\ ((forall h, exists v, w (h ++ [Comports]) = Returns v) ->
       exit_status (outcome (main_entrypoint argv) w) = Some 1%Z))
  /\ (forall port_globs,
        In (AutoConnect port_globs) (trace (main_entrypoint argv) w) ->
        port_globs = port_globs_of argv /\ port_globs <> []).
Proof.
  split.
  - intros Hargs. apply no_glob_among_debug_flags in Hargs.
    rewrite trace_events, outcome_ending.
    destruct (main_entrypoint_without_globs argv w [] Hargs) as [-> ->].
    split; [|split].
    + apply in_or_app. right. unfold usage. rewrite events_bind, events_print.
      left. reflexivity.
    + apply Forall_app. split;
        [apply configure_logging_never_connects | apply usage_never_connects].
    + intros Hports.
      destruct (usage_ending w ([] ++ events (configure_logging argv) w []) Hports)
        as [->|[msg ->]]; reflexivity.
  - intros port_globs Hin.
    destruct (connects_with_the_port_globs w argv port_globs Hin) as [-> Hne].
    split; [reflexivity | exact Hne].
Qed.

(** C9. The port globs are the arguments without their ["--debug"]
    entries, wherever these stand, everything else kept as it is and in
    its order; ["--debug"] among the arguments makes the program
    configure debug logging before anything else; and the port globs,
    when there are any, are what [auto_connect] is called with, and
    nothing else is. *)
Theorem debug_flag_is_not_a_port_glob w argv :
  without_debug (skipn 1 argv) (port_globs_of argv)
  /\ ~ In "--debug" (port_globs_of argv)
  /\ (In "--debug" (skipn 1 argv) ->
      exists evs, trace (main_entrypoint argv) w = BasicConfig "DEBUG" :: evs)
  /\ (forall port_globs,
        In (AutoConnect port_globs) (trace (main_entrypoint argv) w) ->
        port_globs = port_globs_of argv)
  /\ (port_globs_of argv <> [] ->
      In (AutoConnect (port_globs_of argv)) (trace (main_entrypoint argv) w)).
Proof.
  split; [|split; [|split; [|split]]].
  - apply filter_without_debug.
  - apply port_globs_of_not_debug.
  - intros Hdebug. apply debug_argument_enables_logging in Hdebug.
    rewrite trace_events. unfold main_entrypoint.
    rewrite events_bind, configure_logging_events, Hdebug.
    eexists. reflexivity.
  - intros port_globs Hin. apply (connects_with_the_port_globs w argv), Hin.
  - intros Hne. rewrite trace_events.
    destruct (main_entrypoint_with_globs argv w [] Hne) as [-> _].
    apply in_or_app. right. unfold main_async. rewrite events_perform_bind.
    left. reflexivity.
Qed.

(** ** Where the exceptions of the program come from *)

Section Escapes.

Variable origin : event -> exn -> Prop.
Variable internal : exn -> Prop.

Lemma eo_ret {A} (a : A) : escapes_only origin internal (ret a).
Proof. intros w h e H. discriminate H. Qed.

Lemma eo_print line : escapes_only origin internal (print line).
Proof. intros w h e H. discriminate H. Qed.

Lemma eo_raise {A} e : internal e -> escapes_only origin internal (@raise A e).
Proof. intros He w h e' H. inversion H. subst. left. exact He. Qed.

Lemma eo_perform ev : (forall e, origin ev e) -> escapes_only origin internal (perform ev).
Proof.
  intros Hev w h e H. right. exists [], ev, []. rewrite ending_perform in H.
  split; [reflexivity|]. split; [exact H | apply Hev].
Qed.

Lemma eo_bind {A B} (m : M A) (k : A -> M B) :
  escapes_only origin internal m ->
  (forall a, escapes_only origin internal (k a)) ->
  escapes_only origin internal (bind m k).
Proof.
  intros Hm Hk w h e. rewrite ending_bind, events_bind.
  destruct (ending m w h) as [a|e'|] eqn:E; [| |discriminate].
  - intros H. destruct (Hk a _ _ _ H) as [Hi|(pre & ev & post & -> & Hw & Ho)];
      [left; exact Hi|].
    right. exists (events m w h ++ pre), ev, post.
    split; [rewrite <- app_assoc; reflexivity|].
    split; [rewrite <- Hw, <- !app_assoc; reflexivity | exact Ho].
  - intros H. inversion H. subst e'.
    destruct (Hm _ _ _ E) as [Hi|(pre & ev & post & -> & Hw & Ho)]; [left; exact Hi|].
    right. exists pre, ev, post. rewrite app_nil_r. repeat split; assumption.
Qed.

Lemma eo_for_each {A} (items : list A) body :
  (forall x, escapes_only origin internal (body x)) ->
  escapes_only origin internal (for_each items body).
Proof.
  intros Hb. induction items as [|x items IH]; cbn [for_each].
  - apply eo_ret.
  - apply eo_bind; [apply Hb | intros _; exact IH].
Qed.

Lemma eo_try_except {A} (body : M A) handlers :
  escapes_only origin internal body ->
  (forall e k, handlers e = Some k -> escapes_only origin internal k) ->
  escapes_only origin internal (try_except body handlers).
Proof.
  intros Hb Hh w h e. rewrite ending_try_except, events_try_except.
  destruct (ending body w h) as [a|e'|] eqn:E; [discriminate| |discriminate].
  destruct (handlers e') as [k|] eqn:Ek.
  - intros H. destruct (Hh _ _ Ek _ _ _ H) as [Hi|(pre & ev & post & -> & Hw & Ho)];
      [left; exact Hi|].
    right. exists (events body w h ++ pre), ev, post.
    split; [rewrite <- app_assoc; reflexivity|].
    split; [rewrite <- Hw, <- !app_assoc; reflexivity | exact Ho].
  - intros H. inversion H. subst e'.
    destruct (Hb _ _ _ E) as [Hi|(pre & ev & post & -> & Hw & Ho)]; [left; exact Hi|].
    right. exists pre, ev, post. rewrite app_nil_r. repeat split; assumption.
Qed.

Lemma eo_try_finally {A} (body : M A) cleanup :
  escapes_only origin internal body ->
  escapes_only origin internal cleanup ->
  escapes_only origin internal (try_finally body cleanup).
Proof.
  intros Hb Hc w h e. rewrite ending_try_finally, events_try_finally.
  assert (Hcleanup :
    ending cleanup w (h ++ events body w h) = Raises e ->
    internal e
    \/ exists pre ev post,
         events body w h ++ events cleanup w (h ++ events body w h) = pre ++ ev :: post
         /\ w (h ++ pre ++ [ev]) = Raises e /\ origin ev e).
  { intros H. destruct (Hc _ _ _ H) as [Hi|(pre & ev & post & -> & Hw & Ho)];
      [left; exact Hi|].
    right. exists (events body w h ++ pre), ev, post.
    split; [rewrite <- app_assoc; reflexivity|].
    split; [rewrite <- Hw, <- !app_assoc; reflexivity | exact Ho]. }
  destruct (ending body w h) as [a|e'|] eqn:E; [| |discriminate];
    destruct (ending cleanup w (h ++ events body w h)) as [u|e''|] eqn:Ec;
    try discriminate; intros H; inversion H; subst;
    try (apply Hcleanup; reflexivity).
  destruct (Hb _ _ _ E) as [Hi|(pre & ev & post & -> & Hw & Ho)]; [left; exact Hi|].
  right. exists pre, ev, (post ++ events cleanup w (h ++ pre ++ ev :: post)).
  split; [rewrite <- app_assoc; reflexivity|]. split; assumption.
Qed.

End Escapes.

Lemma eo_weaken {A} (origin origin' : event -> exn -> Prop)
  (internal internal' : exn -> Prop) (m : M A) :
  (forall ev e, origin ev e -> origin' ev e) ->
  (forall e, internal e -> internal' e) ->
  escapes_only origin internal m -> escapes_only origin' internal' m.
Proof.
  intros Ho Hi Hm w h e H.
  destruct (Hm _ _ _ H) as [Hint|(pre & ev & post & He & Hw & Hor)].
  - left. apply Hi, Hint.
  - right. exists pre, ev, post. repeat split; [exact He | exact Hw | apply Ho, Hor].
Qed.

(** A [try] whose except clauses catch every [Exception] lets through
    only what is not an [Exception], whatever its body does. *)
Lemma eo_catch_all {A} (origin : event -> exn -> Prop) (internal : exn -> Prop)
  (body : M A) handlers :
  escapes_only (fun _ _ => True) (fun e => is_Exception e = true) body ->
  catches_every_Exception handlers ->
  (forall ev e, is_Exception e = false -> origin ev e) ->
  escapes_only origin internal (try_except body handlers).
Proof.
  intros Hb [Hall Hquiet] Ho w h e. rewrite ending_try_except, events_try_except.
  destruct (ending body w h) as [a|e'|] eqn:E; [discriminate| |discriminate].
  destruct (handlers e') as [k|] eqn:Ek.
  - intros H. destruct (Hquiet _ _ Ek _ _ _ H).
  - intros H. inversion H. subst e'.
    assert (Hnot : is_Exception e = false).
    { destruct (is_Exception e) eqn:Ee; [|reflexivity].
      destruct (Hall e Ee Ek). }
    destruct (Hb _ _ _ E) as [Hi|(pre & ev & post & -> & Hw & _)]; [congruence|].
    right. exists pre, ev, post. rewrite app_nil_r.
    repeat split; [exact Hw | apply Ho, Hnot].
Qed.

Lemma on_timeout_or_error_catches timed_out failed :
  catches_every_Exception (on_timeout_or_error timed_out failed).
Proof.
  split.
  - intros [] He; cbn in *; discriminate.
  - intros [] k Hk w h e'; cbn in Hk; inversion Hk; subst; discriminate.
Qed.

Lemma eo_iterate origin (internal : exn -> Prop) v :
  internal not_iterable -> escapes_only origin internal (iterate v).
Proof. intros Hi. destruct v; first [apply eo_ret | apply eo_raise, Hi]. Qed.

Lemma eo_call_board_fen origin v :
  escapes_only origin (fun e => is_Exception e = true) (call_board_fen v).
Proof. destruct v; first [apply eo_ret | apply eo_raise; reflexivity]. Qed.

Lemma eo_print_port origin entry :
  escapes_only origin (fun e => is_Exception e = true) (print_port entry).
Proof.
  unfold print_port.
  destruct entry as [| | | | | | |items|items| |]; try (apply eo_raise; reflexivity);
    destruct items as [|dev [|name [|info [|x items]]]];
    first [apply eo_raise; reflexivity | apply eo_print].
Qed.

(** Follows a computation without [try] statements: whatever it raises
    is an [Exception] of its own or was raised by the world. *)
Ltac anything_goes :=
  repeat lazymatch goal with
    | |- escapes_only _ _ (ret _) => apply eo_ret
    | |- escapes_only _ _ (print _) => apply eo_print
    | |- escapes_only _ _ (raise _) => apply eo_raise; reflexivity
    | |- escapes_only _ _ (iterate _) => apply eo_iterate; reflexivity
    | |- escapes_only _ _ (call_board_fen _) => apply eo_call_board_fen
    | |- escapes_only _ _ (print_port _) => apply eo_print_port
    | |- escapes_only _ _ (perform _) => apply eo_perform; intros ?; exact I
    | |- escapes_only _ _ (bind _ _) => apply eo_bind; [|intros ?]
    | |- escapes_only _ _ (for_each _ _) => apply eo_for_each; intros ?
    end.

(** Follows [main_async]: the calls outside a [try] are no commands,
    and the [try] statements around the commands catch every
    [Exception]. *)
Ltac commands_are_guarded :=
  repeat lazymatch goal with
    | |- escapes_only _ _ (ret _) => apply eo_ret
    | |- escapes_only _ _ (print _) => apply eo_print
    | |- escapes_only _ _ (iterate _) => apply eo_iterate; reflexivity
    | |- escapes_only _ _ (perform _) =>
        apply eo_perform; let H := fresh in intros ? H; discriminate H
    | |- escapes_only _ _ (bind _ _) => apply eo_bind; [|intros ?]
    | |- escapes_only _ _ (for_each _ _) => apply eo_for_each; intros ?
    | |- escapes_only _ _ (try_finally _ _) => apply eo_try_finally
    | |- escapes_only _ _ (try_except _ (on_timeout_or_error _ _)) =>
        apply eo_catch_all;
        [ anything_goes | apply on_timeout_or_error_catches
        | let H := fresh in intros ? ? H _; exact H ]
    | |- escapes_only _ _ (match ?x with _ => _ end) => destruct x
    end.

Lemma get_some_information_escapes dgt :
  escapes_only (fun ev e => is_await ev = true -> is_Exception e = false)
               (fun e => e = not_iterable)
               (get_some_information dgt).
Proof.
  unfold get_some_information. apply eo_catch_all.
  - anything_goes.
  - split.
    + intros [] He; cbn in *; discriminate.
    + intros [] k Hk w h e'; cbn in Hk; inversion Hk; subst; discriminate.
  - intros ev e H _. exact H.
Qed.

Lemma main_async_escapes port_globs :
  escapes_only (fun ev e => is_await ev = true -> is_Exception e = false)
               (fun e => e = not_iterable)
               (main_async port_globs).
Proof.
  unfold main_async.
  do 7 (apply eo_bind;
        [apply eo_perform; let H := fresh in intros ? H; discriminate H | intros ?]).
  apply eo_bind; [apply get_some_information_escapes | intros f].
  destruct f; [|apply eo_ret].
  unfold drive_the_clock, get_the_clock_version, clock_display_sentence,
    let_the_clock_beep, start_a_countdown, run_the_event_loop, shut_down.
  commands_are_guarded.
  apply eo_try_except; [commands_are_guarded|].
  intros [] k Hk; inversion Hk; subst. apply eo_print.
Qed.

Lemma run_the_event_loop_ending dgt w h :
  ending (run_the_event_loop dgt) w h
  = match w (h ++ [running_line; AwaitForever]) with
    | Hangs => Hangs
    | Raises CancelledError =>
        match ending (shut_down dgt) w
                (h ++ [running_line; AwaitForever; shutting_down_line]) with
        | Returns _ => Returns tt
        | Raises e' => Raises e'
        | Hangs => Hangs
        end
    | r =>
        match ending (shut_down dgt) w (h ++ [running_line; AwaitForever]) with
        | Returns _ => match r with
                       | Returns _ => Returns tt
                       | Raises e => Raises e
                       | Hangs => Hangs
                       end
        | Raises e' => Raises e'
        | Hangs => Hangs
        end
    end.
Proof.
  unfold run_the_event_loop.
  rewrite ending_bind, events_print, ending_print.
  rewrite ending_try_finally, ending_try_except, events_try_except.
  rewrite ending_bind, events_bind, events_perform, ending_perform.
  fold running_line. rewrite <- !app_assoc. cbn [app].
  destruct (w (h ++ [running_line; AwaitForever])) as [a|e|];
    [| destruct e |]; cbn; rewrite <- ?app_assoc; reflexivity.
Qed.

(** ** The exit status *)

(** [main_async] returns 0 right after the event loop was closed, or
    [None] right after the cancellation message of its first block, and
    nothing else. *)
Lemma main_async_returns port_globs w h v :
  ending (main_async port_globs) w h = Returns v ->
  (v = Some 0%Z
   /\ exists evs, events (main_async port_globs) w h = evs ++ [closed_line])
  \/ (v = None
      /\ exists evs, events (main_async port_globs) w h = evs ++ [cancelled_line]).
Proof.
  intros Hv.
  destruct (main_async_structure port_globs w h)
    as [(evs & _ & _ & Hret)|(dgt & pre & _ & _ & Hevents & Hending)].
  { right. apply Hret, Hv. }
  left. rewrite Hending in Hv. rewrite Hevents.
  destruct (drive_the_clock_continues dgt w (h ++ AutoConnect port_globs :: pre))
    as [[_ Hstop]|(pre' & _ & -> & Hloop)].
  { exfalso. exact (Hstop v Hv). }
  rewrite Hloop in Hv.
  destruct (ending (run_the_event_loop dgt) w ((h ++ AutoConnect port_globs :: pre) ++ pre'))
    as [[]|e|] eqn:E; try discriminate Hv.
  inversion Hv. split; [reflexivity|].
  destruct (run_the_event_loop_returns_after dgt _ _ _ E) as [evs ->].
  exists (AutoConnect port_globs :: pre ++ pre' ++ evs).
  cbn [app]. rewrite <- !app_assoc. reflexivity.
Qed.

Section TheRunningLoop.

Variable w : world.

(** [loop.close()] must not be called on a loop that is running, and
    the loop of [main_async] is running whenever [main_async] is. *)
Hypothesis the_loop_is_running : forall h v, w (h ++ [LoopClose]) <> Returns v.

Lemma shut_down_does_not_return dgt h a : ending (shut_down dgt) w h <> Returns a.
Proof.
  unfold shut_down.
  rewrite ending_perform_bind.
  destruct (w (h ++ [Close dgt])) as [closed|e|]; [|discriminate..].
  rewrite ending_perform_bind.
  destruct (w ((h ++ [Close dgt]) ++ [AllTasks])) as [pending|e|]; [|discriminate..].
  rewrite ending_bind.
  destruct (ending (iterate pending) w _) as [tasks|e|]; [|discriminate..].
  rewrite ending_bind.
  destruct (ending (for_each tasks _) w _) as [u|e|]; [|discriminate..].
  rewrite ending_perform_bind.
  match goal with |- context [w ?x] =>
    destruct (w x) as [gathered|e|]; [|discriminate..] end.
  rewrite ending_perform_bind.
  match goal with |- context [w (?x ++ [LoopClose])] =>
    pose proof (the_loop_is_running x) as Hclose;
    destruct (w (x ++ [LoopClose])) as [v|e|]; [|discriminate..] end.
  destruct (Hclose v eq_refl).
Qed.

Lemma run_the_event_loop_does_not_return dgt h a :
  ending (run_the_event_loop dgt) w h <> Returns a.
Proof.
  rewrite run_the_event_loop_ending.
  destruct (w (h ++ [running_line; AwaitForever])) as [v|[]|];
    try discriminate;
    match goal with |- context [ending (shut_down dgt) w ?x] =>
      pose proof (shut_down_does_not_return dgt x) as Hshut;
      destruct (ending (shut_down dgt) w x) as [u|e|];
      [destruct (Hshut u eq_refl) | discriminate..] end.
Qed.

(** So [main_async] returns from its first block or not at all. *)
Lemma main_async_returns_early port_globs h v :
  ending (main_async port_globs) w h = Returns v ->
  v = None /\ ~ In AwaitForever (events (main_async port_globs) w h).
Proof.
  intros Hv.
  destruct (main_async_structure port_globs w h)
    as [(evs & Hevents & Hevs & Hret)|(dgt & pre & _ & _ & _ & Hending)].
  - split; [apply Hret, Hv|]. rewrite Hevents. intros [Hin|Hin]; [discriminate Hin|].
    rewrite Forall_forall in Hevs. specialize (Hevs _ Hin). discriminate Hevs.
  - exfalso. rewrite Hending in Hv.
    destruct (drive_the_clock_continues dgt w (h ++ AutoConnect port_globs :: pre))
      as [[_ Hstop]|(pre' & _ & _ & Hloop)]; [exact (Hstop v Hv)|].
    rewrite Hloop in Hv.
    match type of Hv with then_return_0 ?r = _ =>
      destruct r as [u|e|] eqn:E; try discriminate Hv end.
    exact (run_the_event_loop_does_not_return _ _ _ E).
Qed.

End TheRunningLoop.

(** C10. The exit status after a shutdown is not 0.  [main_async]
    closes, in its [finally] block, the loop it is running on, which a
    running loop refuses; so once [main_async] has entered the event
    loop it does not return, the line [return 0] is out of reach, the
    program does not end through [sys.exit] and its exit status is not
    0.  The only value [main_async] ever returns is the [None] of the
    early return of its first block.  (It is assumed that no call into
    a library raises [SystemExit].) *)
Theorem shutdown_does_not_reach_return_0 w argv :
  (forall h v, w (h ++ [LoopClose]) <> Returns v) ->
  (forall h code, w h <> Raises (SystemExit code)) ->
  (forall port_globs h v,
     ending (main_async port_globs) w h = Returns v ->
     v = None /\ ~ In AwaitForever (events (main_async port_globs) w h))
  /\ (In AwaitForever (trace (main_entrypoint argv) w) ->
      port_globs_of argv <> []
      /\ (forall code, outcome (main_entrypoint argv) w <> Raises (SystemExit code))
      /\ exit_status (outcome (main_entrypoint argv) w) <> Some 0%Z).
Proof.
  intros Hloop Hworld. split; [apply main_async_returns_early, Hloop|].
  intros Hwait.
  assert (Hglobs : port_globs_of argv <> []).
  { intros Hnone. rewrite trace_events in Hwait.
    destruct (main_entrypoint_without_globs argv w [] Hnone) as [Hevents _].
    rewrite Hevents in Hwait. apply in_app_or in Hwait as [Hin|Hin].
    - rewrite configure_logging_events in Hin.
      destruct (existsb is_debug argv); [destruct Hin as [Hin|[]]; discriminate Hin|].
      destruct Hin.
    - pose proof (usage_emits (fun e => is_await_forever e = false)
                    (fun _ => eq_refl) eq_refl w
                    ([] ++ events (configure_logging argv) w [])) as Husage.
      rewrite Forall_forall in Husage. specialize (Husage _ Hin). discriminate Husage. }
  split; [exact Hglobs|].
  rewrite trace_events in Hwait. rewrite outcome_ending.
  destruct (main_entrypoint_with_globs argv w [] Hglobs) as [Hevents ->].
  rewrite Hevents in Hwait. apply in_app_or in Hwait as [Hin|Hin].
  { exfalso. rewrite configure_logging_events in Hin.
    destruct (existsb is_debug argv); [destruct Hin as [Hin|[]]; discriminate Hin|].
    destruct Hin. }
  destruct (ending (main_async (port_globs_of argv)) w
              ([] ++ events (configure_logging argv) w [])) as [v|e|] eqn:E.
  - exfalso. exact (proj2 (main_async_returns_early w Hloop _ _ _ E) Hin).
  - assert (He : forall code, e <> SystemExit code).
    { intros code ->.
      destruct (main_async_escapes _ _ _ _ E) as [Hi|(pre & ev & post & _ & Hw & _)];
        [discriminate Hi | exact (Hworld _ _ Hw)]. }
    split.
    + intros code Hcode. injection Hcode as Hcode. exact (He code Hcode).
    + destruct e as [| | |code]; try discriminate. destruct (He code eq_refl).
  - split; discriminate.
Qed.

(** ** The theorems at work on sample runs *)

Lemma answering_last answer h e : answering answer (h ++ [e]) = answer e.
Proof. unfold answering. rewrite rev_app_distr. reflexivity. Qed.

Lemma board_fen_start_position :
  board_fen start_position = "rnbqkbnr/pppppppp/8/8/8/8/PPPPPPPP/RNBQKBNR".
Proof. reflexivity. Qed.

(** Cancelled during the first command, [main_async] returns without a
    value and the exit status is 0. *)
Lemma cancelled_early_exits_with_0 :
  outcome (main_entrypoint ["asyncdgt"; "/dev/ttyUSB*"]) (answering cancelled_early)
  = Raises (SystemExit None)
  /\ exit_status (outcome (main_entrypoint ["asyncdgt"; "/dev/ttyUSB*"])
                          (answering cancelled_early))
     = Some 0%Z.
Proof. split; reflexivity. Qed.

Lemma the_link_holds sent c : reaction_to board_with_a_silent_clock sent c <> Lost.
Proof.
  unfold board_with_a_silent_clock. cbn [reaction_to].
  destruct (existsb (String.eqb (method c))
              ["get_version"; "get_serialnr"; "get_long_serialnr"; "get_board"]);
    discriminate.
Qed.

(** The driver attached to a board whose clock never answers: it is
    connected when the clock version is asked for, every timed command
    of the demo times out, and every one of them is written to the
    Session that was opened first. *)
Lemma timeout_is_local_to_the_call_witness :
  exists before after hd s,
    cut_at (is_command "get_clock_version")
           (events (main_async ["/dev/ttyUSB*"])
                   (with_driver board_with_a_silent_clock (answering attached)) [])
    = Some (before, after)
    /\ driver_after board_with_a_silent_clock ([] ++ before) = Some hd
    /\ supervisor hd = Connected
    /\ active hd = Some s
    /\ state s = Running
    /\ exists rest s',
         after = Print [VStr "Clock version request timed out."] :: rest
         /\ awaited rest
            = map (fun word => (dgt_call the_handle "clock_text" [VStr word], Some 0.5%Q))
                  (split quote)
              ++ [(dgt_call the_handle "clock_beep" [VFloat 0.1%Q], Some 1.0%Q);
                  (countdown_call the_handle, Some 1.0%Q)]
         /\ In AwaitForever rest
         /\ filter is_connection_event (before ++ until is_await_forever after)
            = [AutoConnect ["/dev/ttyUSB*"]]
         /\ driver_after board_with_a_silent_clock
              ([] ++ before
                  ++ Await (dgt_call the_handle "get_clock_version" []) (Some 1.0%Q)
                  :: until is_await_forever after)
            = Some (set_session hd s')
         /\ supervisor (set_session hd s') = Connected
         /\ sessions_opened (set_session hd s') = sessions_opened hd
         /\ session_number s' = session_number s
         /\ state s' = Running
         /\ written s' = written s ++ map fst (clock_commands the_handle)
         /\ incl (pending_requests s') (pending_requests s).
Proof.
  do 4 eexists.
  split; [vm_compute; reflexivity|].
  split; [vm_compute; reflexivity|].
  split; [reflexivity|]. split; [reflexivity|]. split; [reflexivity|].
  apply (proj2 (timeout_is_local_to_the_call
                  board_with_a_silent_clock (answering attached) the_link_holds
                  (fun h delay => ex_intro _ VNone (answering_last attached h (Sleep delay))))
               ["/dev/ttyUSB*"] []).
  - vm_compute. reflexivity.
  - vm_compute. reflexivity.
  - reflexivity.
  - reflexivity.
  - reflexivity.
  - reflexivity.
Defined.

(** With a board attached and Ctrl+C pressed in the event loop, the
    harness closes the handle first and then cancels the two tasks. *)
Lemma close_before_cancelling_tasks_witness :
  exists before after,
    cut_at is_await_forever (events (main_async ["/dev/ttyUSB*"]) (answering attached) [])
    = Some (before, after)
    /\ exists dgt rest,
         answering attached ([] ++ [AutoConnect ["/dev/ttyUSB*"]]) = Returns dgt
         /\ after = shutting_down_line :: Close dgt :: rest
         /\ filter is_close (events (main_async ["/dev/ttyUSB*"]) (answering attached) [])
            = [Close dgt]
         /\ Forall (fun e => is_shutdown_event e = false) before
         /\ Forall (fun e => is_cleanup_event e = true) rest
         /\ forall tasks,
              (exists v, answering attached
                           ([] ++ before ++ [AwaitForever; shutting_down_line; Close dgt])
                         = Returns v) ->
              answering attached
                ([] ++ before ++ [AwaitForever; shutting_down_line; Close dgt; AllTasks])
              = Returns (VList tasks) ->
              (forall h' task, exists v, answering attached (h' ++ [Cancel task]) = Returns v) ->
              exists rest',
                rest = AllTasks :: map Cancel tasks ++ Gather tasks :: rest'.
Proof.
  eexists. eexists. split.
  - vm_compute. reflexivity.
  - apply (close_before_cancelling_tasks ["/dev/ttyUSB*"] (answering attached) []).
    + vm_compute. reflexivity.
    + vm_compute. reflexivity.
Defined.

(** The quote is shown word by word even when every attempt times out. *)
Lemma every_word_is_attempted_witness :
  ending (clock_display_sentence (VObject 0) quote) (answering silent_clock) []
  = Returns tt
  /\ filter (fun e => negb (is_print e))
            (events (clock_display_sentence (VObject 0) quote) (answering silent_clock) [])
     = flat_map (fun word =>
         [Sleep 0.2%Q; Await (dgt_call (VObject 0) "clock_text" [VStr word]) (Some 0.5%Q)])
         (split quote)
  /\ Separated (list_ascii_of_string quote) (map list_ascii_of_string (split quote))
  /\ (forall w' h',
        exists n,
          filter (fun e => negb (is_print e))
                 (events (clock_display_sentence (VObject 0) quote) w' h')
          = firstn n (flat_map (fun word =>
              [Sleep 0.2%Q;
               Await (dgt_call (VObject 0) "clock_text" [VStr word]) (Some 0.5%Q)])
              (split quote))).
Proof.
  apply (every_word_is_attempted (answering silent_clock) [] (VObject 0) quote).
  - intros h' d. exists VNone. apply answering_last.
  - intros h' c t. rewrite answering_last. reflexivity.
Defined.

Lemma demo_drives_the_command_surface_witness :
  awaited (events (main_async ["/dev/ttyUSB*"]) (answering attached) [])
  = information_requests (VObject 0) ++ clock_commands (VObject 0).
Proof.
  refine (proj1 (proj2 (demo_drives_the_command_surface
                          (answering attached) ["/dev/ttyUSB*"] [] (VObject 0) _ _))).
  - reflexivity.
  - intros h' e He. rewrite answering_last.
    destruct e; try discriminate He; eexists; reflexivity.
Defined.

Lemma one_printing_handler_per_kind_witness :
  registrations (events (main_async ["/dev/ttyUSB*"]) (answering attached) [])
  = the_handlers
  /\ map kind_and_arity the_handlers = event_kinds.
Proof.
  apply (proj1 (proj2 (proj2 (one_printing_handler_per_kind
                                (answering attached) ["/dev/ttyUSB*"] [])))).
  vm_compute. do 6 right. left. reflexivity.
Defined.

(** [python -m asyncdgt --debug]: usage, and exit status 1. *)
Lemma no_port_glob_no_connection_witness :
  In (Print [VStr (strip doc)])
     (trace (main_entrypoint ["asyncdgt"; "--debug"]) (answering attached))
  /\ Forall (fun e => is_auto_connect e = false)
            (trace (main_entrypoint ["asyncdgt"; "--debug"]) (answering attached))
  /\ exit_status (outcome (main_entrypoint ["asyncdgt"; "--debug"]) (answering attached))
     = Some 1%Z.
Proof.
  destruct (proj1 (no_port_glob_no_connection (answering attached) ["asyncdgt"; "--debug"]))
    as (Husage & Hnever & Hstatus).
  - cbn [skipn]. repeat constructor.
  - split; [exact Husage|]. split; [exact Hnever|].
    apply Hstatus. intros h. rewrite answering_last. eexists. reflexivity.
Defined.

(** [python -m asyncdgt --debug /dev/ttyUSB* --debug]: logging is
    configured first, and the one glob is what [auto_connect] gets. *)
Lemma debug_flag_is_not_a_port_glob_witness :
  (exists evs,
      trace (main_entrypoint ["asyncdgt"; "--debug"; "/dev/ttyUSB*"; "--debug"])
            (answering attached)
      = BasicConfig "DEBUG" :: evs)
  /\ In (AutoConnect ["/dev/ttyUSB*"])
        (trace (main_entrypoint ["asyncdgt"; "--debug"; "/dev/ttyUSB*"; "--debug"])
               (answering attached)).
Proof.
  destruct (debug_flag_is_not_a_port_glob (answering attached)
              ["asyncdgt"; "--debug"; "/dev/ttyUSB*"; "--debug"])
    as (_ & _ & Hlogging & _ & Hconnect).
  split.
  - apply Hlogging. cbn [skipn]. left. reflexivity.
  - apply Hconnect. discriminate.
Defined.

(** Ctrl+C while the event loop runs: the shutdown is entered, the
    wait for the cancelled tasks does not come back, and the program
    does not exit at all. *)
Lemma running_loop_never_exits h code :
  answering running_loop h <> Raises (SystemExit code).
Proof.
  unfold answering. destruct (rev h) as [|e evs]; [discriminate|].
  destruct e; discriminate.
Qed.

Lemma shutdown_does_not_reach_return_0_witness :
  port_globs_of ["asyncdgt"; "/dev/ttyUSB*"] <> []
  /\ (forall code,
        outcome (main_entrypoint ["asyncdgt"; "/dev/ttyUSB*"]) (answering running_loop)
        <> Raises (SystemExit code))
  /\ exit_status (outcome (main_entrypoint ["asyncdgt"; "/dev/ttyUSB*"])
                          (answering running_loop))
     <> Some 0%Z.
Proof.
  apply (proj2 (shutdown_does_not_reach_return_0
                  (answering running_loop) ["asyncdgt"; "/dev/ttyUSB*"]
                  (fun h v => ltac:(rewrite answering_last; discriminate))
                  running_loop_never_exits)).
  vm_compute. tauto.
Defined.

Lemma shutdown_hangs_in_the_running_loop :
  outcome (main_entrypoint ["asyncdgt"; "/dev/ttyUSB*"]) (answering running_loop) = Hangs
  /\ last (trace (main_entrypoint ["asyncdgt"; "/dev/ttyUSB*"]) (answering running_loop))
          Comports
     = Gather [VObject 1; VObject 2].
Proof. split; reflexivity. Qed.

(* ================================================================== *)
(** * Part III: further properties of the program                      *)
(* ================================================================== *)

(** ** The logging flag *)

Lemma main_async_makes_its_own_calls port_globs :
  emits (fun e => is_main_async_event e = true) (main_async port_globs).
Proof. unfold_main_async. follow by_computation. Qed.

Lemma existsb_is_debug argv : existsb is_debug argv = true <-> In "--debug" argv.
Proof.
  rewrite existsb_exists. split.
  - intros (arg & Hin & Harg). apply String.eqb_eq in Harg. subst. exact Hin.
  - intros Hin. exists "--debug". split; [exact Hin | reflexivity].
Qed.

(** X1. Debug logging is configured exactly when ["--debug"] occurs in
    [sys.argv], the program name at position 0 included; it is then the
    first thing the program does, and it is done once. *)
Theorem logging_is_configured_iff_debug w argv :
  (existsb is_debug argv = true <-> In "--debug" argv)
  /\ exists evs,
       trace (main_entrypoint argv) w
       = (if existsb is_debug argv then [BasicConfig "DEBUG"] else []) ++ evs
       /\ Forall (fun e => is_basic_config e = false) evs.
Proof.
  split; [apply existsb_is_debug|].
  rewrite trace_events.
  destruct (port_globs_of argv) as [|glob globs] eqn:E.
  - destruct (main_entrypoint_without_globs argv w [] E) as [-> _].
    rewrite configure_logging_events. eexists. split; [reflexivity|].
    apply (usage_emits (fun e => is_basic_config e = false)); reflexivity.
  - assert (Hne : port_globs_of argv <> []) by (rewrite E; discriminate).
    destruct (main_entrypoint_with_globs argv w [] Hne) as [-> _].
    rewrite configure_logging_events. eexists. split; [reflexivity|].
    eapply Forall_impl; [|apply main_async_makes_its_own_calls].
    intros [] H; try reflexivity; discriminate H.
Qed.

(** ** A sentence without words *)

Lemma split_from_blank cs :
  forallb is_whitespace cs = true -> split_from [] cs = [].
Proof.
  induction cs as [|c cs IH]; cbn [forallb split_from]; [reflexivity|].
  intros H. apply andb_prop in H as [-> Hcs]. apply IH, Hcs.
Qed.

Lemma split_nil_iff sentence :
  split sentence = [] <-> forallb is_whitespace (list_ascii_of_string sentence) = true.
Proof.
  split.
  - intros H. pose proof (split_separated sentence) as Hsep. rewrite H in Hsep.
    inversion Hsep; subst; assumption.
  - intros H. unfold split. rewrite split_from_blank by exact H. reflexivity.
Qed.

(** X2. [clock_display_sentence] makes no call at all, not even a
    sleep, exactly when the sentence is empty or consists of whitespace
    only, and then it returns; on any other sentence its first call is
    the sleep of 0.2 seconds, in every world. *)
Theorem blank_sentence_displays_nothing w h dgt sentence :
  (events (clock_display_sentence dgt sentence) w h = []
   <-> forallb is_whitespace (list_ascii_of_string sentence) = true)
  /\ (events (clock_display_sentence dgt sentence) w h = [] ->
      ending (clock_display_sentence dgt sentence) w h = Returns tt)
  /\ (events (clock_display_sentence dgt sentence) w h = []
      \/ exists evs, events (clock_display_sentence dgt sentence) w h
                     = Sleep 0.2%Q :: evs).
Proof.
  rewrite <- split_nil_iff. unfold clock_display_sentence.
  destruct (split sentence) as [|word words]; cbn [for_each].
  - split; [split; reflexivity|]. split; [reflexivity | left; reflexivity].
  - rewrite events_bind, events_perform_bind. cbn [app].
    split; [split; discriminate|]. split; [discriminate|].
    right. eexists. reflexivity.
Qed.

(** ** The usage text *)

Lemma print_ports ports w : forall h,
  events (for_each (map port_entry ports) print_port) w h = map port_line ports
  /\ ending (for_each (map port_entry ports) print_port) w h = Returns tt.
Proof.
  induction ports as [|[[dev name] info] ports IH]; intros h; cbn [map for_each].
  - split; reflexivity.
  - rewrite events_bind, ending_bind.
    change (print_port (port_entry (dev, name, info)))
      with (print [VFmt [VStr "  * "; dev; VStr " ("; info; VStr ")"]]).
    rewrite events_print, ending_print.
    destruct (IH (h ++ [Print [VFmt [VStr "  * "; dev; VStr " ("; info; VStr ")"]]]))
      as [-> ->].
    split; reflexivity.
Qed.

(** X3. When the serial ports are listed as triples of device, name and
    description, [usage] prints the usage text, the line "Probably one
    of:", then one line for each port, in the order of the listing and
    made of the device and the description (the name is not shown), and
    it returns 1; with no port attached the two first lines are all it
    prints. *)
Theorem usage_lists_the_ports w h ports :
  w (h ++ [Print [VStr (strip doc)]; Print [VStr "  Probably one of:"]; Comports])
  = Returns (VList (map port_entry ports)) ->
  events usage w h
  = Print [VStr (strip doc)] :: Print [VStr "  Probably one of:"] :: Comports
    :: map port_line ports
  /\ ending usage w h = Returns 1%Z.
Proof.
  intros Hports. unfold usage.
  rewrite !events_bind, !ending_bind, !events_print, !ending_print,
    events_perform, ending_perform.
  replace (((h ++ [Print [VStr (strip doc)]]) ++ [Print [VStr "  Probably one of:"]])
           ++ [Comports])
    with (h ++ [Print [VStr (strip doc)]; Print [VStr "  Probably one of:"]; Comports])
    by (rewrite <- !app_assoc; reflexivity).
  rewrite Hports, events_bind, ending_bind.
  unfold iterate. rewrite events_ret, ending_ret, events_bind, ending_bind.
  match goal with |- context [events (for_each _ print_port) w ?x] =>
    destruct (print_ports ports w x) as [-> ->] end.
  rewrite events_ret, ending_ret, !app_nil_r. split; reflexivity.
Qed.

(** ** One handle *)

(** X4. Every call [main_async] makes on a handle (registering a
    handler, awaiting a command, closing) is made on the handle that
    [auto_connect] returned; when [auto_connect] does not return,
    [main_async] makes no further call. *)
Theorem every_call_is_on_the_connected_handle port_globs w h :
  match w (h ++ [AutoConnect port_globs]) with
  | Returns dgt => Forall (on_handle dgt) (events (main_async port_globs) w h)
  | _ => events (main_async port_globs) w h = [AutoConnect port_globs]
  end.
Proof.
  unfold main_async. rewrite events_perform_bind.
  destruct (w (h ++ [AutoConnect port_globs])) as [dgt|e|]; try reflexivity.
  constructor; [exact I|].
  match goal with |- Forall _ (events ?m _ _) =>
    assert (H : emits (on_handle dgt) m);
      [unfold_main_async; follow by_computation | apply H] end.
Qed.

(** ** Closing the handle *)

Lemma cut_at_skip p l1 l2 :
  Forall (fun e => p e = false) l1 ->
  cut_at p (l1 ++ l2)
  = match cut_at p l2 with
    | Some (before, after) => Some (l1 ++ before, after)
    | None => None
    end.
Proof.
  induction 1 as [|e l1 He _ IH]; cbn [app cut_at].
  - destruct (cut_at p l2) as [[before after]|]; reflexivity.
  - rewrite He, IH. destruct (cut_at p l2) as [[before after]|]; reflexivity.
Qed.

Lemma shutdown_events_are_not_the_wait evs :
  Forall (fun e => is_shutdown_event e = false) evs ->
  Forall (fun e => is_await_forever e = false) evs
  /\ Forall (fun e => is_close e = false) evs.
Proof.
  intros H. split; (eapply Forall_impl; [|exact H]);
    intros [] He; try reflexivity; discriminate He.
Qed.

(** X5. [main_async] closes the handle only in the shutdown of the
    event loop: in every run a [close()] comes after the long-lived
    wait was entered.  So the early return of the first block and every
    exception that stops [main_async] before the event loop leave the
    handle unclosed. *)
Theorem close_only_after_the_event_loop port_globs w h before after :
  cut_at is_close (events (main_async port_globs) w h) = Some (before, after) ->
  In AwaitForever before.
Proof.
  intros Hcut.
  destruct (main_async_reaches_the_loop port_globs w h)
    as [Hnone|(dgt & pre & _ & Hpre & Hevents & _)].
  { rewrite cut_at_none in Hcut; [discriminate|].
    apply shutdown_events_are_not_the_wait, Hnone. }
  rewrite Hevents, run_the_event_loop_events in Hcut.
  revert Hcut.
  match goal with |- context [AwaitForever :: ?l] => generalize l; intros tail end.
  replace (pre ++ running_line :: AwaitForever :: tail)
    with ((pre ++ [running_line; AwaitForever]) ++ tail)
    by (rewrite <- app_assoc; reflexivity).
  rewrite cut_at_skip.
  - destruct (cut_at is_close tail) as [[b a]|]; [|discriminate].
    intros Hcut. inversion Hcut; subst.
    apply in_or_app. left. apply in_or_app. right. right. left. reflexivity.
  - apply Forall_app. split; [|repeat constructor].
    apply shutdown_events_are_not_the_wait, Hpre.
Qed.

(** X7. When [dgt.close()] itself raises, the cleanup stops there: the
    tasks are not asked for, none is cancelled, the loop is not closed,
    and the exception of [close()] comes out of [main_async] in place
    of whatever ended the wait. *)
Theorem failing_close_stops_the_cleanup port_globs w h dgt before after e :
  w (h ++ [AutoConnect port_globs]) = Returns dgt ->
  cut_at is_close (events (main_async port_globs) w h) = Some (before, after) ->
  w (h ++ before ++ [Close dgt]) = Raises e ->
  after = [] /\ ending (main_async port_globs) w h = Raises e.
Proof.
  intros Hdgt Hcut Hraised.
  destruct (main_async_reaches_the_loop port_globs w h)
    as [Hnone|(dgt' & pre & Hdgt' & Hpre & Hevents & Hending)].
  { rewrite cut_at_none in Hcut; [discriminate|].
    apply shutdown_events_are_not_the_wait, Hnone. }
  rewrite Hdgt in Hdgt'. inversion Hdgt'; subst dgt'; clear Hdgt'.
  rewrite Hevents, run_the_event_loop_events in Hcut.
  rewrite Hending, run_the_event_loop_ending.
  assert (Hpre' : Forall (fun e => is_close e = false)
                         (pre ++ [running_line; AwaitForever])).
  { apply Forall_app. split; [|repeat constructor].
    apply shutdown_events_are_not_the_wait, Hpre. }
  unfold shut_down in *.
  destruct (w ((h ++ pre) ++ [running_line; AwaitForever])) as [a|[]|];
    rewrite ?events_perform_bind, ?ending_perform_bind in *;
    try (replace (pre ++ running_line :: AwaitForever :: [])
           with ((pre ++ [running_line; AwaitForever]) ++ [])
           in Hcut by (rewrite <- app_assoc; reflexivity);
         rewrite cut_at_skip in Hcut by exact Hpre'; discriminate Hcut);
    match type of Hcut with
    | cut_at _ (pre ++ running_line :: AwaitForever :: shutting_down_line :: ?x :: ?l)
      = _ =>
        replace (pre ++ running_line :: AwaitForever :: shutting_down_line :: x :: l)
          with ((pre ++ [running_line; AwaitForever; shutting_down_line]) ++ x :: l)
          in Hcut by (rewrite <- app_assoc; reflexivity);
        rewrite cut_at_app in Hcut;
          [| apply Forall_app; split;
             [apply shutdown_events_are_not_the_wait, Hpre | repeat constructor]
           | reflexivity]
    | cut_at _ (pre ++ running_line :: AwaitForever :: ?x :: ?l) = _ =>
        replace (pre ++ running_line :: AwaitForever :: x :: l)
          with ((pre ++ [running_line; AwaitForever]) ++ x :: l)
          in Hcut by (rewrite <- app_assoc; reflexivity);
        rewrite cut_at_app in Hcut; [| exact Hpre' | reflexivity]
    end;
    inversion Hcut; subst before after; clear Hcut;
    rewrite <- !app_assoc in Hraised; cbn [app] in Hraised;
    rewrite <- !app_assoc; cbn [app];
    rewrite Hraised; split; reflexivity.
Qed.

(** ** A request of the first block that fails *)

Lemma place_in_app (l1 l2 pre post : list event) x :
  l1 ++ l2 = pre ++ x :: post ->
  (exists post1, l1 = pre ++ x :: post1 /\ post = post1 ++ l2)
  \/ (exists pre2, l2 = pre2 ++ x :: post /\ pre = l1 ++ pre2).
Proof.
  intros H. apply app_eq_app in H as [l [[-> H]|[-> H]]].
  - destruct l as [|y l]; cbn [app] in H.
    + right. exists []. split; [symmetry; exact H | rewrite !app_nil_r; reflexivity].
    + injection H as <- ->. left. exists l. split; reflexivity.
  - right. exists l. split; [exact H | reflexivity].
Qed.

Lemma stops_perform ev : stops_where_it_fails (perform ev).
Proof.
  intros w h pre c t post e Hsplit Hraised. rewrite events_perform in Hsplit.
  destruct pre as [|x pre]; [|destruct pre; discriminate Hsplit].
  injection Hsplit as -> <-. split; [reflexivity | exact Hraised].
Qed.

Lemma stops_without_await {A} (m : M A) :
  emits (fun e => is_await e = false) m -> stops_where_it_fails m.
Proof.
  intros Hm w h pre c t post e Hsplit _. exfalso.
  specialize (Hm w h). rewrite Hsplit, Forall_app in Hm.
  destruct Hm as [_ Hm]. inversion Hm as [|? ? Hhead _]. discriminate Hhead.
Qed.

Lemma stops_bind {A B} (m : M A) (k : A -> M B) :
  stops_where_it_fails m -> (forall a, stops_where_it_fails (k a)) ->
  stops_where_it_fails (bind m k).
Proof.
  intros Hm Hk w h pre c t post e Hsplit Hraised.
  rewrite events_bind in Hsplit. rewrite ending_bind.
  apply place_in_app in Hsplit as [(post1 & Hsplit & ->)|(pre2 & Hsplit & ->)].
  - destruct (Hm w h pre c t post1 e Hsplit Hraised) as [-> ->].
    split; reflexivity.
  - destruct (ending m w h) as [a|e'|]; [|destruct pre2; discriminate Hsplit..].
    apply (Hk a w (h ++ events m w h) pre2 c t post e Hsplit).
    rewrite <- Hraised, <- !app_assoc. reflexivity.
Qed.

(** X8. Whichever request of the first block fails, the block stops
    there.  If the failure is an [Exception] (a timeout included), the
    next thing is the error message and [main_async] goes on with the
    statement after the block, the requests after the failed one being
    skipped; if it is a cancellation, the next thing is the
    cancellation message and [main_async] returns without a value; a
    [SystemExit] goes through. *)
Theorem a_failed_request_ends_the_first_block w h dgt pre c post e :
  events (get_some_information dgt) w h = pre ++ Await c None :: post ->
  w (h ++ pre ++ [Await c None]) = Raises e ->
  match e with
  | CancelledError =>
      post = [cancelled_line]
      /\ ending (get_some_information dgt) w h = Returns (Return None)
  | SystemExit _ =>
      post = [] /\ ending (get_some_information dgt) w h = Raises e
  | _ =>
      post = [information_error_line e]
      /\ ending (get_some_information dgt) w h = Returns Next
  end.
Proof.
  intros Hsplit Hraised. revert Hsplit. unfold get_some_information.
  rewrite events_try_except, ending_try_except.
  match goal with |- context [ending ?b w h] => set (body := b) end.
  assert (Hbody : stops_where_it_fails body).
  { subst body.
    repeat first
      [ apply stops_bind; [|intros ?]
      | apply stops_perform
      | apply stops_without_await;
        first [apply emits_print; reflexivity | apply emits_call_board_fen
              | apply emits_ret] ]. }
  intros Hsplit.
  apply place_in_app in Hsplit as [(post1 & Hsplit & ->)|(pre2 & Hsplit & ->)].
  - destruct (Hbody w h pre c None post1 e Hsplit Hraised) as [-> ->].
    destruct e; cbn; split; reflexivity.
  - exfalso. destruct (ending body w h) as [f|e'|]; [destruct pre2; discriminate Hsplit| |].
    + destruct e'; cbn in Hsplit;
        try (destruct pre2 as [|? [|? ?]]; discriminate Hsplit).
    + destruct pre2; discriminate Hsplit.
Qed.

(** ** No error of a command escapes *)

(** X9. No [Exception] raised by a command on the handle, a timeout
    included, ever escapes [main_async].  An [Exception] that comes out
    of [main_async] was raised, in this run, by a call that is no
    command: [auto_connect], a registration, a sleep, the long-lived
    wait or a call of the shutdown; or it is the [TypeError] of a task
    set that cannot be iterated. *)
Theorem no_command_error_escapes port_globs w h e :
  ending (main_async port_globs) w h = Raises e ->
  is_Exception e = true ->
  e = not_iterable
  \/ exists pre ev post,
       events (main_async port_globs) w h = pre ++ ev :: post
       /\ w (h ++ pre ++ [ev]) = Raises e
       /\ is_await ev = false.
Proof.
  intros Hraised He.
  destruct (main_async_escapes port_globs w h e Hraised)
    as [Hi|(pre & ev & post & Hevents & Hw & Ho)]; [left; exact Hi|].
  right. exists pre, ev, post. split; [exact Hevents|]. split; [exact Hw|].
  destruct (is_await ev); [|reflexivity]. rewrite Ho in He by reflexivity.
  discriminate He.
Qed.

(** ** The sentence display, cancelled or not *)

Lemma display_words_complete dgt words w : forall h,
  ending (for_each words (fun word =>
            perform (Sleep 0.2%Q) ;;
            try_except
              (perform (Await (dgt_call dgt "clock_text" [VStr word]) (Some 0.5%Q)) ;;
               ret tt)
              (on_timeout_or_error "Sending clock text timed out."
                                   "Error sending clock text: "))) w h
  = Returns tt ->
  filter (fun e => negb (is_print e))
         (events (for_each words (fun word =>
            perform (Sleep 0.2%Q) ;;
            try_except
              (perform (Await (dgt_call dgt "clock_text" [VStr word]) (Some 0.5%Q)) ;;
               ret tt)
              (on_timeout_or_error "Sending clock text timed out."
                                   "Error sending clock text: "))) w h)
  = attempts dgt words.
Proof.
  induction words as [|word words IH]; intros h; cbn [for_each]; [reflexivity|].
  intros H. rewrite ending_bind in H. rewrite events_bind, filter_app.
  destruct (display_one_word_anyway dgt word w h) as [[_ Hstop] | ->].
  - match type of H with match ?r with _ => _ end = _ =>
      destruct r as [a|e|]; [destruct (Hstop a eq_refl) | discriminate..] end.
  - match type of H with match ?r with _ => _ end = _ =>
      destruct r as [a|e|]; [|discriminate..] end.
    rewrite (IH _ H). reflexivity.
Qed.

(** X11. [clock_display_sentence] returns only when it has attempted
    every word: a display that was cut short does not return.  And an
    [Exception] that comes out of it was raised by one of its sleeps,
    never by an attempt to show a word. *)
Theorem display_returns_only_when_complete w h dgt sentence :
  (ending (clock_display_sentence dgt sentence) w h = Returns tt ->
   filter (fun e => negb (is_print e))
          (events (clock_display_sentence dgt sentence) w h)
   = flat_map (fun word =>
       [Sleep 0.2%Q; Await (dgt_call dgt "clock_text" [VStr word]) (Some 0.5%Q)])
       (split sentence))
  /\ (forall e,
        ending (clock_display_sentence dgt sentence) w h = Raises e ->
        is_Exception e = true ->
        exists pre post,
          events (clock_display_sentence dgt sentence) w h = pre ++ Sleep 0.2%Q :: post
          /\ w (h ++ pre ++ [Sleep 0.2%Q]) = Raises e).
Proof.
  split; [apply display_words_complete|].
  intros e Hraised He.
  assert (Hescapes : escapes_only
            (fun ev e => is_Exception e = true -> ev = Sleep 0.2%Q)
            (fun _ => False)
            (clock_display_sentence dgt sentence)).
  { unfold clock_display_sentence. apply eo_for_each. intros word.
    apply eo_bind; [apply eo_perform; reflexivity | intros _].
    apply eo_catch_all; [anything_goes | apply on_timeout_or_error_catches|].
    intros ev e' Hnot He'. congruence. }
  destruct (Hescapes w h e Hraised) as [[]|(pre & ev & post & Hevents & Hw & Ho)].
  rewrite (Ho He) in *. exists pre, post. split; assumption.
Qed.

(** ** The order of the commands *)

Lemma in_order_quiet {A} (m : M A) :
  emits (fun e => is_await e = false) m -> in_order [] m.
Proof.
  intros Hm w h.
  assert (H : awaited (events m w h) = []).
  { specialize (Hm w h). induction Hm as [|e evs He _ IH]; [reflexivity|].
    destruct e; try discriminate He; exact IH. }
  rewrite H. split; [exists 0%nat; reflexivity | reflexivity].
Qed.

Lemma in_order_always {A} cmds (m : M A) :
  (forall w h, awaited (events m w h) = cmds) -> in_order cmds m.
Proof.
  intros Hm w h. rewrite Hm. split; [|reflexivity].
  exists (List.length cmds). rewrite firstn_all. reflexivity.
Qed.

Lemma in_order_bind {A B} c1 c2 (m : M A) (k : A -> M B) :
  in_order c1 m -> (forall a, in_order c2 (k a)) -> in_order (c1 ++ c2) (bind m k).
Proof.
  intros Hm Hk w h. rewrite events_bind, ending_bind, awaited_app.
  destruct (Hm w h) as [[n Hn] Hall].
  destruct (ending m w h) as [a|e|] eqn:E.
  - rewrite (Hall a eq_refl).
    destruct (Hk a w (h ++ events m w h)) as [[n2 Hn2] Hall2]. split.
    + exists (List.length c1 + n2)%nat. rewrite Hn2, firstn_app_2. reflexivity.
    + intros b Hb. rewrite (Hall2 b Hb). reflexivity.
  - split; [|discriminate]. rewrite app_nil_r, Hn.
    exists (Nat.min n (List.length c1)).
    rewrite firstn_app.
    replace (Nat.min n (List.length c1) - List.length c1)%nat with 0%nat by lia.
    cbn [firstn]. rewrite app_nil_r, <- firstn_firstn, firstn_all. reflexivity.
  - split; [|discriminate]. rewrite app_nil_r, Hn.
    exists (Nat.min n (List.length c1)).
    rewrite firstn_app.
    replace (Nat.min n (List.length c1) - List.length c1)%nat with 0%nat by lia.
    cbn [firstn]. rewrite app_nil_r, <- firstn_firstn, firstn_all. reflexivity.
Qed.

Lemma in_order_for_each {A} (f : A -> call * option Q) items body :
  (forall x, in_order [f x] (body x)) -> in_order (map f items) (for_each items body).
Proof.
  intros Hb. induction items as [|x items IH]; cbn [for_each map].
  - apply in_order_quiet, emits_ret.
  - apply (in_order_bind [f x]); [apply Hb | intros _; exact IH].
Qed.

Lemma get_the_clock_version_awaits dgt w h :
  awaited (events (get_the_clock_version dgt) w h)
  = [(dgt_call dgt "get_clock_version" [], Some 1.0%Q)].
Proof.
  unfold get_the_clock_version.
  rewrite events_try_except, events_perform_bind, ending_perform_bind.
  destruct (w (h ++ [Await (dgt_call dgt "get_clock_version" []) (Some 1.0%Q)]))
    as [a|[]|]; reflexivity.
Qed.

Lemma clock_text_awaits dgt word w h :
  awaited (events (try_except
             (perform (Await (dgt_call dgt "clock_text" [VStr word]) (Some 0.5%Q)) ;;
              ret tt)
             (on_timeout_or_error "Sending clock text timed out."
                                  "Error sending clock text: ")) w h)
  = [(dgt_call dgt "clock_text" [VStr word], Some 0.5%Q)].
Proof.
  rewrite events_try_except, events_perform_bind, ending_perform_bind.
  destruct (w (h ++ [Await (dgt_call dgt "clock_text" [VStr word]) (Some 0.5%Q)]))
    as [a|[]|]; reflexivity.
Qed.

Lemma let_the_clock_beep_awaits dgt w h :
  awaited (events (let_the_clock_beep dgt) w h)
  = [(dgt_call dgt "clock_beep" [VFloat 0.1%Q], Some 1.0%Q)].
Proof.
  unfold let_the_clock_beep.
  rewrite events_try_except, events_print_bind, ending_print_bind,
    events_perform_bind, ending_perform_bind.
  destruct (w ((h ++ [Print [VStr "Beep ..."]])
               ++ [Await (dgt_call dgt "clock_beep" [VFloat 0.1%Q]) (Some 1.0%Q)]))
    as [a|[]|]; reflexivity.
Qed.

Lemma start_a_countdown_awaits dgt w h :
  awaited (events (start_a_countdown dgt) w h) = [(countdown_call dgt, Some 1.0%Q)].
Proof.
  unfold start_a_countdown.
  rewrite events_try_except, events_print_bind, ending_print_bind,
    events_perform_bind, ending_perform_bind.
  destruct (w ((h ++ [Print [VStr "Countdown ..."]])
               ++ [Await (countdown_call dgt) (Some 1.0%Q)]))
    as [a|[]|]; reflexivity.
Qed.

Lemma commands_by_block {A} (a b c : A) (ws : list A) :
  a :: ws ++ [b; c] = [a] ++ [] ++ ws ++ [b] ++ [c] ++ [] ++ [].
Proof. reflexivity. Qed.

Lemma clock_commands_by_block dgt :
  clock_commands dgt
  = [(dgt_call dgt "get_clock_version" [], Some 1.0%Q)]
    ++ []
    ++ map (fun word => (dgt_call dgt "clock_text" [VStr word], Some 0.5%Q)) (split quote)
    ++ [(dgt_call dgt "clock_beep" [VFloat 0.1%Q], Some 1.0%Q)]
    ++ [(countdown_call dgt, Some 1.0%Q)]
    ++ [] ++ [].
Proof. unfold clock_commands. apply commands_by_block. Qed.

Lemma drive_the_clock_in_order dgt : in_order (clock_commands dgt) (drive_the_clock dgt).
Proof.
  rewrite clock_commands_by_block. unfold drive_the_clock.
  apply in_order_bind; [apply in_order_always, get_the_clock_version_awaits | intros _].
  apply in_order_bind; [apply in_order_quiet, emits_print; reflexivity | intros _].
  apply in_order_bind; [|intros _].
  { unfold clock_display_sentence. apply in_order_for_each. intros word.
    apply (in_order_bind []);
      [apply in_order_quiet, emits_perform; reflexivity | intros _].
    apply in_order_always, clock_text_awaits. }
  apply in_order_bind; [apply in_order_always, let_the_clock_beep_awaits | intros _].
  apply in_order_bind; [apply in_order_always, start_a_countdown_awaits | intros _].
  apply in_order_bind; [|intros _; apply in_order_quiet, emits_ret].
  apply in_order_quiet. unfold run_the_event_loop, shut_down. follow by_computation.
Qed.

Lemma requests_by_block {A} (a b c d : A) :
  [a; b; c; d] = [a] ++ [] ++ [b] ++ [] ++ [c] ++ [] ++ [d] ++ [] ++ [] ++ [].
Proof. reflexivity. Qed.

Lemma get_some_information_in_order dgt w h :
  exists n,
    awaited (events (get_some_information dgt) w h)
    = firstn n (information_requests dgt).
Proof.
  unfold get_some_information. rewrite events_try_except, awaited_app.
  match goal with |- context [ending ?b w h] =>
    assert (Hbody : in_order (information_requests dgt) b) end.
  { unfold information_requests. rewrite requests_by_block.
    repeat lazymatch goal with
      | |- in_order _ (bind _ _) => apply in_order_bind; [|intros ?]
      | |- in_order _ (perform _) => apply in_order_always; reflexivity
      | |- in_order _ (print _) => apply in_order_quiet, emits_print; reflexivity
      | |- in_order _ (call_board_fen _) =>
          apply in_order_quiet, emits_call_board_fen
      | |- in_order _ (ret _) => apply in_order_quiet, emits_ret
      end. }
  destruct (Hbody w h) as [[n Hn] _]. exists n. rewrite Hn. clear Hn Hbody.
  match goal with |- context [ending ?b w h] =>
    generalize (events b w h); generalize (ending b w h) end.
  intros r evs.
  transitivity (firstn n (information_requests dgt) ++ []); [|apply app_nil_r].
  f_equal. destruct r as [f|e|]; try reflexivity.
  destruct e; reflexivity.
Qed.

(** X12. In every run, cancelled or not, the commands [main_async]
    awaits on the handle are sent in the order of the program, none
    twice and none before its turn: first some of the four information
    requests from the start of their list, then some of the clock
    commands (clock version, the words of the quote, beep, countdown)
    from the start of theirs. *)
Theorem commands_are_sent_in_order port_globs w h :
  match w (h ++ [AutoConnect port_globs]) with
  | Returns dgt =>
      exists n m,
        awaited (events (main_async port_globs) w h)
        = firstn n (information_requests dgt) ++ firstn m (clock_commands dgt)
  | _ => awaited (events (main_async port_globs) w h) = []
  end.
Proof.
  unfold main_async. rewrite events_perform_bind.
  destruct (w (h ++ [AutoConnect port_globs])) as [dgt|e|]; try reflexivity.
  do 6 (rewrite events_perform_bind;
        match goal with |- context [match w ?x with _ => _ end] =>
          destruct (w x) as [?|?|]; [|exists 0%nat, 0%nat; reflexivity..] end).
  rewrite events_bind.
  match goal with |- context [events (get_some_information dgt) w ?x] =>
    destruct (get_some_information_in_order dgt w x) as [n Hn];
    generalize dependent (events (get_some_information dgt) w x);
    generalize (ending (get_some_information dgt) w x);
    generalize x end.
  intros h' r info Hn. exists n.
  repeat rewrite awaited_print || (unfold awaited at 1; cbn [flat_map app]; fold awaited).
  rewrite awaited_app, Hn.
  destruct r as [[|v]|e|]; try (exists 0%nat; reflexivity).
  destruct (drive_the_clock_in_order dgt w (h' ++ info)) as [[m ->] _].
  exists m. reflexivity.
Qed.

(** ** The further properties on sample runs *)

Lemma logging_is_configured_iff_debug_witness :
  In "--debug" ["asyncdgt"; "/dev/ttyUSB*"; "--debug"].
Proof.
  apply (proj1 (proj1 (logging_is_configured_iff_debug (answering attached)
                         ["asyncdgt"; "/dev/ttyUSB*"; "--debug"]))).
  reflexivity.
Defined.

Lemma blank_sentence_displays_nothing_witness :
  ending (clock_display_sentence (VObject 0) "   ") (answering attached) [] = Returns tt.
Proof.
  apply (proj1 (proj2 (blank_sentence_displays_nothing
                         (answering attached) [] (VObject 0) "   "))).
  reflexivity.
Defined.

Lemma usage_lists_the_ports_witness :
  events usage (answering attached) []
  = Print [VStr (strip doc)] :: Print [VStr "  Probably one of:"] :: Comports
    :: map port_line [(VStr "/dev/ttyUSB0", VStr "ttyUSB0", VStr "USB VID:PID=0403:6001")]
  /\ ending usage (answering attached) [] = Returns 1%Z.
Proof.
  apply (usage_lists_the_ports (answering attached) []
           [(VStr "/dev/ttyUSB0", VStr "ttyUSB0", VStr "USB VID:PID=0403:6001")]).
  reflexivity.
Defined.

Lemma close_only_after_the_event_loop_witness :
  exists before after,
    cut_at is_close (events (main_async ["/dev/ttyUSB*"]) (answering attached) [])
    = Some (before, after)
    /\ In AwaitForever before.
Proof.
  eexists. eexists. split.
  - vm_compute. reflexivity.
  - eapply (close_only_after_the_event_loop ["/dev/ttyUSB*"] (answering attached) []).
    vm_compute. reflexivity.
Defined.

Lemma failing_close_stops_the_cleanup_witness :
  exists before after,
    cut_at is_close (events (main_async ["/dev/ttyUSB*"]) (answering close_fails) [])
    = Some (before, after)
    /\ after = []
    /\ ending (main_async ["/dev/ttyUSB*"]) (answering close_fails) []
       = Raises (Exception "port busy").
Proof.
  eexists. eexists. split.
  - vm_compute. reflexivity.
  - eapply (failing_close_stops_the_cleanup ["/dev/ttyUSB*"] (answering close_fails) []
              (VObject 0)).
    + reflexivity.
    + vm_compute. reflexivity.
    + vm_compute. reflexivity.
Defined.

Lemma a_failed_request_ends_the_first_block_witness :
  [cancelled_line] = [cancelled_line]
  /\ ending (get_some_information (VObject 0)) (answering cancelled_early) []
     = Returns (Return None).
Proof.
  apply (a_failed_request_ends_the_first_block (answering cancelled_early) []
           (VObject 0) [] (dgt_call (VObject 0) "get_version" []) [cancelled_line]
           CancelledError).
  - reflexivity.
  - reflexivity.
Defined.

Lemma no_command_error_escapes_witness :
  Exception "port busy" = not_iterable
  \/ exists pre ev post,
       events (main_async ["/dev/ttyUSB*"]) (answering close_fails) [] = pre ++ ev :: post
       /\ answering close_fails ([] ++ pre ++ [ev]) = Raises (Exception "port busy")
       /\ is_await ev = false.
Proof.
  apply (no_command_error_escapes ["/dev/ttyUSB*"] (answering close_fails) []).
  - vm_compute. reflexivity.
  - reflexivity.
Defined.

Lemma display_returns_only_when_complete_witness :
  filter (fun e => negb (is_print e))
         (events (clock_display_sentence (VObject 0) "Hello world")
                 (answering silent_clock) [])
  = flat_map (fun word =>
      [Sleep 0.2%Q; Await (dgt_call (VObject 0) "clock_text" [VStr word]) (Some 0.5%Q)])
      (split "Hello world").
Proof.
  apply (proj1 (display_returns_only_when_complete
                  (answering silent_clock) [] (VObject 0) "Hello world")).
  reflexivity.
Defined.
